(** * Verse chunker (lib/verse-chunker.js): shallow embedding and properties

    The chunker turns the text of a Verse file into retrieval chunks in three
    passes: the indentation-aware state machine of [chunkVerseFile], the
    member extraction of [extractNestedMethods], and the token-budget split of
    [applyTokenLimits].

    Conventions of the embedding:
    - a JavaScript string is the list of its UTF-16 code units ([N]);
    - JavaScript numbers that hold line numbers, indentation and token counts
      are integers ([Z]); the sentinel [-1] of the extractor is kept;
    - a regular expression literal is a value of [regex], and
      [RegExp.prototype.test] is membership in its language, decided with
      Brzozowski derivatives;
    - the token estimator of lib/tokenizer.js is not part of the chunker and
      is a parameter ([estimateTokens]), as are the two numbers returned by
      [getChunkingParams]. *)

From Stdlib Require Import Ascii String.
From Stdlib Require Import List ZArith NArith Lia Bool.
Import ListNotations.

(* ================================================================== *)
(** ** JavaScript strings *)
(* ================================================================== *)

Definition char := N.
Definition jsstring := list char.

(** A string literal of the source, as code units. *)
Definition lit (s : String.string) : jsstring :=
  map Ascii.N_of_ascii (String.list_ascii_of_string s).
Arguments lit s%_string.

Definition LF : char := 10%N.
Definition CR : char := 13%N.
Definition TAB : char := 9%N.

(** [\s] of a JavaScript regular expression, which is also the set that
    [String.prototype.trim] strips: WhiteSpace and LineTerminator. *)
Definition isSpace (c : char) : bool :=
  existsb (N.eqb c)
    [9; 10; 11; 12; 13; 32; 160; 5760; 8232; 8233; 8239; 8287; 12288; 65279]%N
  || ((8192 <=? c)%N && (c <=? 8202)%N).

(** [\w] without the [i] and [u] flags: [[A-Za-z0-9_]]. *)
Definition isWord (c : char) : bool :=
  ((48 <=? c)%N && (c <=? 57)%N)
  || ((65 <=? c)%N && (c <=? 90)%N)
  || ((97 <=? c)%N && (c <=? 122)%N)
  || (c =? 95)%N.

Fixpoint dropWhile (p : char -> bool) (s : jsstring) : jsstring :=
  match s with
  | [] => []
  | c :: s' => if p c then dropWhile p s' else s
  end.

Fixpoint takeWhile (p : char -> bool) (s : jsstring) : jsstring :=
  match s with
  | [] => []
  | c :: s' => if p c then c :: takeWhile p s' else []
  end.

Definition trimStart (s : jsstring) : jsstring := dropWhile isSpace s.
Definition trimEnd (s : jsstring) : jsstring := rev (dropWhile isSpace (rev s)).

(** [s.trim()] *)
Definition trim (s : jsstring) : jsstring := trimEnd (trimStart s).

(** Puts [c] in front of the first piece of a split. *)
Definition cons_head (c : char) (ls : list jsstring) : list jsstring :=
  match ls with
  | [] => [[c]]
  | l :: ls' => (c :: l) :: ls'
  end.

(** [s.split('\n')] *)
Fixpoint split_nl (s : jsstring) : list jsstring :=
  match s with
  | [] => [[]]
  | c :: s' =>
      if (c =? LF)%N then [] :: split_nl s' else cons_head c (split_nl s')
  end.

(** s.split(/\r?\n/): a line feed ends a line, and a carriage return just
    before it belongs to the separator. *)
Fixpoint split_lines (s : jsstring) : list jsstring :=
  match s with
  | [] => [[]]
  | c :: s' =>
      if (c =? LF)%N then [] :: split_lines s'
      else
        match s' with
        | c' :: s'' =>
            if ((c =? CR) && (c' =? LF))%N then [] :: split_lines s''
            else cons_head c (split_lines s')
        | [] => cons_head c (split_lines s')
        end
  end.

(** [ls.join('\n')] *)
Fixpoint join_nl (ls : list jsstring) : jsstring :=
  match ls with
  | [] => []
  | [l] => l
  | l :: ls' => l ++ LF :: join_nl ls'
  end.

(** [s.includes(c)] for a one-character needle. *)
Definition includes (c : char) (s : jsstring) : bool := existsb (N.eqb c) s.

(** [s.startsWith(c)] for a one-character needle. *)
Definition startsWith (c : char) (s : jsstring) : bool :=
  match s with
  | [] => false
  | c' :: _ => (c' =? c)%N
  end.

(** [s.slice(0, n)] *)
Definition slice0 (n : nat) (s : jsstring) : jsstring := firstn n s.

(** Truthiness of a string: the empty string is falsy. *)
Definition truthy (s : jsstring) : bool :=
  match s with [] => false | _ => true end.

(** [ls[0]] of a list that came out of a split. *)
Definition first_line (ls : list jsstring) : jsstring := hd [] ls.

(* ================================================================== *)
(** ** Regular expressions *)
(* ================================================================== *)

Inductive regex : Type :=
| Void : regex                       (* matches nothing *)
| Eps : regex                        (* the empty string *)
| Cls : (char -> bool) -> regex      (* one character of a class *)
| Seq : regex -> regex -> regex
| Alt : regex -> regex -> regex
| Star : regex -> regex.

Fixpoint nullable (r : regex) : bool :=
  match r with
  | Void => false
  | Eps => true
  | Cls _ => false
  | Seq r1 r2 => nullable r1 && nullable r2
  | Alt r1 r2 => nullable r1 || nullable r2
  | Star _ => true
  end.

(** Constructors that drop [Void] and [Eps] where they change nothing. *)
Definition mkSeq (r1 r2 : regex) : regex :=
  match r1, r2 with
  | Void, _ => Void
  | _, Void => Void
  | Eps, _ => r2
  | _, Eps => r1
  | _, _ => Seq r1 r2
  end.

Definition mkAlt (r1 r2 : regex) : regex :=
  match r1, r2 with
  | Void, _ => r2
  | _, Void => r1
  | _, _ => Alt r1 r2
  end.

Fixpoint deriv (c : char) (r : regex) : regex :=
  match r with
  | Void => Void
  | Eps => Void
  | Cls p => if p c then Eps else Void
  | Seq r1 r2 =>
      if nullable r1
      then mkAlt (mkSeq (deriv c r1) r2) (deriv c r2)
      else mkSeq (deriv c r1) r2
  | Alt r1 r2 => mkAlt (deriv c r1) (deriv c r2)
  | Star r1 => mkSeq (deriv c r1) (Star r1)
  end.

(** The whole string is in the language of [r]. *)
Fixpoint matches (r : regex) (s : jsstring) : bool :=
  match s with
  | [] => nullable r
  | c :: s' => matches (deriv c r) s'
  end.

Definition anyChar : regex := Cls (fun _ => true).
Definition chr (c : String.string) : regex :=
  Cls (fun x => existsb (N.eqb x) (lit c)).
Definition notChr (c : String.string) : regex :=
  Cls (fun x => negb (existsb (N.eqb x) (lit c))).
Arguments chr c%_string.
Arguments notChr c%_string.
Definition plus (r : regex) : regex := Seq r (Star r).
Definition opt (r : regex) : regex := Alt r Eps.
Definition cat (rs : list regex) : regex := fold_right Seq Eps rs.
Definition word (s : String.string) : regex :=
  cat (map (fun c => Cls (N.eqb c)) (lit s)).
Arguments word s%_string.

(** /^r$/.test(s), /^r/.test(s) and /r$/.test(s), no flags. *)
Definition test_whole (r : regex) (s : jsstring) : bool := matches r s.
Definition test_prefix (r : regex) (s : jsstring) : bool :=
  matches (Seq r (Star anyChar)) s.
Definition test_suffix (r : regex) (s : jsstring) : bool :=
  matches (Seq (Star anyChar) r) s.

Module PATTERNS.

(** The regular expressions of the source. In the comments a space is
    written after the star of the first group, which the source does not
    have. *)

Definition ws : regex := Cls isSpace.                (* \s *)
Definition nonws : regex := Cls (fun c => negb (isSpace c)).  (* \S *)
Definition w : regex := Cls isWord.                  (* \w *)
(** <[^>]+> *)
Definition spec : regex := cat [chr "<"; plus (notChr ">"); chr ">"].

(** /^(\s* )(\w+)(<[^>]+>)*\s*:=\s*(class|struct|interface|enum)/ with the
    last group fixed to one keyword; the alternation of the source tries the
    four keywords in this order (see [match_classOrStruct]). *)
Definition classOrStruct_kw (kw : String.string) : regex :=
  cat [Star ws; plus w; Star spec; Star ws; word ":="; Star ws; word kw].

(** /^(\s* )(\w+)\s*:=\s*module:/ *)
Definition moduleDecl : regex :=
  cat [Star ws; plus w; Star ws; word ":="; Star ws; word "module:"].

(** /^(\s* )\([^)]+\)\.(\w+)/ *)
Definition extensionStart : regex :=
  cat [Star ws; chr "("; plus (notChr ")"); chr ")"; chr "."; plus w].

(** /^(\s* )(\w+)(<[^>]+>)?\s*\(/ *)
Definition functionStart : regex :=
  cat [Star ws; plus w; opt spec; Star ws; chr "("].

(** /^(\s* )(\w+)(<[^>]+>)?\s*\([^)]*\)\s*(<[^>]+>)*\s*:\s*\S+\s*=\s*$/ *)
Definition simpleFunction : regex :=
  cat [Star ws; plus w; opt spec; Star ws; chr "("; Star (notChr ")");
       chr ")"; Star ws; Star spec; Star ws; chr ":"; Star ws; plus nonws;
       Star ws; chr "="; Star ws].

(** /\)\s*(<[^>]+>)*\s*:\s*\S+\s*=\s*$/ *)
Definition signatureEnd : regex :=
  cat [chr ")"; Star ws; Star spec; Star ws; chr ":"; Star ws; plus nonws;
       Star ws; chr "="; Star ws].

(** /\)\s*(<[^>]+>)*\s*:\s*\S+\s*$/ *)
Definition interfaceMethodEnd : regex :=
  cat [chr ")"; Star ws; Star spec; Star ws; chr ":"; Star ws; plus nonws;
       Star ws].

(** /^(\s* )@\w+/ *)
Definition attribute : regex := cat [Star ws; chr "@"; plus w].

(** /^(\s* )#/ *)
Definition comment : regex := cat [Star ws; chr "#"].

(** /^(\s* )using\s*\{/ *)
Definition usingStmt : regex := cat [Star ws; word "using"; Star ws; chr "{"].

(** /^\s*$/ *)
Definition emptyOrWhitespace : regex := Star ws.

(** /^(\s+)(\w+)(<[^>]+>)?\s*\(/, local to [extractNestedMethods]. *)
Definition methodPattern : regex :=
  cat [plus ws; plus w; opt spec; Star ws; chr "("].

(** /^\s*(\w+)/, used for the class name. *)
Definition leadingName : regex := cat [Star ws; plus w].

End PATTERNS.

(* ================================================================== *)
(** ** Data model *)
(* ================================================================== *)

(** The strings stored in the [type] field of a chunk or builder.
    ['interface-method'] is only ever compared against. *)
Inductive ChunkType : Type :=
| TClass | TStruct | TInterface | TEnum | TModule | TExtension
| TFunction | TMethod | TInterfaceMethod.

Definition ChunkType_eqb (a b : ChunkType) : bool :=
  match a, b with
  | TClass, TClass | TStruct, TStruct | TInterface, TInterface
  | TEnum, TEnum | TModule, TModule | TExtension, TExtension
  | TFunction, TFunction | TMethod, TMethod
  | TInterfaceMethod, TInterfaceMethod => true
  | _, _ => false
  end.

(** An emitted chunk. [parentClass] is present on extracted members only. *)
Record Chunk : Type := mkChunk {
  text : jsstring;
  startLine : Z;
  endLine : Z;
  tokenCount : Z;
  type : ChunkType;
  signature : jsstring;
  parentClass : option jsstring
}.

(** The object returned by [startChunk]. *)
Module Builder.
Record t : Type := mk {
  startLine : Z;
  signatureLines : list jsstring;
  bodyLines : list jsstring;
  baseIndent : Z;
  type : ChunkType;
  hasBody : bool
}.
End Builder.

(** An entry of the attribute buffer. *)
Module Attr.
Record t : Type := mk { lineNum : Z; text : jsstring }.
End Attr.

Inductive State : Type := IDLE | IN_SIGNATURE | IN_BODY.

(** The locals of [chunkVerseFile] that the loop and [finalizeChunk] share. *)
Record Scan : Type := mkScan {
  state : State;
  currentChunk : option Builder.t;
  attributeLines : list Attr.t;
  chunks : list Chunk
}.

Definition set_state (s : State) (sc : Scan) : Scan :=
  mkScan s (currentChunk sc) (attributeLines sc) (chunks sc).

Definition set_currentChunk (b : option Builder.t) (sc : Scan) : Scan :=
  mkScan (state sc) b (attributeLines sc) (chunks sc).

Definition set_attributeLines (a : list Attr.t) (sc : Scan) : Scan :=
  mkScan (state sc) (currentChunk sc) a (chunks sc).

Definition push_body (line : jsstring) (b : Builder.t) : Builder.t :=
  Builder.mk (Builder.startLine b) (Builder.signatureLines b)
    (Builder.bodyLines b ++ [line]) (Builder.baseIndent b) (Builder.type b)
    (Builder.hasBody b).

Definition push_signature (line : jsstring) (b : Builder.t) : Builder.t :=
  Builder.mk (Builder.startLine b) (Builder.signatureLines b ++ [line])
    (Builder.bodyLines b) (Builder.baseIndent b) (Builder.type b)
    (Builder.hasBody b).

Definition set_hasBody (h : bool) (b : Builder.t) : Builder.t :=
  Builder.mk (Builder.startLine b) (Builder.signatureLines b)
    (Builder.bodyLines b) (Builder.baseIndent b) (Builder.type b) h.

(* ================================================================== *)
(** ** Line helpers *)
(* ================================================================== *)

(** [getIndent]: the length of group 1 of /^(\s* )/, the longest run of
    leading [\s] characters. *)
Definition getIndent (line : jsstring) : Z :=
  Z.of_nat (length (takeWhile isSpace line)).

Definition isBlankOrComment (line : jsstring) : bool :=
  test_whole PATTERNS.emptyOrWhitespace line
  || test_prefix PATTERNS.comment line.

(** [line.match(PATTERNS.classOrStruct)]: group 1 is the leading whitespace
    (the name that follows starts with a [\w] character) and group 4 the
    keyword. The result is the pair of [match[1].length] and the chunk type
    that [match[4]] becomes. *)
Definition match_classOrStruct (line : jsstring) : option (Z * ChunkType) :=
  match
    find (fun kw => test_prefix (PATTERNS.classOrStruct_kw (fst kw)) line)
      [("class"%string, TClass); ("struct"%string, TStruct);
       ("interface"%string, TInterface); ("enum"%string, TEnum)]
  with
  | Some (_, ty) => Some (getIndent line, ty)
  | None => None
  end.

Definition startChunk (lineNum : Z) (line : jsstring) (indent : Z)
    (type : ChunkType) (hasBody : bool) : Builder.t :=
  Builder.mk lineNum [line] [] indent type hasBody.

(* ================================================================== *)
(** ** The three passes *)
(* ================================================================== *)

(** How a block of the loop body ends: with [continue], or by falling
    through to the next block. *)
Inductive flow : Type :=
| Continue : Scan -> flow
| Fall : Scan -> flow.

Module Member.
(** The locals of the inner loop of [extractNestedMethods], with the
    [result] array it pushes to. *)
Record t : Type := mk {
  methodStart : Z;
  methodLines : list jsstring;
  methodIndent : Z;
  inMethodSignature : bool;
  result : list Chunk
}.
End Member.

Module Seg.
(** The locals of the inner loop of [applyTokenLimits], with the [result]
    array it pushes to. *)
Record t : Type := mk {
  currentLines : list jsstring;
  currentTokens : Z;
  startLine : Z;
  result : list Chunk
}.
End Seg.

Section Chunker.

(** [estimateTokens] of lib/tokenizer.js. *)
Variable estimateTokens : jsstring -> Z.

(* ------------------------------------------------------------------ *)
(** *** Pass 1: the state machine of [chunkVerseFile] *)

(** Lines 111-117: the buffered attributes go in front of the builder. *)
Definition withAttributes (attrs : list Attr.t) (cur : Builder.t)
    : Builder.t :=
  match attrs with
  | [] => cur
  | a :: _ =>
      Builder.mk (Attr.lineNum a)
        (map Attr.text attrs ++ Builder.signatureLines cur)
        (Builder.bodyLines cur) (Builder.baseIndent cur) (Builder.type cur)
        (Builder.hasBody cur)
  end.

(** Lines 119-121: [signature] and [fullContent]. *)
Definition builderSignature (cur : Builder.t) : jsstring :=
  trim (join_nl (Builder.signatureLines cur)).

Definition fullContent (cur : Builder.t) : jsstring :=
  let body := join_nl (Builder.bodyLines cur) in
  builderSignature cur ++ (if truthy body then LF :: body else []).

(** Lines 126-134: the object pushed for a builder. *)
Definition builderChunk (cur : Builder.t) (endLine : Z) : Chunk :=
  mkChunk (fullContent cur) (Builder.startLine cur) endLine
    (estimateTokens (fullContent cur)) (Builder.type cur)
    (slice0 100 (trim (first_line (split_nl (builderSignature cur)))))
    None.

Definition finalizeChunk (sc : Scan) (endLine : Z) : Scan :=
  match currentChunk sc with
  | None => sc
  | Some cur0 =>
      let cur := withAttributes (attributeLines sc) cur0 in
      let chunks' :=
        if (20 <? length (trim (fullContent cur)))%nat
        then chunks sc ++ [builderChunk cur endLine]
        else chunks sc in
      mkScan (state sc) None [] chunks'
  end.

(** Lines 161-168: what is skipped while idle. *)
Definition skipped_when_idle (sc : Scan) (line : jsstring) (indent : Z)
    : bool :=
  match state sc with
  | IDLE =>
      test_prefix PATTERNS.usingStmt line
      || test_whole PATTERNS.emptyOrWhitespace line
      || (test_prefix PATTERNS.comment line && (indent =? 0)%Z)
  | _ => false
  end.

(** Lines 173-186. A builder is always open in this state (see
    [reach_open]); the branch without one returns the state as it is. *)
Definition body_block (sc : Scan) (lineNum : Z) (line : jsstring)
    (indent : Z) : flow :=
  match state sc with
  | IN_BODY =>
      match currentChunk sc with
      | Some cur =>
          if negb (isBlankOrComment line)
             && (indent <=? Builder.baseIndent cur)%Z
          then Fall (set_state IDLE (finalizeChunk sc (lineNum - 1)))
          else Continue (set_currentChunk (Some (push_body line cur)) sc)
      | None => Continue sc
      end
  | _ => Fall sc
  end.

(** Lines 191-205. *)
Definition signature_block (sc : Scan) (lineNum : Z) (line : jsstring)
    : flow :=
  match state sc with
  | IN_SIGNATURE =>
      match currentChunk sc with
      | Some cur =>
          let cur1 := push_signature line cur in
          if test_suffix PATTERNS.signatureEnd line
          then Continue
                 (set_state IN_BODY
                    (set_currentChunk (Some (set_hasBody true cur1)) sc))
          else if test_suffix PATTERNS.interfaceMethodEnd line
                  && ChunkType_eqb (Builder.type cur1) TInterfaceMethod
          then Continue
                 (set_state IDLE
                    (finalizeChunk (set_currentChunk (Some cur1) sc) lineNum))
          else Continue (set_currentChunk (Some cur1) sc)
      | None => Continue sc
      end
  | _ => Fall sc
  end.

(** Lines 210-287. Group 1 of each definition pattern is the leading
    whitespace of the line, so [match[1].length] is [getIndent line]. *)
Definition idle_block (sc : Scan) (lineNum : Z) (line : jsstring) : Scan :=
  match state sc with
  | IDLE =>
      if test_prefix PATTERNS.attribute line
      then set_attributeLines
             (attributeLines sc ++ [Attr.mk lineNum line]) sc
      else
      match match_classOrStruct line with
      | Some (ind, ty) =>
          let sc1 :=
            set_currentChunk (Some (startChunk lineNum line ind ty true)) sc in
          if ChunkType_eqb ty TEnum
             && includes 123%N line && includes 125%N line
          then finalizeChunk sc1 lineNum
          else set_state IN_BODY sc1
      | None =>
      if test_prefix PATTERNS.moduleDecl line
      then set_state IN_BODY
             (set_currentChunk
                (Some (startChunk lineNum line (getIndent line) TModule true))
                sc)
      else if test_prefix PATTERNS.extensionStart line
      then
        let cur :=
          startChunk lineNum line (getIndent line) TExtension false in
        if test_suffix PATTERNS.signatureEnd line
        then set_state IN_BODY
               (set_currentChunk (Some (set_hasBody true cur)) sc)
        else set_state IN_SIGNATURE (set_currentChunk (Some cur) sc)
      else if test_whole PATTERNS.simpleFunction line
      then set_state IN_BODY
             (set_currentChunk
                (Some (startChunk lineNum line (getIndent line) TFunction true))
                sc)
      else if test_prefix PATTERNS.functionStart line
              && negb (test_whole PATTERNS.simpleFunction line)
      then set_state IN_SIGNATURE
             (set_currentChunk
                (Some
                   (startChunk lineNum line (getIndent line) TFunction false))
                sc)
      else if (0 <? length (attributeLines sc))%nat
              && negb (test_prefix PATTERNS.attribute line)
              && negb (isBlankOrComment line)
      then set_attributeLines [] sc
      else sc
      end
  | _ => sc
  end.

(** One iteration of the loop over the lines. *)
Definition step (sc : Scan) (lineNum : Z) (line : jsstring) : Scan :=
  let indent := getIndent line in
  if skipped_when_idle sc line indent then sc
  else
    match body_block sc lineNum line indent with
    | Continue sc' => sc'
    | Fall sc1 =>
        match signature_block sc1 lineNum line with
        | Continue sc' => sc'
        | Fall sc2 => idle_block sc2 lineNum line
        end
    end.

(** The loop from index [i] on: [lineNum] is [i + 1]. *)
Fixpoint scan_from (i : nat) (lines : list jsstring) (sc : Scan) : Scan :=
  match lines with
  | [] => sc
  | line :: rest => scan_from (S i) rest (step sc (Z.of_nat i + 1) line)
  end.

Definition initScan : Scan := mkScan IDLE None [] [].

(** Lines 93-293 of [chunkVerseFile]: the chunks before extraction and
    splitting. *)
Definition segmenterPass (content : jsstring) : list Chunk :=
  let lines := split_lines content in
  let sc := scan_from 0 lines initScan in
  let sc :=
    match currentChunk sc with
    | Some _ => finalizeChunk sc (Z.of_nat (length lines))
    | None => sc
    end in
  chunks sc.

(* ------------------------------------------------------------------ *)
(** *** Pass 2: [extractNestedMethods] *)

(** Group 1 of /^\s*(\w+)/ on [line], or [dflt] when there is no match:
    the run of [\w] characters after the leading whitespace. *)
Definition leading_name (dflt : jsstring) (line : jsstring) : jsstring :=
  if test_prefix PATTERNS.leadingName line
  then takeWhile isWord (dropWhile isSpace line)
  else dflt.

(** The object pushed for a member (lines 383-391 and 419-427). *)
Definition memberChunk (chunk : Chunk) (className : jsstring)
    (methodStart : Z) (methodLines : list jsstring) : Chunk :=
  let methodText := join_nl methodLines in
  mkChunk methodText
    (startLine chunk + methodStart)
    (startLine chunk + methodStart + Z.of_nat (length methodLines) - 1)
    (estimateTokens methodText)
    TMethod
    (className ++ lit "::" ++ slice0 80 (trim (first_line methodLines)))
    (Some className).

(** The guarded push of a member (lines 378-392 and 414-428). *)
Definition pushMember (chunk : Chunk) (className : jsstring)
    (methodStart : Z) (methodLines : list jsstring) (result : list Chunk)
    : list Chunk :=
  if (20 <? length (trim (join_nl methodLines)))%nat
  then result ++ [memberChunk chunk className methodStart methodLines]
  else result.

(** One iteration of the inner loop (lines 339-410) at index [i]. *)
Definition member_step (chunk : Chunk) (className : jsstring)
    (parentIndent : Z) (m : Member.t) (i : Z) (line : jsstring) : Member.t :=
  let indent := getIndent line in
  let trimmed := trim line in
  let started := negb (Member.methodStart m =? -1)%Z in
  let push :=
    Member.mk (Member.methodStart m) (Member.methodLines m ++ [line])
      (Member.methodIndent m) (Member.inMethodSignature m)
      (Member.result m) in
  if negb (truthy trimmed) || startsWith 35%N trimmed
  then (if started then push else m)
  else if test_prefix PATTERNS.methodPattern line
          && (parentIndent <? indent)%Z
          && (Member.methodStart m =? -1)%Z
  then Member.mk i [line] indent
         (negb (test_suffix PATTERNS.signatureEnd line)) (Member.result m)
  else if Member.inMethodSignature m && started
  then Member.mk (Member.methodStart m) (Member.methodLines m ++ [line])
         (Member.methodIndent m)
         (if test_suffix PATTERNS.signatureEnd line then false
          else Member.inMethodSignature m)
         (Member.result m)
  else if started
  then
    if (indent <=? Member.methodIndent m)%Z && truthy trimmed
    then
      let result' :=
        pushMember chunk className (Member.methodStart m)
          (Member.methodLines m) (Member.result m) in
      if test_prefix PATTERNS.methodPattern line && (parentIndent <? indent)%Z
      then Member.mk i [line] indent
             (negb (test_suffix PATTERNS.signatureEnd line)) result'
      else Member.mk (-1) [] (-1) (Member.inMethodSignature m) result'
    else push
  else m.

(** The inner loop from index [i] on. *)
Fixpoint member_loop (chunk : Chunk) (className : jsstring)
    (parentIndent : Z) (i : nat) (lines : list jsstring) (m : Member.t)
    : Member.t :=
  match lines with
  | [] => m
  | line :: rest =>
      member_loop chunk className parentIndent (S i) rest
        (member_step chunk className parentIndent m (Z.of_nat i) line)
  end.

Definition isClassOrStruct (c : Chunk) : bool :=
  ChunkType_eqb (type c) TClass || ChunkType_eqb (type c) TStruct.

(** One iteration of the outer loop (lines 317-430). *)
Definition extract_one (result : list Chunk) (chunk : Chunk) : list Chunk :=
  let result := result ++ [chunk] in
  if negb (isClassOrStruct chunk) then result
  else
    let lines := split_nl (text chunk) in
    if (length lines <? 3)%nat then result
    else
      let className := leading_name (lit "Unknown") (first_line lines) in
      let parentIndent := getIndent (first_line lines) in
      let m :=
        member_loop chunk className parentIndent 1 (tl lines)
          (Member.mk (-1) [] (-1) false result) in
      if negb (Member.methodStart m =? -1)%Z
         && (0 <? length (Member.methodLines m))%nat
      then pushMember chunk className (Member.methodStart m)
             (Member.methodLines m) (Member.result m)
      else Member.result m.

Definition extractNestedMethods (chunks : list Chunk) : list Chunk :=
  fold_left extract_one chunks [].

(* ------------------------------------------------------------------ *)
(** *** Pass 3: [applyTokenLimits] *)

Section Limits.

(** The numbers returned by [getChunkingParams]. *)
Variables targetTokens overlapTokens : Z.

(** The overlap loop (lines 476-484), walking [currentLines] from its last
    line: [rev_lines] is what is left to visit, most recent first. *)
Fixpoint overlap_loop (rev_lines : list jsstring)
    (overlapLines : list jsstring) (overlapCount : Z)
    : list jsstring * Z :=
  match rev_lines with
  | [] => (overlapLines, overlapCount)
  | l :: rest =>
      if (overlapCount <? overlapTokens)%Z
      then
        let lt := estimateTokens l in
        if (overlapCount + lt <=? overlapTokens)%Z
        then overlap_loop rest (l :: overlapLines) (overlapCount + lt)
        else (overlapLines, overlapCount)
      else (overlapLines, overlapCount)
  end.

(** The signature given to a segment: [result] is the whole output array
    at the time of the push. *)
Definition segmentSignature (result : list Chunk) (signatureLine : jsstring)
    : jsstring :=
  if (length result =? 0)%nat then signatureLine
  else lit "(continued) " ++ signatureLine.

(** One iteration of the inner loop (lines 459-493) at index [i]. *)
Definition split_step (chunk : Chunk) (signatureLine : jsstring)
    (s : Seg.t) (i : Z) (line : jsstring) : Seg.t :=
  let lineTokens := estimateTokens line in
  let s1 :=
    if (targetTokens <? Seg.currentTokens s + lineTokens)%Z
       && (0 <? length (Seg.currentLines s))%nat
    then
      let seg :=
        mkChunk (join_nl (Seg.currentLines s))
          (Seg.startLine s)
          (Seg.startLine s + Z.of_nat (length (Seg.currentLines s)) - 1)
          (Seg.currentTokens s)
          (type chunk)
          (segmentSignature (Seg.result s) signatureLine)
          None in
      let ov := overlap_loop (rev (Seg.currentLines s)) [] 0 in
      Seg.mk (fst ov) (snd ov)
        (startLine chunk + i - Z.of_nat (length (fst ov)))
        (Seg.result s ++ [seg])
    else s in
  Seg.mk (Seg.currentLines s1 ++ [line]) (Seg.currentTokens s1 + lineTokens)
    (Seg.startLine s1) (Seg.result s1).

Fixpoint split_loop (chunk : Chunk) (signatureLine : jsstring) (i : nat)
    (lines : list jsstring) (s : Seg.t) : Seg.t :=
  match lines with
  | [] => s
  | line :: rest =>
      split_loop chunk signatureLine (S i) rest
        (split_step chunk signatureLine s (Z.of_nat i) line)
  end.

(** Line 453: [chunk.signature || lines[0]]. *)
Definition signatureLineOf (chunk : Chunk) : jsstring :=
  if truthy (signature chunk) then signature chunk
  else first_line (split_nl (text chunk)).

(** One iteration of the outer loop (lines 446-510). The test
    [chunk.tokenCount <= targetTokens * 1.5] is on integers, where it is
    [2 * tokenCount <= 3 * targetTokens]. *)
Definition limit_one (result : list Chunk) (chunk : Chunk) : list Chunk :=
  if (2 * tokenCount chunk <=? 3 * targetTokens)%Z
  then result ++ [chunk]
  else
    let lines := split_nl (text chunk) in
    let signatureLine := signatureLineOf chunk in
    let s :=
      split_loop chunk signatureLine 0 lines
        (Seg.mk [] 0 (startLine chunk) result) in
    if (0 <? length (Seg.currentLines s))%nat
    then
      let text := join_nl (Seg.currentLines s) in
      if (20 <? length (trim text))%nat
      then Seg.result s ++
           [mkChunk text (Seg.startLine s) (endLine chunk)
              (Seg.currentTokens s) (type chunk)
              (segmentSignature (Seg.result s) signatureLine) None]
      else Seg.result s
    else Seg.result s.

Definition applyTokenLimits (chunks : list Chunk) : list Chunk :=
  fold_left limit_one chunks [].

(** [chunkVerseFile], given what [getChunkingParams] returned. *)
Definition chunkVerseFile (content : jsstring) : list Chunk :=
  applyTokenLimits (extractNestedMethods (segmenterPass content)).

End Limits.
End Chunker.

(* ================================================================== *)
(** ** Predicates of the statements, and example inputs *)
(* ================================================================== *)

(** *** Facts about lines and line feeds *)

(** Number of line feeds in a string. *)
Fixpoint nlc (s : jsstring) : nat :=
  match s with
  | [] => 0
  | c :: s' => if (c =? LF)%N then S (nlc s') else nlc s'
  end.

(** A string that holds no line feed. *)
Definition oneLine (s : jsstring) : Prop := nlc s = 0%nat.

Local Open Scope Z_scope.

(** *** Line ranges in order *)

(** [chain lo cs hi]: the ranges of [cs] are well formed, come one after
    the other without touching, and lie in [lo .. hi - 1]. *)
Fixpoint chain (lo : Z) (cs : list Chunk) (hi : Z) : Prop :=
  match cs with
  | [] => lo <= hi
  | c :: cs' =>
      lo <= startLine c /\ startLine c <= endLine c
      /\ chain (endLine c + 1) cs' hi
  end.

(** The text of a chunk has at most as many lines as its range. *)
Definition size_ok (c : Chunk) : Prop :=
  Z.of_nat (length (split_nl (text c))) <= endLine c - startLine c + 1.

(** The text of a chunk is above the floor of 20 characters. *)
Definition long_text (c : Chunk) : Prop :=
  (20 < length (trim (text c)))%nat.

(** What holds of a chunk that [finalizeChunk] pushed. *)
Definition emitted_ok (c : Chunk) : Prop := size_ok c /\ long_text c.

(** The range of a chunk lies in a file of [n] lines. *)
Definition in_file (n : Z) (c : Chunk) : Prop :=
  1 <= startLine c /\ startLine c <= endLine c /\ endLine c <= n.

(** *** The invariant of the state machine *)

(** The first line a chunk finalized from this state would report. *)
Definition bound (attrs : list Attr.t) (dflt : Z) : Z :=
  match attrs with
  | [] => dflt
  | a :: _ => Attr.lineNum a
  end.

(** The buffered attributes are one-line texts that fit before line [hi]. *)
Definition attrs_ok (attrs : list Attr.t) (hi : Z) : Prop :=
  Forall (fun a => oneLine (Attr.text a)) attrs
  /\ bound attrs hi + Z.of_nat (length attrs) <= hi.

(** The open builder holds the lines from its start up to line [n - 1]. *)
Definition builder_ok (n : Z) (b : Builder.t) : Prop :=
  Builder.startLine b + Z.of_nat (length (Builder.signatureLines b))
    + Z.of_nat (length (Builder.bodyLines b)) = n
  /\ Builder.signatureLines b <> []
  /\ Forall oneLine (Builder.signatureLines b)
  /\ Forall oneLine (Builder.bodyLines b).

(** Where the next chunk can start at the earliest. *)
Definition frontier (n : Z) (sc : Scan) : Z :=
  match currentChunk sc with
  | Some b => Builder.startLine b
  | None => n
  end.

(** The state before line [n] is processed. *)
Record Inv (n : Z) (sc : Scan) : Prop := mkInv {
  inv_chain : chain 1 (chunks sc) (bound (attributeLines sc) (frontier n sc));
  inv_size : Forall emitted_ok (chunks sc);
  inv_attrs : attrs_ok (attributeLines sc) (frontier n sc);
  inv_builder :
    match currentChunk sc with
    | Some b => state sc <> IDLE /\ builder_ok n b
    | None => state sc = IDLE
    end
}.

(** The number of lines of the input text. *)
Definition lineCount (content : jsstring) : Z :=
  Z.of_nat (length (split_lines content)).

(** *** The invariant of member extraction *)

(** Before index [i] of the inner loop: either no member is open, or the
    open member holds the lines from [methodStart] up to [i - 1]. *)
Definition member_ok (i : Z) (m : Member.t) : Prop :=
  Member.methodStart m = -1
  \/ (1 <= Member.methodStart m
      /\ Member.methodStart m + Z.of_nat (length (Member.methodLines m)) = i
      /\ Member.methodLines m <> []
      /\ Forall oneLine (Member.methodLines m)).

(** *** The invariant of the token-budget split *)

(** Before index [i] of the inner loop on the chunk that starts at line
    [cs]: the segment being built holds the lines just before [i]. *)
Definition seg_ok (cs i : Z) (s : Seg.t) : Prop :=
  Seg.startLine s = cs + i - Z.of_nat (length (Seg.currentLines s))
  /\ Z.of_nat (length (Seg.currentLines s)) <= i.

(** *** Line ranges of the output *)

(** A chunk with a range inside a file of [L] lines and a text that fits
    its range. *)
Definition placed (L : Z) (c : Chunk) : Prop := in_file L c /\ size_ok c.

(** Two line ranges that share no line. *)
Definition ranges_disjoint (c1 c2 : Chunk) : Prop :=
  endLine c1 < startLine c2 \/ endLine c2 < startLine c1.

(** *** Header-only methods *)

(** A token estimator for the examples: one token per code unit. *)
Definition charCount (s : jsstring) : Z := Z.of_nat (length s).

(** No builder is of the header-only kind. *)
Definition not_header_only (sc : Scan) : Prop :=
  match currentChunk sc with
  | Some b => Builder.type b <> TInterfaceMethod
  | None => True
  end.



(** *** Indentation depth *)

(** The depth as the specification words it: the leading whitespace
    columns of a line, a tab counting [tabWidth] columns and any other
    whitespace character one. *)
Fixpoint leadingColumns (tabWidth : Z) (line : jsstring) : Z :=
  match line with
  | [] => 0
  | c :: rest =>
      if isSpace c
      then (if (c =? TAB)%N then tabWidth else 1)
           + leadingColumns tabWidth rest
      else 0
  end.

Definition depth_spec (line : jsstring) : Z := leadingColumns 4 line.

(** Number of tabs in the leading whitespace. *)
Fixpoint leadingTabs (line : jsstring) : Z :=
  match line with
  | [] => 0
  | c :: rest =>
      if isSpace c
      then (if (c =? TAB)%N then 1 else 0) + leadingTabs rest
      else 0
  end.

(** *** The token-budget split on examples *)

(** A body line of [n + 4] characters. *)
Definition bodyLine (n : nat) : jsstring := lit "    " ++ repeat 97%N n.

Definition small_function : list jsstring :=
  [lit "Small()<transacts>:void="; lit "    Print(small function body)"].

Definition big_function : list jsstring :=
  [lit "Big()<transacts>:void=";
   bodyLine 46; bodyLine 46; bodyLine 46; bodyLine 46].

(** A function whose lines have 25, 50, 15, 90 and 10 characters. *)
Definition uneven_function : list jsstring :=
  [lit "Compute()<transacts>:int=";
   bodyLine 46; bodyLine 11; bodyLine 86; bodyLine 6].

(** *** End of input *)

(** A header that never ends. *)
Definition unterminated_header : jsstring :=
  join_nl [lit "Transfer<public>("; lit "    Amount: int,"].

(** *** The floor of 20 characters *)

(** A chunk of the extractor's output is one of its input, or a member
    above the floor. *)
Definition kept_or_long_member (chunks : list Chunk) (c : Chunk) : Prop :=
  In c chunks \/ (type c = TMethod /\ long_text c).

(** A function whose first line has 19 characters and whose two body lines
    have 95 each. *)
Definition short_header_function : list jsstring :=
  [lit "F()<transacts>:int="; bodyLine 91; bodyLine 91].

(** *** Chunks too small for members *)

(** A struct chunk of two lines, as the first pass emits it. *)
Definition two_line_struct : Chunk :=
  mkChunk (join_nl [lit "point := struct:"; lit "    Reset():void="])
    1 2 34 TStruct (lit "point := struct:") None.

(** *** Buffered attributes *)


(** *** The matcher and the language of a regular expression *)

(** The language of a regular expression. *)
Inductive lang : regex -> jsstring -> Prop :=
| lang_eps : lang Eps []
| lang_cls p c : p c = true -> lang (Cls p) [c]
| lang_seq r1 r2 s1 s2 :
    lang r1 s1 -> lang r2 s2 -> lang (Seq r1 r2) (s1 ++ s2)
| lang_alt_l r1 r2 s : lang r1 s -> lang (Alt r1 r2) s
| lang_alt_r r1 r2 s : lang r2 s -> lang (Alt r1 r2) s
| lang_star_nil r : lang (Star r) []
| lang_star_cons r s1 s2 :
    lang r s1 -> lang (Star r) s2 -> lang (Star r) (s1 ++ s2).

(** *** Signatures of the segments of a split chunk *)

(** The signatures of the segments pushed for one chunk: when the output
    was empty before ([first]), the first segment keeps [sig] and the
    others are continuations; otherwise all are continuations. *)
Definition signed (first : bool) (sig : jsstring) (segs : list Chunk)
    : Prop :=
  match first, segs with
  | true, c :: rest =>
      signature c = sig
      /\ Forall (fun c' => signature c' = lit "(continued) " ++ sig) rest
  | _, _ => Forall (fun c' => signature c' = lit "(continued) " ++ sig) segs
  end.

Definition isEmpty (l : list Chunk) : bool :=
  match l with [] => true | _ => false end.

(** What the inner loop of the split has pushed after [result0]. *)
Definition pushed (sig : jsstring) (result0 : list Chunk) (s : Seg.t)
    : Prop :=
  exists segs,
    Seg.result s = result0 ++ segs /\ signed (isEmpty result0) sig segs.

(** *** Token counts of the segments of a split chunk *)

(** Sum of the estimates of the lines. *)
Fixpoint cost (est : jsstring -> Z) (ls : list jsstring) : Z :=
  match ls with
  | [] => 0
  | l :: ls' => est l + cost est ls'
  end.

(** The lines of a segment and its token count: the count is the sum of
    the estimates of the lines, and it is within the target unless the
    segment is one line after an overlap seed, which is empty or within
    the overlap budget. *)
Definition seg_shape (est : jsstring -> Z) (targetTokens overlapTokens : Z)
    (ls : list jsstring) (tokens : Z) : Prop :=
  tokens = cost est ls
  /\ (tokens <= targetTokens
      \/ exists seed l,
           ls = seed ++ [l] /\ (seed = [] \/ cost est seed <= overlapTokens)).

(** A segment with this shape: the lines are the lines of its text. *)
Definition shaped (est : jsstring -> Z) (targetTokens overlapTokens : Z)
    (c : Chunk) : Prop :=
  seg_shape est targetTokens overlapTokens (split_nl (text c))
    (tokenCount c).

(** What the inner loop holds and has pushed after [result0]. *)
Definition split_shaped (est : jsstring -> Z) (targetTokens overlapTokens : Z)
    (result0 : list Chunk) (s : Seg.t) : Prop :=
  (exists segs,
      Seg.result s = result0 ++ segs
      /\ Forall (shaped est targetTokens overlapTokens) segs)
  /\ Forall oneLine (Seg.currentLines s)
  /\ Seg.currentTokens s = cost est (Seg.currentLines s)
  /\ (Seg.currentLines s = []
      \/ seg_shape est targetTokens overlapTokens (Seg.currentLines s)
           (Seg.currentTokens s)).

(** *** The sample of the test script *)

(** The Verse text of test/test-verse-chunker.js, line by line. The
    argument of [Log] is quoted in the script; code unit 34 is the
    quotation mark. *)
Definition sampleVerseCode : jsstring :=
  join_nl
    [lit "using { /Fortnite.com/Devices }";
     lit "using { /UnrealEngine.com/Temporary/SpatialMath }";
     [];
     lit "# A simple enum (single-line)";
     lit "rotation_direction<public>:= enum{Left, Right}";
     [];
     lit "# A struct with multiple specifiers";
     lit "fguid<public> := struct<concrete><computes><persistable>:";
     lit "    Meta : int = 0 ";
     lit "    Val : int = 0";
     [];
     lit "# Multi-line function with effect specifiers";
     lit "Pack4Ints<public>(";
     lit "    A: int,";
     lit "    B: int,";
     lit "    C: int,";
     lit "    D: int";
     lit ")<decides><transacts>: int =";
     lit "    # Pack 4 integers into one";
     lit "    result := A + B + C + D";
     lit "    result";
     [];
     lit "# Extension method";
     lit "(Array:[]t where t:type).Random<public>()<decides><transacts>:t =";
     lit "    Array[GetRandomInt(0, Array.Length - 1)]";
     [];
     lit "# Class with methods";
     lit "custom_timer<public> := class<concrete>:";
     lit "    @editable";
     lit "    TimerTick<public> : float = 1.0";
     lit "    ";
     lit "    var CurrentTime<public> : float = 0.0";
     lit "    ";
     lit "    GetIsActive<public>()<transacts>:logic=";
     lit "        IsActive";
     lit "    ";
     lit "    StartTimer<public>(?MaybeDuration:float = 0.0)<suspends>:void=";
     lit "        loop:";
     lit "            Sleep(TimerTick)";
     lit "            set CurrentTime += TimerTick";
     lit "            if (CurrentTime > MaybeDuration):";
     lit "                break";
     [];
     lit "# Interface definition";
     lit "interface_power_node := interface:";
     lit "    GetBasePowerOutput()<reads>:float";
     lit "    GetEfficiency()<reads>:float";
     lit "    GetPriority()<reads>:int";
     lit "    IsPowered()<reads>:logic";
     [];
     lit "# Class implementing interface";
     lit "cmp_build_system := class(world_component, interface_build_system):";
     lit "    @editable:";
     lit "        Categories := array{InputsMessage}";
     lit "    Prop_Place : ?input_trigger_device = false";
     lit "    ";
     lit "    OnGameStart<override>()<suspends>:void=";
     lit "        (super:)OnGameStart()";
     lit "        # Initialize the build system";
     lit "        Log(" ++ 34%N :: lit "Build system initialized" ++ 34%N :: lit ")";
     []].

(** *** Tabs in the leading whitespace *)

(** The line with each tab of its leading whitespace written as 4 spaces:
    the same line, at the depth the specification gives it. Not in the
    source, which expands nothing. *)
Fixpoint expandTabs (line : jsstring) : jsstring :=
  match line with
  | [] => []
  | c :: rest =>
      if isSpace c
      then (if (c =? TAB)%N then lit "    " else [c]) ++ expandTabs rest
      else line
  end.

(** The file with the leading tabs of every line expanded. *)
Definition expandTabsIn (content : jsstring) : jsstring :=
  join_nl (map expandTabs (split_nl content)).

(** A class indented by 4 spaces whose field is indented by 2 tabs. *)
Definition tab_body_class : jsstring :=
  join_nl [lit "    counter<public> := class<concrete>:";
           [TAB; TAB] ++ lit "Value : int = 0"].

(** A class whose method is indented by 4 spaces and the body of the
    method by 2 tabs. *)
Definition tab_method_class : jsstring :=
  join_nl [lit "point := class:";
           lit "    ResetAllCounters()<transacts>:void=";
           [TAB; TAB] ++ lit "set X = 0";
           lit "    Y : int = 0"].

(** Kind and line range of a chunk. *)
Definition span (c : Chunk) : ChunkType * Z * Z :=
  (type c, startLine c, endLine c).

(** *** Lines that start no definition *)

(** The characters a string of the language of [r] can start with. *)
Fixpoint firstOK (r : regex) (c : char) : bool :=
  match r with
  | Void => false
  | Eps => false
  | Cls p => p c
  | Seq r1 r2 => firstOK r1 c || (nullable r1 && firstOK r2 c)
  | Alt r1 r2 => firstOK r1 c || firstOK r2 c
  | Star r1 => firstOK r1 c
  end.

(** The first character of a line that is not whitespace. *)
Definition firstVisible (line : jsstring) : option char :=
  match dropWhile isSpace line with
  | [] => None
  | c :: _ => Some c
  end.

(** A line that a definition pattern accepts starts, after its
    indentation, with a word character or an opening parenthesis. *)
Definition startsDefinition (line : jsstring) : Prop :=
  exists c, firstVisible line = Some c /\ (isWord c = true \/ c = 40%N).

(** A using statement, a blank line or a comment: the lines that lines
    161-168 skip, and the indented comments that they let through. *)
Definition inertLine (line : jsstring) : bool :=
  test_prefix PATTERNS.usingStmt line
  || test_whole PATTERNS.emptyOrWhitespace line
  || test_prefix PATTERNS.comment line.

(** *** The character after the name of a definition *)

(** The first visible character after the leading name of a line: after
    its indentation and the word characters that follow. *)
Definition afterName (line : jsstring) : option char :=
  firstVisible (dropWhile isWord (dropWhile isSpace line)).

(** *** Kinds, qualifiers and display signatures *)

(** The kinds that the state machine gives to a builder. *)
Definition firstPassKind (t : ChunkType) : bool :=
  match t with
  | TMethod | TInterfaceMethod => false
  | _ => true
  end.

(** A chunk made by [finalizeChunk] from a builder of a first-pass kind. *)
Definition built (est : jsstring -> Z) (c : Chunk) : Prop :=
  exists cur e,
    c = builderChunk est cur e /\ firstPassKind (Builder.type cur) = true.

(** The chunks so far are built, and the open builder has a first-pass
    kind. *)
Definition kinds_inv (est : jsstring -> Z) (sc : Scan) : Prop :=
  Forall (built est) (chunks sc)
  /\ match currentChunk sc with
     | Some b => firstPassKind (Builder.type b) = true
     | None => True
     end.

(** Where a parent qualifier is found: on members, and on nothing else. *)
Definition qualifier_ok (c : Chunk) : Prop :=
  match parentClass c with
  | Some _ => type c = TMethod
  | None => firstPassKind (type c) = true
  end.

(** The display signature of a chunk of the first pass. *)
Definition signature_ok (c : Chunk) : Prop :=
  signature c = slice0 100 (trim (first_line (split_nl (text c))))
  /\ (length (signature c) <= 100)%nat
  /\ oneLine (signature c).

(** *** The place of a chunk of the first pass in the file *)

(** The test of the first branch of the idle block. *)
Definition isAttribute (line : jsstring) : bool :=
  test_prefix PATTERNS.attribute line.

(** A line that can stand between the first buffered attribute and the
    definition line without emptying the buffer. *)
Definition gapLine (line : jsstring) : bool :=
  isAttribute line || inertLine line.

(** A line that the body state adds to the open builder. *)
Definition inBlock (base : Z) (line : jsstring) : bool :=
  isBlankOrComment line || (base <? getIndent line).

(** The kind that the idle block gives to the builder it opens on a
    line, in the order of its tests. *)
Definition definitionKind (line : jsstring) : option ChunkType :=
  match match_classOrStruct line with
  | Some (_, ty) => Some ty
  | None =>
      if test_prefix PATTERNS.moduleDecl line then Some TModule
      else if test_prefix PATTERNS.extensionStart line then Some TExtension
      else if test_whole PATTERNS.simpleFunction line
              || test_prefix PATTERNS.functionStart line
      then Some TFunction
      else None
  end.

(** The file around a chunk: the lines before it, the lines from its
    first attribute up to its definition line, the lines of its header,
    the lines of its body, and the lines after it. *)
Module Layout.
Record t : Type := mk {
  before : list jsstring;
  gap : list jsstring;
  header : list jsstring;
  body : list jsstring;
  after : list jsstring
}.
End Layout.

(** [y] is a layout of the file [all] around [c]: its five parts make up
    the lines of the file, the chunk starts on the first line after
    [before] and ends on the last line of [body], and the header is not
    empty. *)
Definition laid_out (all : list jsstring) (c : Chunk) (y : Layout.t) : Prop :=
  all = Layout.before y ++ Layout.gap y ++ Layout.header y
        ++ Layout.body y ++ Layout.after y
  /\ startLine c = Z.of_nat (length (Layout.before y)) + 1
  /\ endLine c
     = Z.of_nat (length (Layout.before y) + length (Layout.gap y)
                 + length (Layout.header y) + length (Layout.body y))
  /\ Layout.header y <> [].

(** The gap starts with an attribute and holds attributes and inert
    lines only. *)
Definition gap_ok (g : list jsstring) : Prop :=
  forallb gapLine g = true
  /\ match g with
     | [] => True
     | l :: _ => isAttribute l = true
     end.

(** The text of the chunk: the attributes of the gap and the header,
    joined and trimmed, then the body. *)
Definition text_from (y : Layout.t) (c : Chunk) : Prop :=
  text c
  = trim (join_nl (filter isAttribute (Layout.gap y) ++ Layout.header y))
    ++ (if truthy (join_nl (Layout.body y))
        then LF :: join_nl (Layout.body y) else []).

(** The test that ends a header of several lines (line 195). *)
Definition endsSignature (line : jsstring) : bool :=
  test_suffix PATTERNS.signatureEnd line.

(** Whether the idle block opens the builder of a definition line in
    the body state (lines 222-229, 238, 252 and 265) and not in the
    signature state (lines 255 and 279). *)
Definition opensInBody (line : jsstring) : bool :=
  match match_classOrStruct line with
  | Some _ => true
  | None =>
      if test_prefix PATTERNS.moduleDecl line then true
      else if test_prefix PATTERNS.extensionStart line
      then endsSignature line
      else test_whole PATTERNS.simpleFunction line
  end.

(** The lines up to the first one that ends a signature, that line
    included, or all the lines when none does. *)
Fixpoint signatureRun (ls : list jsstring) : list jsstring :=
  match ls with
  | [] => []
  | l :: r => if endsSignature l then [l] else l :: signatureRun r
  end.

(** The header of a definition line [d] followed by the lines [rest]. *)
Definition headerOf (d : jsstring) (rest : list jsstring) : list jsstring :=
  if opensInBody d then [d] else d :: signatureRun rest.

(** The header of a chunk is the one of its first line in the file. *)
Definition header_done (y : Layout.t) : Prop :=
  Layout.header y
  = headerOf (first_line (Layout.header y))
      (tl (Layout.header y) ++ Layout.body y ++ Layout.after y).

(** The header of the open builder, by state: in the signature state no
    line after the definition line ends a signature; otherwise the
    header is complete, whatever follows. *)
Definition header_inv (st : State) (sig : list jsstring) : Prop :=
  exists d more,
    sig = d :: more
    /\ match st with
       | IN_SIGNATURE =>
           opensInBody d = false
           /\ forallb (fun x => negb (endsSignature x)) more = true
       | _ => forall rest, headerOf d (more ++ rest) = d :: more
       end.

(** Why the chunk ends where it does: the file ends, or the chunk is an
    enum on one line with both braces, or the next line is neither blank
    nor a comment and is indented no deeper than the definition line. *)
Definition blockEnd (ty : ChunkType) (y : Layout.t) : Prop :=
  Layout.after y = []
  \/ (ty = TEnum /\ Layout.body y = []
      /\ exists l, Layout.header y = [l]
                   /\ includes 123%N l = true /\ includes 125%N l = true)
  \/ (exists next rest,
        Layout.after y = next :: rest
        /\ isBlankOrComment next = false
        /\ getIndent next <= getIndent (first_line (Layout.header y))).

(** The chunk has a layout in the file that accounts for its text, its
    token count, its body lines, its end and its kind. *)
Definition block_of (est : jsstring -> Z) (all : list jsstring) (c : Chunk)
    : Prop :=
  exists y,
    laid_out all c y
    /\ gap_ok (Layout.gap y)
    /\ text_from y c
    /\ tokenCount c = est (text c)
    /\ forallb (inBlock (getIndent (first_line (Layout.header y))))
         (Layout.body y) = true
    /\ blockEnd (type c) y
    /\ definitionKind (first_line (Layout.header y)) = Some (type c)
    /\ header_done y.

(** [y] is the block of [c] in the file: a layout whose gap holds
    attribute and inert lines only, whose header starts with a definition
    line of the kind of [c], which is no such line, and is the header of
    that line in the file, whose body lines are blank, comments or
    indented deeper than the definition line, and which ends where a block
    ends. *)
Definition block_at (all : list jsstring) (c : Chunk) (y : Layout.t)
    : Prop :=
  laid_out all c y
  /\ gap_ok (Layout.gap y)
  /\ gapLine (first_line (Layout.header y)) = false
  /\ definitionKind (first_line (Layout.header y)) = Some (type c)
  /\ header_done y
  /\ forallb (inBlock (getIndent (first_line (Layout.header y))))
       (Layout.body y) = true
  /\ blockEnd (type c) y.

(** The attribute buffer holds the attributes of the gap. *)
Definition buffer_of (pre g : list jsstring) (attrs : list Attr.t) : Prop :=
  map Attr.text attrs = filter isAttribute g
  /\ gap_ok g
  /\ match attrs with
     | [] => g = []
     | a :: _ => Attr.lineNum a = Z.of_nat (length pre) + 1
     end.

(** The open builder holds the lines read since the gap. *)
Definition open_ok (pre g : list jsstring) (b : Builder.t) : Prop :=
  Builder.startLine b = Z.of_nat (length pre + length g) + 1
  /\ Builder.signatureLines b <> []
  /\ Builder.baseIndent b = getIndent (first_line (Builder.signatureLines b))
  /\ forallb (inBlock (Builder.baseIndent b)) (Builder.bodyLines b) = true
  /\ definitionKind (first_line (Builder.signatureLines b))
     = Some (Builder.type b).

(** The state of the scan after the lines [done] of the file [all]: the
    chunks so far have their layouts; with no builder open, [done] ends
    with the gap of the buffer; with one open, it ends with the gap, the
    header and the body of the builder. *)
Definition block_inv (est : jsstring -> Z) (all done : list jsstring)
    (sc : Scan) : Prop :=
  Forall (block_of est all) (chunks sc)
  /\ match currentChunk sc with
     | None =>
         state sc = IDLE
         /\ exists pre g,
              done = pre ++ g /\ buffer_of pre g (attributeLines sc)
     | Some b =>
         state sc <> IDLE
         /\ (state sc = IN_SIGNATURE -> Builder.bodyLines b = [])
         /\ header_inv (state sc) (Builder.signatureLines b)
         /\ exists pre g,
              done = pre ++ g ++ Builder.signatureLines b
                     ++ Builder.bodyLines b
              /\ buffer_of pre g (attributeLines sc)
              /\ open_ok pre g b
     end.

(** *** The block that a definition line opens *)


(** The chunk that [finalizeChunk] makes of the attribute and header
    lines [sig] and the body lines [body] (lines 119-134). *)
Definition blockChunk (est : jsstring -> Z) (start : Z)
    (sig body : list jsstring) (e : Z) (ty : ChunkType) : Chunk :=
  builderChunk est (Builder.mk start sig body 0 ty true) e.







(** The builder with more lines. *)
Definition extended (b : Builder.t) (hs bs : list jsstring) : Builder.t :=
  Builder.mk (Builder.startLine b) (Builder.signatureLines b ++ hs)
    (Builder.bodyLines b ++ bs) (Builder.baseIndent b) (Builder.type b)
    (Builder.hasBody b).


(** The chunk of the builder [b] with the header lines [hs] and the body
    lines [bs] added, and the buffered attributes [A] in front. *)
Definition builtChunk (est : jsstring -> Z) (A : list Attr.t)
    (b : Builder.t) (hs bs : list jsstring) (e : Z) : Chunk :=
  builderChunk est (withAttributes A (extended b hs bs)) e.



(** *** The members of one chunk *)

(** The loop state with [r] put in front of what was pushed. *)
Definition withPrefix (r : list Chunk) (m : Member.t) : Member.t :=
  Member.mk (Member.methodStart m) (Member.methodLines m)
    (Member.methodIndent m) (Member.inMethodSignature m)
    (r ++ Member.result m).

(** The members that the extractor adds after [chunk]. *)
Definition membersOf (est : jsstring -> Z) (chunk : Chunk) : list Chunk :=
  tl (extract_one est [] chunk).

(** *** Where a member starts and ends *)

(** Line 331: the name that qualifies the members of [chunk]. *)
Definition classNameOf (chunk : Chunk) : jsstring :=
  leading_name (lit "Unknown") (first_line (split_nl (text chunk))).

(** Line 333: the indentation of the first line of the text. *)
Definition parentIndentOf (chunk : Chunk) : Z :=
  getIndent (first_line (split_nl (text chunk))).

(** A line on which a member starts: it matches the method pattern and is
    indented deeper than the first line of the parent. *)
Definition startsMember (parentIndent : Z) (line : jsstring) : Prop :=
  test_prefix PATTERNS.methodPattern line = true
  /\ parentIndent < getIndent line.

(** The line after a member, when there is one: it is neither blank nor
    a comment, and is indented no deeper than the first line of the
    member. *)
Definition endsMember (first : jsstring) (next : option jsstring) : Prop :=
  match next with
  | None => True
  | Some l =>
      truthy (trim l) = true /\ startsWith 35%N (trim l) = false
      /\ getIndent l <= getIndent first
  end.

(** A member of [chunk]: the chunk made from a run [mls] of lines of the
    text of [chunk] that starts after its first line, on a line that
    starts a member, runs up to a line that ends it or to the end of the
    text, and is above the floor. *)
Definition member_at (est : jsstring -> Z) (chunk m : Chunk) : Prop :=
  exists pre mls post,
    split_nl (text chunk) = pre ++ mls ++ post
    /\ pre <> [] /\ mls <> []
    /\ (20 < length (trim (join_nl mls)))%nat
    /\ startsMember (parentIndentOf chunk) (first_line mls)
    /\ endsMember (first_line mls) (head post)
    /\ m = memberChunk est chunk (classNameOf chunk)
             (Z.of_nat (length pre)) mls.

(** The state of the inner loop after the lines [done] of the text. *)
Definition member_inv (est : jsstring -> Z) (chunk : Chunk)
    (done : list jsstring) (m : Member.t) : Prop :=
  Forall (member_at est chunk) (Member.result m)
  /\ chain (startLine chunk + 1) (Member.result m)
       (startLine chunk
        + (if (Member.methodStart m =? -1)%Z then Z.of_nat (length done)
           else Member.methodStart m))
  /\ (Member.methodStart m = -1
      \/ exists pre,
           done = pre ++ Member.methodLines m
           /\ Z.of_nat (length pre) = Member.methodStart m
           /\ pre <> [] /\ Member.methodLines m <> []
           /\ startsMember (parentIndentOf chunk)
                (first_line (Member.methodLines m))
           /\ Member.methodIndent m
              = getIndent (first_line (Member.methodLines m))).

(** *** The place of a member in its chunk *)

(** The lines of [all] from offset [off] (0-based), [n] of them. *)
Definition run (all : list jsstring) (off n : Z) : list jsstring :=
  firstn (Z.to_nat n) (skipn (Z.to_nat off) all).

(** Number of lines of the text of a chunk. *)
Definition textLines (c : Chunk) : Z :=
  Z.of_nat (length (split_nl (text c))).

(** Where a member sits in its parent: after the first line, inside the
    text, with a range as long as its own text. *)
Definition member_placed (chunk m : Chunk) : Prop :=
  startLine chunk < startLine m
  /\ endLine m = startLine m + textLines m - 1
  /\ endLine m - startLine chunk < textLines chunk.

(** The text of a member is the run of lines of the parent text at the
    offsets its range gives. *)
Definition member_text_ok (chunk m : Chunk) : Prop :=
  split_nl (text m)
  = run (split_nl (text chunk)) (startLine m - startLine chunk)
      (endLine m - startLine m + 1).

(** The fields of a member that name it. *)
Definition member_named (chunk m : Chunk) : Prop :=
  type m = TMethod
  /\ parentClass m = Some (classNameOf chunk)
  /\ signature m
     = classNameOf chunk ++ lit "::"
       ++ slice0 80 (trim (first_line (split_nl (text m)))).

(** Where a member starts and ends: on a line that starts a member, up
    to the end of the text of the parent or to a line that ends it. *)
Definition member_bounded (chunk m : Chunk) : Prop :=
  startsMember (parentIndentOf chunk) (first_line (split_nl (text m)))
  /\ endsMember (first_line (split_nl (text m)))
       (nth_error (split_nl (text chunk))
          (Z.to_nat (endLine m - startLine chunk + 1))).

(** *** Chunks without their signatures *)

(** A chunk without its signature. *)
Definition unsigned (c : Chunk) : Chunk :=
  mkChunk (text c) (startLine c) (endLine c) (tokenCount c) (type c) []
    (parentClass c).

(** Two states of the inner loop of the split that differ in the output
    they started from, [r] or nothing, and so at most in signatures. *)
Definition same_unsigned (r : list Chunk) (s s0 : Seg.t) : Prop :=
  Seg.currentLines s = Seg.currentLines s0
  /\ Seg.currentTokens s = Seg.currentTokens s0
  /\ Seg.startLine s = Seg.startLine s0
  /\ map unsigned (Seg.result s)
     = map unsigned r ++ map unsigned (Seg.result s0).

(** *** The segments of a split chunk in its text *)

(** The offset of a segment in the text of its chunk, in lines. *)
Definition offsetOf (chunk s : Chunk) : Z := startLine s - startLine chunk.

(** A segment of [chunk]: it has the type of the chunk and no parent
    qualifier, its text is a run of lines of the text of the chunk at its
    offset, and it ends with its last line, or with the chunk when it
    reaches the end of the text. *)
Definition segment_of (chunk s : Chunk) : Prop :=
  type s = type chunk /\ parentClass s = None
  /\ 0 <= offsetOf chunk s
  /\ split_nl (text s)
     = run (split_nl (text chunk)) (offsetOf chunk s) (textLines s)
  /\ ((offsetOf chunk s + textLines s < textLines chunk
       /\ endLine s = startLine s + textLines s - 1)
      \/ (offsetOf chunk s + textLines s = textLines chunk
          /\ endLine s = endLine chunk)).

(** [tiled est ov chunk k p segs]: with [k] lines covered so far and [p]
    the offset of the segment before, each segment starts at or after
    [p] and at or before [k], covers at least one line more, and the lines
    it shares with what was covered cost at most [ov] tokens. *)
Fixpoint tiled (est : jsstring -> Z) (ov : Z) (chunk : Chunk) (k p : Z)
    (segs : list Chunk) : Prop :=
  match segs with
  | [] => True
  | s :: r =>
      p <= offsetOf chunk s /\ offsetOf chunk s <= k
      /\ k < offsetOf chunk s + textLines s
      /\ (offsetOf chunk s = k
          \/ cost est (run (split_nl (text chunk)) (offsetOf chunk s)
                         (k - offsetOf chunk s)) <= ov)
      /\ tiled est ov chunk (offsetOf chunk s + textLines s)
           (offsetOf chunk s) r
  end.

(** The number of lines covered after the segments. *)
Fixpoint covered (chunk : Chunk) (k : Z) (segs : list Chunk) : Z :=
  match segs with
  | [] => k
  | s :: r => covered chunk (offsetOf chunk s + textLines s) r
  end.

(** The offset of the last segment. *)
Fixpoint lastOffset (chunk : Chunk) (p : Z) (segs : list Chunk) : Z :=
  match segs with
  | [] => p
  | s :: r => lastOffset chunk (offsetOf chunk s) r
  end.

(** The state of the inner loop of the split after the lines [done]. *)
Definition split_inv (est : jsstring -> Z) (ov : Z) (chunk : Chunk)
    (result0 : list Chunk) (done : list jsstring) (s : Seg.t) : Prop :=
  exists segs pre,
    Seg.result s = result0 ++ segs
    /\ Forall (segment_of chunk) segs
    /\ tiled est ov chunk 0 0 segs
    /\ done = pre ++ Seg.currentLines s
    /\ Seg.startLine s = startLine chunk + Z.of_nat (length pre)
    /\ lastOffset chunk 0 segs <= Z.of_nat (length pre)
    /\ Z.of_nat (length pre) <= covered chunk 0 segs
    /\ covered chunk 0 segs <= Z.of_nat (length done)
    /\ (covered chunk 0 segs < Z.of_nat (length done)
        \/ Seg.currentLines s = [])
    /\ (Z.of_nat (length pre) = covered chunk 0 segs
        \/ cost est (run (split_nl (text chunk)) (Z.of_nat (length pre))
                       (covered chunk 0 segs - Z.of_nat (length pre)))
           <= ov).

(** *** The split without overlap *)

(** The lines of the texts of the segments, one after the other. *)
Definition segmentLines (segs : list Chunk) : list jsstring :=
  concat (map (fun s => split_nl (text s)) segs).

(** Without overlap: what was pushed and what is held are the lines read
    so far. *)
Definition partition_inv (result0 : list Chunk) (done : list jsstring)
    (s : Seg.t) : Prop :=
  exists segs,
    Seg.result s = result0 ++ segs
    /\ segmentLines segs ++ Seg.currentLines s = done.

(** *** Example inputs of the properties above *)

(** An idle state with one attribute in the buffer. *)
Definition buffered_attribute : Scan :=
  mkScan IDLE None [Attr.mk 1 (lit "@editable")] [].

(** A comment indented by four spaces. *)
Definition indented_comment : jsstring := lit "    # the counter".

(** A file of a using statement, a blank line and two comments. *)
Definition inert_file : jsstring :=
  join_nl [lit "using { /Verse.org/Simulation }"; [];
           lit "    # indented comment"; lit "# comment"].

(** The chunk of the first pass for [uneven_function]. *)
Definition uneven_chunk : Chunk :=
  mkChunk (join_nl uneven_function) 1 5 194 TFunction
    (lit "Compute()<transacts>:int=") None.

(* ================================================================== *)
(** * Properties *)
(* ================================================================== *)

(* ================================================================== *)
(** ** The matcher and the language of a regular expression *)
(* ================================================================== *)

Lemma nullable_lang r : nullable r = true <-> lang r [].
Proof.
  split.
  - induction r; cbn; intros H; try discriminate.
    + constructor.
    + apply andb_prop in H. destruct H.
      change (@nil char) with (@nil char ++ []). constructor; auto.
    + apply orb_prop in H. destruct H; [apply lang_alt_l | apply lang_alt_r]; auto.
    + constructor.
  - intros H. remember [] as s eqn:Hs.
    induction H; cbn; try reflexivity; try discriminate.
    + apply app_eq_nil in Hs. destruct Hs. rewrite IHlang1, IHlang2; auto.
    + rewrite IHlang; auto.
    + rewrite IHlang; auto using orb_true_r.
Qed.

Lemma lang_void s : ~ lang Void s.
Proof. intros H. inversion H. Qed.

Lemma lang_eps_inv s : lang Eps s -> s = [].
Proof. intros H. now inversion H. Qed.

Lemma lang_seq_inv r1 r2 s :
  lang (Seq r1 r2) s -> exists s1 s2, s = s1 ++ s2 /\ lang r1 s1 /\ lang r2 s2.
Proof. intros H. inversion H; subst. eauto. Qed.

Lemma lang_alt_inv r1 r2 s : lang (Alt r1 r2) s -> lang r1 s \/ lang r2 s.
Proof. intros H. inversion H; subst; auto. Qed.

Lemma mkSeq_lang r1 r2 s : lang (mkSeq r1 r2) s <-> lang (Seq r1 r2) s.
Proof.
  assert (Hl : forall r, lang r s -> lang (Seq Eps r) s).
  { intros r H. change s with ([] ++ s). constructor; [constructor | exact H]. }
  assert (Hr : forall r, lang r s -> lang (Seq r Eps) s).
  { intros r H. rewrite <- (app_nil_r s). constructor; [exact H | constructor]. }
  assert (Hl' : forall r, lang (Seq Eps r) s -> lang r s).
  { intros r H. apply lang_seq_inv in H. destruct H as (s1 & s2 & -> & H1 & H2).
    apply lang_eps_inv in H1. now subst. }
  assert (Hr' : forall r, lang (Seq r Eps) s -> lang r s).
  { intros r H. apply lang_seq_inv in H. destruct H as (s1 & s2 & -> & H1 & H2).
    apply lang_eps_inv in H2. subst. now rewrite app_nil_r. }
  assert (Hv : forall r, ~ lang (Seq Void r) s).
  { intros r H. apply lang_seq_inv in H. destruct H as (s1 & s2 & _ & H1 & _).
    now apply lang_void in H1. }
  assert (Hv' : forall r, ~ lang (Seq r Void) s).
  { intros r H. apply lang_seq_inv in H. destruct H as (s1 & s2 & _ & _ & H2).
    now apply lang_void in H2. }
  destruct r1, r2; cbn; split; intros H; auto;
    try (now apply lang_void in H); try (now apply Hv in H);
    try (now apply Hv' in H).
Qed.

Lemma mkAlt_lang r1 r2 s : lang (mkAlt r1 r2) s <-> lang (Alt r1 r2) s.
Proof.
  destruct r1, r2; cbn; split; intros H; auto;
    try (now apply lang_alt_l); try (now apply lang_alt_r);
    try (apply lang_alt_inv in H; destruct H as [H|H]; auto;
         now apply lang_void in H).
Qed.

Lemma lang_star_cons_inv r c s :
  lang (Star r) (c :: s) ->
  exists s1 s2, s = s1 ++ s2 /\ lang r (c :: s1) /\ lang (Star r) s2.
Proof.
  intros H. remember (Star r) as r' eqn:Hr. remember (c :: s) as t eqn:Ht.
  revert s Ht.
  induction H; intros s' Ht; try discriminate.
  inversion Hr; subst r0.
  destruct s1 as [|c1 s1].
  - cbn in Ht. apply IHlang2; auto.
  - cbn in Ht. inversion Ht; subst. eauto.
Qed.

Lemma deriv_lang c r : forall s, lang (deriv c r) s <-> lang r (c :: s).
Proof.
  induction r as [| |p|r1 IH1 r2 IH2|r1 IH1 r2 IH2|r1 IH1]; intros s; cbn.
  - split; intros H; now apply lang_void in H.
  - split; intros H; [now apply lang_void in H | inversion H].
  - destruct (p c) eqn:Hp; split; intros H.
    + apply lang_eps_inv in H. subst. now constructor.
    + inversion H; subst. constructor.
    + now apply lang_void in H.
    + inversion H; subst. congruence.
  - assert (Hcons : lang (Seq (deriv c r1) r2) s ->
                    lang (Seq r1 r2) (c :: s)).
    { intros H. apply lang_seq_inv in H.
      destruct H as (s1 & s2 & -> & H1 & H2).
      apply IH1 in H1. change (c :: s1 ++ s2) with ((c :: s1) ++ s2).
      now constructor. }
    destruct (nullable r1) eqn:Hn; split; intros H.
    + apply mkAlt_lang in H. apply lang_alt_inv in H. destruct H as [H|H].
      * apply mkSeq_lang in H. auto.
      * apply IH2 in H. apply nullable_lang in Hn.
        change (c :: s) with ([] ++ c :: s). now constructor.
    + apply mkAlt_lang. apply lang_seq_inv in H.
      destruct H as (s1 & s2 & Hs & H1 & H2).
      destruct s1 as [|c1 s1]; cbn in Hs.
      * subst s2. apply lang_alt_r. now apply IH2.
      * inversion Hs; subst. apply lang_alt_l. apply mkSeq_lang.
        constructor; [now apply IH1 | assumption].
    + apply mkSeq_lang in H. auto.
    + apply mkSeq_lang. apply lang_seq_inv in H.
      destruct H as (s1 & s2 & Hs & H1 & H2).
      destruct s1 as [|c1 s1]; cbn in Hs.
      * apply nullable_lang in H1. congruence.
      * inversion Hs; subst. constructor; [now apply IH1 | assumption].
  - split; intros H.
    + apply mkAlt_lang in H. apply lang_alt_inv in H.
      destruct H as [H|H]; [apply lang_alt_l, IH1 | apply lang_alt_r, IH2];
        exact H.
    + apply mkAlt_lang. apply lang_alt_inv in H.
      destruct H as [H|H]; [apply lang_alt_l, IH1 | apply lang_alt_r, IH2];
        exact H.
  - split; intros H.
    + apply mkSeq_lang in H. apply lang_seq_inv in H.
      destruct H as (s1 & s2 & -> & H1 & H2). apply IH1 in H1.
      change (c :: s1 ++ s2) with ((c :: s1) ++ s2). now constructor.
    + apply mkSeq_lang. apply lang_star_cons_inv in H.
      destruct H as (s1 & s2 & -> & H1 & H2).
      constructor; [now apply IH1 | assumption].
Qed.

(** The matcher decides membership in the language. *)
Lemma matches_lang s : forall r, matches r s = true <-> lang r s.
Proof.
  induction s as [|c s IH]; intros r; cbn.
  - apply nullable_lang.
  - rewrite IH. apply deriv_lang.
Qed.

Lemma lang_any s : lang (Star anyChar) s.
Proof.
  induction s as [|c s IH]; [constructor|].
  change (c :: s) with ([c] ++ s). constructor; [now constructor | exact IH].
Qed.

(** A test anchored at the start accepts the strings with a prefix in the
    language, a test anchored at the end those with a suffix in it. *)
Lemma test_prefix_lang r s :
  test_prefix r s = true <-> exists s1 s2, s = s1 ++ s2 /\ lang r s1.
Proof.
  unfold test_prefix. rewrite matches_lang. split.
  - intros H. apply lang_seq_inv in H.
    destruct H as (s1 & s2 & -> & H1 & _). eauto.
  - intros (s1 & s2 & -> & H). constructor; [exact H | apply lang_any].
Qed.

Lemma test_suffix_lang r s :
  test_suffix r s = true <-> exists s1 s2, s = s1 ++ s2 /\ lang r s2.
Proof.
  unfold test_suffix. rewrite matches_lang. split.
  - intros H. apply lang_seq_inv in H.
    destruct H as (s1 & s2 & -> & _ & H2). eauto.
  - intros (s1 & s2 & -> & H). constructor; [apply lang_any | exact H].
Qed.

(* ================================================================== *)
(** ** Group 1 of the patterns is the leading whitespace *)
(* ================================================================== *)

Lemma lang_star_cls p s : lang (Star (Cls p)) s <-> forallb p s = true.
Proof.
  split.
  - intros H. remember (Star (Cls p)) as r eqn:Hr.
    induction H; try discriminate; [reflexivity|].
    inversion Hr; subst. inversion H as [|p' c Hc| | | | |]; subst. cbn.
    rewrite IHlang2 by reflexivity. now rewrite Hc.
  - induction s as [|c s IH]; cbn; intros H; [constructor|].
    apply andb_prop in H. destruct H as (Hc & Hs).
    change (c :: s) with ([c] ++ s).
    constructor; [now constructor | auto].
Qed.

(** The greedy group of /^(\s* )/ cannot be longer than [takeWhile]. *)
Lemma leading_whitespace_longest s1 s2 :
  lang (Star PATTERNS.ws) s1 ->
  (length s1 <= length (takeWhile isSpace (s1 ++ s2)))%nat.
Proof.
  intros H. apply lang_star_cls in H.
  induction s1 as [|c s1 IH]; cbn; [lia|].
  cbn in H. apply andb_prop in H. destruct H as (Hc & Hs).
  rewrite Hc. cbn. apply IH in Hs. lia.
Qed.

Lemma leading_whitespace_matches s :
  lang (Star PATTERNS.ws) (takeWhile isSpace s).
Proof.
  apply lang_star_cls. induction s as [|c s IH]; cbn; [reflexivity|].
  destruct (isSpace c) eqn:Hc; cbn; [now rewrite Hc | reflexivity].
Qed.

(** When the group is followed by a character that is not whitespace, as
    in every definition pattern, it is exactly the leading whitespace, so
    [match[1].length] is [getIndent line]. *)
Lemma leading_whitespace_unique s1 c s2 :
  lang (Star PATTERNS.ws) s1 -> isSpace c = false ->
  getIndent (s1 ++ c :: s2) = Z.of_nat (length s1).
Proof.
  intros H Hc. apply lang_star_cls in H. unfold getIndent. f_equal.
  induction s1 as [|c1 s1 IH]; cbn.
  - now rewrite Hc.
  - cbn in H. apply andb_prop in H. destruct H as (H1 & Hs).
    rewrite H1. cbn. now rewrite IH.
Qed.

(* ================================================================== *)
(** ** Facts about lines and line feeds *)
(* ================================================================== *)

Lemma cons_head_length c ls :
  ls <> [] -> length (cons_head c ls) = length ls.
Proof. destruct ls; [congruence | reflexivity]. Qed.

Lemma split_nl_nonempty s : split_nl s <> [].
Proof.
  destruct s as [|c s]; simpl; [discriminate|].
  destruct (c =? LF)%N; [discriminate|].
  destruct (split_nl s); discriminate.
Qed.

Lemma split_nl_length s : length (split_nl s) = S (nlc s).
Proof.
  induction s as [|c s IH]; simpl; [reflexivity|].
  destruct (c =? LF)%N; simpl.
  - now rewrite IH.
  - rewrite cons_head_length by apply split_nl_nonempty. exact IH.
Qed.

Lemma nlc_app a b : nlc (a ++ b) = (nlc a + nlc b)%nat.
Proof.
  induction a as [|c a IH]; simpl; [reflexivity|].
  destruct (c =? LF)%N; simpl; now rewrite IH.
Qed.

Lemma nlc_rev s : nlc (rev s) = nlc s.
Proof.
  induction s as [|c s IH]; simpl; [reflexivity|].
  rewrite nlc_app, IH. simpl. destruct (c =? LF)%N; lia.
Qed.

Lemma nlc_dropWhile_le p s : (nlc (dropWhile p s) <= nlc s)%nat.
Proof.
  induction s as [|c s IH]; simpl; [lia|].
  destruct (p c); simpl; destruct (c =? LF)%N; lia.
Qed.

Lemma nlc_trim_le s : (nlc (trim s) <= nlc s)%nat.
Proof.
  unfold trim, trimEnd, trimStart. rewrite nlc_rev.
  etransitivity; [apply nlc_dropWhile_le|].
  rewrite nlc_rev. apply nlc_dropWhile_le.
Qed.

Lemma nlc_join ls :
  Forall oneLine ls -> nlc (join_nl ls) = pred (length ls).
Proof.
  induction 1 as [|l ls Hl Hls IH]; [reflexivity|].
  destruct ls as [|l' ls']; [exact Hl|].
  change (join_nl (l :: l' :: ls')) with (l ++ LF :: join_nl (l' :: ls')).
  rewrite nlc_app. unfold oneLine in Hl. rewrite Hl.
  change (nlc (LF :: join_nl (l' :: ls')))
    with (S (nlc (join_nl (l' :: ls')))).
  rewrite IH. reflexivity.
Qed.

Lemma cons_head_oneLine c ls :
  (c =? LF)%N = false -> Forall oneLine ls -> Forall oneLine (cons_head c ls).
Proof.
  intros Hc Hls. destruct ls as [|l ls]; simpl.
  - constructor; [|constructor]. unfold oneLine. simpl. now rewrite Hc.
  - inversion Hls; subst. constructor; [|assumption].
    unfold oneLine in *. simpl. now rewrite Hc.
Qed.

Lemma split_nl_oneLine s : Forall oneLine (split_nl s).
Proof.
  induction s as [|c s IH]; simpl.
  - repeat constructor.
  - destruct (c =? LF)%N eqn:Hc.
    + constructor; [reflexivity | assumption].
    + now apply cons_head_oneLine.
Qed.

Lemma split_lines_oneLine_upto n :
  forall s, (length s <= n)%nat -> Forall oneLine (split_lines s).
Proof.
  induction n as [|n IH]; intros s Hlen.
  - destruct s; [repeat constructor | simpl in Hlen; lia].
  - destruct s as [|c s]; [repeat constructor|].
    simpl in Hlen. simpl.
    destruct (c =? LF)%N eqn:Hc.
    + constructor; [reflexivity|]. apply IH. lia.
    + destruct s as [|c' s'].
      * now apply cons_head_oneLine; [|repeat constructor].
      * destruct ((c =? CR)%N && (c' =? LF)%N).
        -- constructor; [reflexivity|]. apply IH. simpl in Hlen. lia.
        -- apply cons_head_oneLine; [assumption|]. apply IH. lia.
Qed.

Lemma split_lines_oneLine s : Forall oneLine (split_lines s).
Proof. apply (split_lines_oneLine_upto (length s)). lia. Qed.

(** The text of [n >= 1] one-line strings joined has [n] lines. *)
Lemma lines_of_join ls :
  ls <> [] -> Forall oneLine ls ->
  length (split_nl (join_nl ls)) = length ls.
Proof.
  intros Hne Hls. rewrite split_nl_length, nlc_join by assumption.
  destruct ls; [congruence | reflexivity].
Qed.

(* ================================================================== *)
(** ** Line ranges in order *)
(* ================================================================== *)

Lemma chain_le lo cs hi : chain lo cs hi -> lo <= hi.
Proof.
  revert lo. induction cs as [|c cs IH]; simpl; intros lo H; [exact H|].
  destruct H as (H1 & H2 & H3). apply IH in H3. lia.
Qed.

Lemma chain_weaken lo cs hi hi' : chain lo cs hi -> hi <= hi' -> chain lo cs hi'.
Proof.
  revert lo. induction cs as [|c cs IH]; simpl; intros lo H Hle; [lia|].
  destruct H as (H1 & H2 & H3). eauto.
Qed.

Lemma chain_snoc lo cs mid c hi :
  chain lo cs mid -> mid <= startLine c -> startLine c <= endLine c ->
  endLine c + 1 <= hi -> chain lo (cs ++ [c]) hi.
Proof.
  revert lo. induction cs as [|c' cs IH]; simpl; intros lo H Hs Hse He.
  - repeat split; lia.
  - destruct H as (H1 & H2 & H3). eauto.
Qed.

Lemma chain_In lo cs hi c :
  chain lo cs hi -> In c cs ->
  lo <= startLine c /\ startLine c <= endLine c /\ endLine c < hi.
Proof.
  revert lo. induction cs as [|c' cs IH]; simpl; intros lo H Hin; [easy|].
  destruct H as (H1 & H2 & H3). destruct Hin as [->|Hin].
  - apply chain_le in H3. lia.
  - destruct (IH _ H3 Hin) as (? & ? & ?). lia.
Qed.

Lemma chain_before lo xs c ys hi c' :
  chain lo (xs ++ c :: ys) hi -> In c' ys -> endLine c < startLine c'.
Proof.
  revert lo. induction xs as [|x xs IH]; simpl; intros lo H Hin.
  - destruct H as (_ & _ & H). destruct (chain_In _ _ _ _ H Hin). lia.
  - destruct H as (_ & _ & H). eauto.
Qed.

(* ================================================================== *)
(** ** The invariant of the state machine *)
(* ================================================================== *)

Section SegmenterProofs.

Variable estimateTokens : jsstring -> Z.

Lemma truthy_join_length ls : truthy (join_nl ls) = true -> (1 <= length ls)%nat.
Proof. destruct ls; simpl; [discriminate | lia]. Qed.

(** Lines of the text that [finalizeChunk] builds. *)
Lemma fullContent_lines cur :
  Builder.signatureLines cur <> [] ->
  Forall oneLine (Builder.signatureLines cur) ->
  Forall oneLine (Builder.bodyLines cur) ->
  (length (split_nl (fullContent cur))
   <= length (Builder.signatureLines cur) + length (Builder.bodyLines cur))%nat.
Proof.
  intros Hne Hs Hb. unfold fullContent, builderSignature.
  rewrite split_nl_length, nlc_app.
  pose proof (nlc_trim_le (join_nl (Builder.signatureLines cur))) as Ht.
  rewrite (nlc_join _ Hs) in Ht.
  assert (1 <= length (Builder.signatureLines cur))%nat
    by (destruct (Builder.signatureLines cur); simpl; [congruence | lia]).
  destruct (truthy (join_nl (Builder.bodyLines cur))) eqn:Hb'.
  - apply truthy_join_length in Hb'.
    change (nlc (LF :: join_nl (Builder.bodyLines cur)))
      with (S (nlc (join_nl (Builder.bodyLines cur)))).
    rewrite (nlc_join _ Hb). lia.
  - simpl. lia.
Qed.

(** The builder with its attributes spans from the first attribute. *)
Lemma withAttributes_ok attrs cur n :
  attrs_ok attrs (Builder.startLine cur) -> builder_ok n cur ->
  Builder.startLine (withAttributes attrs cur)
    = bound attrs (Builder.startLine cur)
  /\ Builder.startLine (withAttributes attrs cur)
       + Z.of_nat (length (Builder.signatureLines (withAttributes attrs cur)))
       + Z.of_nat (length (Builder.bodyLines (withAttributes attrs cur)))
     <= n
  /\ Builder.startLine (withAttributes attrs cur) < n
  /\ Builder.signatureLines (withAttributes attrs cur) <> []
  /\ Forall oneLine (Builder.signatureLines (withAttributes attrs cur))
  /\ Forall oneLine (Builder.bodyLines (withAttributes attrs cur)).
Proof.
  intros (Hal & Hab) (Hlen & Hne & Hs & Hbd).
  assert (Hpos : (1 <= length (Builder.signatureLines cur))%nat)
    by (destruct (Builder.signatureLines cur); simpl; [congruence | lia]).
  destruct attrs as [|a attrs]; cbn [withAttributes bound] in *.
  - repeat split; auto; lia.
  - cbn [Builder.startLine Builder.signatureLines Builder.bodyLines].
    rewrite length_app, length_map. cbn [length] in *.
    repeat split; try lia; [discriminate | | assumption].
    apply Forall_app. split; [|assumption].
    apply Forall_map. exact Hal.
Qed.

Lemma finalize_inv sc b e :
  currentChunk sc = Some b ->
  chain 1 (chunks sc) (bound (attributeLines sc) (Builder.startLine b)) ->
  Forall emitted_ok (chunks sc) ->
  attrs_ok (attributeLines sc) (Builder.startLine b) ->
  builder_ok (e + 1) b ->
  let sc' := finalizeChunk estimateTokens sc e in
  currentChunk sc' = None /\ attributeLines sc' = []
  /\ state sc' = state sc
  /\ chain 1 (chunks sc') (e + 1) /\ Forall emitted_ok (chunks sc').
Proof.
  intros Hb Hch Hsz Ha Hok.
  destruct (withAttributes_ok _ _ _ Ha Hok)
    as (W1 & W2 & W3 & W4 & W5 & W6).
  unfold finalizeChunk. rewrite Hb. cbv zeta.
  set (cur := withAttributes (attributeLines sc) b) in *.
  repeat split; try reflexivity; cbn [chunks].
  - destruct (20 <? length (trim (fullContent cur)))%nat.
    + eapply chain_snoc; [exact Hch | | | ];
        cbn [builderChunk startLine endLine]; lia.
    + eapply chain_weaken; [exact Hch|]. lia.
  - destruct (20 <? length (trim (fullContent cur)))%nat eqn:Hlong;
      [|assumption].
    apply Forall_app. split; [assumption|]. constructor; [|constructor].
    split.
    + unfold size_ok. cbn [builderChunk text startLine endLine].
      pose proof (fullContent_lines cur W4 W5 W6). lia.
    + unfold long_text. cbn [builderChunk text].
      now apply Nat.ltb_lt in Hlong.
Qed.

Lemma bound_le attrs hi : attrs_ok attrs hi -> bound attrs hi <= hi.
Proof. intros (_ & H). lia. Qed.

(** A state with no builder and no buffered attribute. *)
Lemma Inv_closed e sc :
  currentChunk sc = None -> attributeLines sc = [] -> state sc = IDLE ->
  chain 1 (chunks sc) e -> Forall emitted_ok (chunks sc) -> Inv e sc.
Proof.
  intros Hc Ha Hs Hch Hsz.
  constructor; unfold frontier; rewrite ?Hc, ?Ha; simpl; auto.
  split; [constructor | simpl; lia].
Qed.

(** A line that changes nothing while no builder is open. *)
Lemma Inv_skip n sc : Inv n sc -> currentChunk sc = None -> Inv (n + 1) sc.
Proof.
  intros [Hch Hsz (Hal & Hab) Hb] Hc.
  unfold frontier in *. rewrite Hc in *.
  constructor; unfold frontier; rewrite ?Hc; auto.
  - destruct (attributeLines sc); cbn [bound] in *; [|assumption].
    eapply chain_weaken; [eassumption | lia].
  - split; [assumption|].
    destruct (attributeLines sc); cbn [bound] in *; lia.
Qed.

(** Opening a builder at line [n]. *)
Lemma Inv_open n sc sc' b :
  Inv n sc -> currentChunk sc = None ->
  currentChunk sc' = Some b -> attributeLines sc' = attributeLines sc ->
  chunks sc' = chunks sc -> state sc' <> IDLE ->
  Builder.startLine b = n -> builder_ok (n + 1) b -> Inv (n + 1) sc'.
Proof.
  intros [Hch Hsz Ha Hb] Hc Hc' Ha' Hk' Hs' Hst Hok.
  unfold frontier in *. rewrite Hc in *.
  constructor; unfold frontier; rewrite ?Hc', ?Ha', ?Hk', ?Hst; auto.
Qed.

(** Adding a line to the open builder. *)
Lemma Inv_push n sc sc' b b' :
  Inv n sc -> currentChunk sc = Some b ->
  currentChunk sc' = Some b' -> attributeLines sc' = attributeLines sc ->
  chunks sc' = chunks sc -> state sc' <> IDLE ->
  Builder.startLine b' = Builder.startLine b -> builder_ok (n + 1) b' ->
  Inv (n + 1) sc'.
Proof.
  intros [Hch Hsz Ha Hb] Hc Hc' Ha' Hk' Hs' Hst Hok.
  unfold frontier in *. rewrite Hc in *.
  constructor; unfold frontier; rewrite ?Hc', ?Ha', ?Hk', ?Hst; auto.
Qed.

(** Finalizing the open builder at line [e]. *)
Lemma Inv_finalize n sc b e :
  chain 1 (chunks sc) (bound (attributeLines sc) (Builder.startLine b)) ->
  Forall emitted_ok (chunks sc) ->
  attrs_ok (attributeLines sc) (Builder.startLine b) ->
  currentChunk sc = Some b -> builder_ok (e + 1) b -> n = e + 1 ->
  Inv n (set_state IDLE (finalizeChunk estimateTokens sc e)).
Proof.
  intros Hch Hsz Ha Hc Hok ->.
  destruct (finalize_inv sc b e Hc Hch Hsz Ha Hok) as (H1 & H2 & H3 & H4 & H5).
  apply Inv_closed; auto.
Qed.

Lemma builder_ok_start n line ind ty hb :
  oneLine line -> builder_ok (n + 1) (startChunk n line ind ty hb).
Proof.
  intros Hl. unfold builder_ok, startChunk. simpl.
  repeat split; [lia | discriminate | repeat constructor; assumption
                | constructor].
Qed.

Lemma builder_ok_hasBody n b h :
  builder_ok n b -> builder_ok n (set_hasBody h b).
Proof. exact (fun H => H). Qed.

Lemma builder_ok_push_body n b line :
  oneLine line -> builder_ok n b -> builder_ok (n + 1) (push_body line b).
Proof.
  intros Hl (H1 & H2 & H3 & H4). unfold builder_ok, push_body. simpl.
  rewrite length_app. simpl. repeat split; auto; [lia|].
  apply Forall_app. split; [assumption | repeat constructor; assumption].
Qed.

Lemma builder_ok_push_signature n b line :
  oneLine line -> builder_ok n b -> builder_ok (n + 1) (push_signature line b).
Proof.
  intros Hl (H1 & H2 & H3 & H4). unfold builder_ok, push_signature. simpl.
  rewrite length_app. simpl. repeat split; auto; [lia | |].
  - destruct (Builder.signatureLines b); discriminate.
  - apply Forall_app. split; [assumption | repeat constructor; assumption].
Qed.

Ltac open_builder :=
  eapply Inv_open;
  [ eassumption | assumption | reflexivity | reflexivity | reflexivity
  | cbn; discriminate | reflexivity
  | try apply builder_ok_hasBody; apply builder_ok_start; assumption ].

Ltac push_line lem :=
  eapply Inv_push;
  [ eassumption | eassumption | reflexivity | reflexivity | reflexivity
  | cbn; congruence | reflexivity
  | try apply builder_ok_hasBody; apply lem; assumption ].

Lemma idle_block_inv n sc line :
  oneLine line -> Inv n sc -> state sc = IDLE ->
  Inv (n + 1) (idle_block estimateTokens sc n line).
Proof.
  intros Hl HI Hs.
  assert (Hc : currentChunk sc = None).
  { destruct HI as [_ _ _ Hb]. destruct (currentChunk sc); [|reflexivity].
    destruct Hb; congruence. }
  unfold idle_block. rewrite Hs.
  destruct (test_prefix PATTERNS.attribute line).
  { (* a buffered attribute *)
    destruct HI as [Hch Hsz (Hal & Hab) Hb].
    unfold frontier in *. rewrite Hc in *.
    constructor; unfold frontier; cbn; rewrite ?Hc; auto.
    - destruct (attributeLines sc); cbn [bound app] in *; assumption.
    - split.
      + apply Forall_app. split; [assumption | repeat constructor; assumption].
      + rewrite length_app. cbn [length].
        destruct (attributeLines sc);
          cbn [bound app length Attr.lineNum] in *; lia. }
  destruct (match_classOrStruct line) as [[ind ty]|].
  { destruct (ChunkType_eqb ty TEnum && includes 123%N line
              && includes 125%N line).
    - assert (HI' := HI). destruct HI' as [Hch Hsz Ha Hb].
      unfold frontier in *. rewrite Hc in *.
      assert (Inv (n + 1)
                (set_state IDLE
                   (finalizeChunk estimateTokens
                      (set_currentChunk
                         (Some (startChunk n line ind ty true)) sc) n)))
        as HF.
      { apply (Inv_finalize (n + 1) _ (startChunk n line ind ty true) n);
          cbn; auto using builder_ok_start. }
      destruct HF as [F1 F2 F3 F4]. constructor; auto.
    - open_builder. }
  destruct (test_prefix PATTERNS.moduleDecl line).
  { open_builder. }
  destruct (test_prefix PATTERNS.extensionStart line).
  { destruct (test_suffix PATTERNS.signatureEnd line);
      open_builder. }
  destruct (test_whole PATTERNS.simpleFunction line).
  { open_builder. }
  destruct (test_prefix PATTERNS.functionStart line && negb false).
  { open_builder. }
  match goal with |- context [if ?t then _ else _] => destruct t end.
  - (* the buffer is discarded *)
    destruct HI as [Hch Hsz Ha Hb].
    unfold frontier in *. rewrite Hc in *.
    apply Inv_closed; cbn; auto.
    eapply chain_weaken; [eassumption|]. apply bound_le in Ha. lia.
  - now apply Inv_skip.
Qed.

Lemma step_inv n sc line :
  oneLine line -> Inv n sc -> Inv (n + 1) (step estimateTokens sc n line).
Proof.
  intros Hl HI. unfold step.
  destruct (skipped_when_idle sc line (getIndent line)) eqn:Hskip.
  { unfold skipped_when_idle in Hskip.
    destruct (state sc) eqn:Hs; try discriminate.
    apply Inv_skip; [assumption|].
    destruct HI as [_ _ _ Hb]. destruct (currentChunk sc); [|reflexivity].
    destruct Hb; congruence. }
  clear Hskip.
  unfold body_block, signature_block.
  destruct (state sc) eqn:Hs.
  - (* IDLE *) rewrite Hs. now apply idle_block_inv.
  - (* IN_SIGNATURE *)
    rewrite Hs.
    destruct (currentChunk sc) as [b|] eqn:Hc.
    2:{ destruct HI as [_ _ _ Hb]. rewrite Hc in Hb. congruence. }
    assert (Hok : builder_ok n b).
    { destruct HI as [_ _ _ Hb]. rewrite Hc in Hb. tauto. }
    destruct (test_suffix PATTERNS.signatureEnd line).
    { push_line builder_ok_push_signature. }
    match goal with |- context [if ?t then _ else _] => destruct t end.
    + assert (HI' := HI). destruct HI' as [Hch Hsz Ha Hb].
      unfold frontier in *. rewrite Hc in *.
      apply (Inv_finalize (n + 1) _ (push_signature line b) n);
        cbn; auto using builder_ok_push_signature.
    + push_line builder_ok_push_signature.
  - (* IN_BODY *)
    destruct (currentChunk sc) as [b|] eqn:Hc.
    2:{ destruct HI as [_ _ _ Hb]. rewrite Hc in Hb. congruence. }
    assert (Hok : builder_ok n b).
    { destruct HI as [_ _ _ Hb]. rewrite Hc in Hb. tauto. }
    match goal with |- context [if ?t then _ else _] => destruct t end.
    + assert (Inv n (set_state IDLE
                       (finalizeChunk estimateTokens sc (n - 1)))) as HF.
      { assert (HI' := HI). destruct HI' as [Hch Hsz Ha Hb].
        unfold frontier in *. rewrite Hc in *.
        apply (Inv_finalize n sc b (n - 1)); auto; [|lia].
        replace (n - 1 + 1) with n by lia. assumption. }
      cbn [state set_state]. now apply idle_block_inv.
    + push_line builder_ok_push_body.
Qed.

Lemma scan_from_inv lines :
  forall i sc,
    Forall oneLine lines -> Inv (Z.of_nat i + 1) sc ->
    Inv (Z.of_nat (i + length lines) + 1)
      (scan_from estimateTokens i lines sc).
Proof.
  induction lines as [|line rest IH]; intros i sc Hl HI; simpl.
  - now rewrite Nat.add_0_r.
  - inversion Hl; subst.
    replace (i + S (length rest))%nat with (S i + length rest)%nat by lia.
    apply IH; [assumption|].
    replace (Z.of_nat (S i) + 1) with (Z.of_nat i + 1 + 1) by lia.
    now apply step_inv.
Qed.

Lemma initScan_inv : Inv 1 initScan.
Proof. apply Inv_closed; simpl; auto; lia. Qed.

Lemma segmenterPass_chain content :
  chain 1 (segmenterPass estimateTokens content) (lineCount content + 1)
  /\ Forall emitted_ok (segmenterPass estimateTokens content).
Proof.
  unfold segmenterPass, lineCount.
  pose proof (scan_from_inv (split_lines content) 0%nat initScan
                (split_lines_oneLine content) initScan_inv) as HI.
  simpl Nat.add in HI.
  set (sc := scan_from estimateTokens 0 (split_lines content) initScan) in *.
  set (L := Z.of_nat (length (split_lines content))) in *.
  destruct (currentChunk sc) as [b|] eqn:Hc.
  - destruct HI as [Hch Hsz Ha Hb]. unfold frontier in *. rewrite Hc in *.
    destruct Hb as (_ & Hok).
    destruct (finalize_inv sc b L Hc Hch Hsz Ha Hok) as (_ & _ & _ & H4 & H5).
    auto.
  - destruct HI as [Hch Hsz Ha Hb]. unfold frontier in *. rewrite Hc in *.
    split; [|assumption].
    eapply chain_weaken; [eassumption|]. now apply bound_le.
Qed.

(** Outside the idle state a builder is open, so the branches of
    [body_block] and [signature_block] without a builder are never taken
    on a scan from the initial state. *)
Lemma reach_open content i :
  let sc :=
    scan_from estimateTokens 0 (firstn i (split_lines content)) initScan in
  state sc <> IDLE -> currentChunk sc <> None.
Proof.
  intros sc Hs.
  assert (Hl : Forall oneLine (firstn i (split_lines content))).
  { pose proof (split_lines_oneLine content) as H.
    rewrite <- (firstn_skipn i (split_lines content)) in H.
    now apply Forall_app in H. }
  pose proof (scan_from_inv (firstn i (split_lines content)) 0%nat initScan
                Hl initScan_inv) as HI.
  fold sc in HI. destruct HI as [_ _ _ Hb].
  destruct (currentChunk sc); [discriminate | contradiction].
Qed.

End SegmenterProofs.

(* ================================================================== *)
(** ** The invariant of member extraction *)
(* ================================================================== *)

Section ExtractorProofs.

Variable estimateTokens : jsstring -> Z.

(** A property of chunks that every guarded push of a member of [chunk]
    keeps, for members that lie inside the [T] lines of its text. *)
Variable P : Chunk -> Prop.
Variable chunk : Chunk.
Variable className : jsstring.
Variable parentIndent : Z.
Variable T : Z.

Hypothesis push_keeps :
  forall ms mls result,
    1 <= ms -> mls <> [] -> Forall oneLine mls ->
    ms + Z.of_nat (length mls) <= T ->
    Forall P result ->
    Forall P (pushMember estimateTokens chunk className ms mls result).

Lemma member_ok_push i m line :
  oneLine line -> member_ok i m -> Member.methodStart m <> -1 ->
  member_ok (i + 1)
    (Member.mk (Member.methodStart m) (Member.methodLines m ++ [line])
       (Member.methodIndent m) (Member.inMethodSignature m)
       (Member.result m)).
Proof.
  intros Hl [H|(H1 & H2 & H3 & H4)] Hs; [congruence|].
  right. cbn. rewrite length_app. cbn. repeat split; [lia | lia | |].
  - destruct (Member.methodLines m); discriminate.
  - apply Forall_app. split; [assumption | repeat constructor; assumption].
Qed.

Lemma member_ok_new i line ind sg res :
  1 <= i -> oneLine line ->
  member_ok (i + 1) (Member.mk i [line] ind sg res).
Proof.
  intros Hi Hl. right. cbn. repeat split; try lia; [discriminate|].
  repeat constructor; assumption.
Qed.

Lemma member_step_ok i m line :
  1 <= i < T -> oneLine line -> member_ok i m ->
  Forall P (Member.result m) ->
  let m' :=
    member_step estimateTokens chunk className parentIndent m i line in
  member_ok (i + 1) m' /\ Forall P (Member.result m').
Proof.
  intros Hi Hl Hok HP. unfold member_step.
  destruct (Z.eqb_spec (Member.methodStart m) (-1)) as [Hs|Hs];
    cbn [negb].
  - (* no member is open *)
    rewrite !andb_true_r, !andb_false_r.
    repeat match goal with
           | |- context [if ?t then _ else _] => destruct t
           end;
      (split; [|assumption]);
      first [ apply member_ok_new; [lia | assumption] | now left ].
  - rewrite !andb_true_r, !andb_false_r.
    assert (Hpush := member_ok_push i m line Hl Hok Hs).
    destruct (negb (truthy (trim line)) || startsWith 35%N (trim line)).
    { split; assumption. }
    destruct (Member.inMethodSignature m) eqn:Hsig.
    { split; [|assumption].
      destruct Hpush as [Hp|Hp]; [now left | right; exact Hp]. }
    destruct ((getIndent line <=? Member.methodIndent m)
              && truthy (trim line)).
    2:{ split; assumption. }
    assert (HP' : Forall P
              (pushMember estimateTokens chunk className
                 (Member.methodStart m) (Member.methodLines m)
                 (Member.result m))).
    { destruct Hok as [?|(H1 & H2 & H3 & H4)]; [congruence|].
      apply push_keeps; auto. lia. }
    match goal with
    | |- context [if ?t then _ else _] => destruct t
    end; cbn; (split; [|assumption]).
    + apply member_ok_new; [lia | assumption].
    + now left.
Qed.

Lemma member_loop_ok lines :
  forall i m,
    (1 <= i)%nat -> Z.of_nat (i + length lines) = T ->
    Forall oneLine lines -> member_ok (Z.of_nat i) m ->
    Forall P (Member.result m) ->
    let m' :=
      member_loop estimateTokens chunk className parentIndent i lines m in
    member_ok T m' /\ Forall P (Member.result m').
Proof.
  induction lines as [|line rest IH]; intros i m Hi HT Hl Hok HP; cbn.
  - rewrite Nat.add_0_r in HT. rewrite <- HT. auto.
  - apply Forall_cons_iff in Hl. destruct Hl as (Hl1 & Hl2).
    cbn [length] in HT.
    destruct (member_step_ok (Z.of_nat i) m line) as (Hok' & HP');
      auto; [lia|].
    apply IH; auto; try lia.
    replace (Z.of_nat (S i)) with (Z.of_nat i + 1) by lia. exact Hok'.
Qed.

End ExtractorProofs.

Section ExtractorLift.

Variable estimateTokens : jsstring -> Z.
Variable P : Chunk -> Prop.

(** [P] is kept by the guarded pushes of the members of any chunk that
    satisfies it. *)
Hypothesis push_keeps :
  forall chunk className ms mls result,
    P chunk -> 1 <= ms -> mls <> [] -> Forall oneLine mls ->
    ms + Z.of_nat (length mls)
      <= Z.of_nat (length (split_nl (text chunk))) ->
    Forall P result ->
    Forall P (pushMember estimateTokens chunk className ms mls result).

Lemma extract_one_Forall result chunk :
  Forall P result -> P chunk ->
  Forall P (extract_one estimateTokens result chunk).
Proof.
  intros HR HC. unfold extract_one.
  assert (HR' : Forall P (result ++ [chunk])).
  { apply Forall_app. split; [assumption | repeat constructor; assumption]. }
  destruct (negb (isClassOrStruct chunk)); [assumption|].
  destruct (length (split_nl (text chunk)) <? 3)%nat eqn:Hlen; [assumption|].
  apply Nat.ltb_ge in Hlen.
  pose proof (split_nl_oneLine (text chunk)) as Hl.
  destruct (split_nl (text chunk)) as [|l0 rest] eqn:Hsplit;
    [cbn in Hlen; lia|].
  cbn [first_line hd tl].
  set (cn := leading_name (lit "Unknown") l0).
  set (pi := getIndent l0).
  assert (Hpk := fun ms mls r => push_keeps chunk cn ms mls r HC).
  rewrite Hsplit in Hpk.
  destruct (member_loop_ok estimateTokens P chunk cn pi
              (Z.of_nat (length (l0 :: rest))) Hpk
              rest 1%nat (Member.mk (-1) [] (-1) false (result ++ [chunk])))
    as (Hok & HP); auto.
  - now inversion Hl.
  - now left.
  - match goal with
    | |- context [if ?t then _ else _] => destruct t eqn:Hfin
    end; [|assumption].
    apply andb_prop in Hfin. destruct Hfin as (Hs & _).
    destruct Hok as [Hm|(H1 & H2 & H3 & H4)].
    + rewrite Hm in Hs. discriminate.
    + apply Hpk; auto. lia.
Qed.

Lemma extractNestedMethods_Forall_from chunks :
  forall result,
    Forall P result -> Forall P chunks ->
    Forall P (fold_left (extract_one estimateTokens) chunks result).
Proof.
  induction chunks as [|c cs IH]; intros result HR HC; cbn; [assumption|].
  inversion HC; subst. apply IH; [|assumption].
  now apply extract_one_Forall.
Qed.

Lemma extractNestedMethods_Forall chunks :
  Forall P chunks -> Forall P (extractNestedMethods estimateTokens chunks).
Proof. apply extractNestedMethods_Forall_from. constructor. Qed.

End ExtractorLift.

(* ================================================================== *)
(** ** The invariant of the token-budget split *)
(* ================================================================== *)

Section SplitterProofs.

Variable estimateTokens : jsstring -> Z.
Variables targetTokens overlapTokens : Z.

Lemma overlap_loop_length rev_lines :
  forall acc n,
    (length (fst (overlap_loop estimateTokens overlapTokens rev_lines acc n))
     <= length rev_lines + length acc)%nat.
Proof.
  induction rev_lines as [|l rest IH]; intros acc n; cbn; [lia|].
  destruct (n <? overlapTokens); [|cbn; lia].
  destruct (n + estimateTokens l <=? overlapTokens); [|cbn; lia].
  specialize (IH (l :: acc) (n + estimateTokens l)). cbn in IH. lia.
Qed.

Variable L : Z.
Variable chunk : Chunk.
Variable signatureLine : jsstring.
Variable T : Z.

Hypothesis chunk_in_file : in_file L chunk.
Hypothesis chunk_lines : T <= endLine chunk - startLine chunk + 1.

Lemma split_step_ok s i line :
  0 <= i < T -> seg_ok (startLine chunk) i s ->
  Forall (in_file L) (Seg.result s) ->
  let s' :=
    split_step estimateTokens targetTokens overlapTokens chunk signatureLine
      s i line in
  seg_ok (startLine chunk) (i + 1) s' /\ Forall (in_file L) (Seg.result s').
Proof.
  intros Hi (Hst & Hlen) HR. unfold split_step.
  destruct chunk_in_file as (C1 & C2 & C3).
  match goal with
  | |- context [if ?t then _ else _] => destruct t eqn:Hemit
  end; cbn [Seg.currentLines Seg.currentTokens Seg.startLine Seg.result].
  - apply andb_prop in Hemit. destruct Hemit as (_ & Hpos).
    apply Nat.ltb_lt in Hpos.
    pose proof (overlap_loop_length (rev (Seg.currentLines s)) [] 0) as Hov.
    rewrite length_rev in Hov. cbn [length] in Hov.
    split.
    + unfold seg_ok. cbn. rewrite length_app. cbn [length]. lia.
    + apply Forall_app. split; [assumption|].
      repeat constructor; cbn [startLine endLine]; lia.
  - split; [|assumption].
    unfold seg_ok. cbn. rewrite length_app. cbn [length]. lia.
Qed.

Lemma split_loop_ok lines :
  forall i s,
    Z.of_nat (i + length lines) = T ->
    seg_ok (startLine chunk) (Z.of_nat i) s ->
    Forall (in_file L) (Seg.result s) ->
    let s' :=
      split_loop estimateTokens targetTokens overlapTokens chunk
        signatureLine i lines s in
    seg_ok (startLine chunk) T s' /\ Forall (in_file L) (Seg.result s').
Proof.
  induction lines as [|line rest IH]; intros i s HT Hok HR; cbn.
  - rewrite Nat.add_0_r in HT. rewrite <- HT. auto.
  - cbn [length] in HT.
    destruct (split_step_ok s (Z.of_nat i) line) as (Hok' & HR');
      auto; [lia|].
    apply IH; auto; try lia.
    replace (Z.of_nat (S i)) with (Z.of_nat i + 1) by lia. exact Hok'.
Qed.

End SplitterProofs.

Section SplitterLift.

Variable estimateTokens : jsstring -> Z.
Variables targetTokens overlapTokens : Z.
Variable L : Z.

Lemma limit_one_in_file result chunk :
  Forall (in_file L) result -> in_file L chunk -> size_ok chunk ->
  Forall (in_file L)
    (limit_one estimateTokens targetTokens overlapTokens result chunk).
Proof.
  intros HR HC HS. unfold limit_one.
  destruct (2 * tokenCount chunk <=? 3 * targetTokens).
  { apply Forall_app. split; [assumption | repeat constructor; apply HC]. }
  set (sl := signatureLineOf chunk).
  destruct (split_loop_ok estimateTokens targetTokens overlapTokens L chunk sl
              (Z.of_nat (length (split_nl (text chunk)))) HC HS
              (split_nl (text chunk)) 0%nat
              (Seg.mk [] 0 (startLine chunk) result))
    as ((Hst & Hlen) & HR'); auto.
  { unfold seg_ok. cbn. lia. }
  set (s := split_loop estimateTokens targetTokens overlapTokens chunk sl 0
              (split_nl (text chunk)) (Seg.mk [] 0 (startLine chunk) result))
    in *.
  destruct (0 <? length (Seg.currentLines s))%nat eqn:Hpos; [|assumption].
  apply Nat.ltb_lt in Hpos.
  match goal with
  | |- context [if ?t then _ else _] => destruct t
  end; [|assumption].
  apply Forall_app. split; [assumption|].
  destruct HC as (C1 & C2 & C3). unfold size_ok in HS.
  repeat constructor; cbn [startLine endLine]; lia.
Qed.

Lemma applyTokenLimits_in_file_from chunks :
  forall result,
    Forall (in_file L) result ->
    Forall (fun c => in_file L c /\ size_ok c) chunks ->
    Forall (in_file L)
      (fold_left (limit_one estimateTokens targetTokens overlapTokens)
         chunks result).
Proof.
  induction chunks as [|c cs IH]; intros result HR HC; cbn; [assumption|].
  apply Forall_cons_iff in HC. destruct HC as ((H1 & H2) & HC).
  apply IH; [|assumption]. now apply limit_one_in_file.
Qed.

End SplitterLift.

(* ================================================================== *)
(** ** Line ranges of the output *)
(* ================================================================== *)

Lemma pushMember_placed est L chunk className ms mls result :
  placed L chunk -> 1 <= ms -> mls <> [] -> Forall oneLine mls ->
  ms + Z.of_nat (length mls) <= Z.of_nat (length (split_nl (text chunk))) ->
  Forall (placed L) result ->
  Forall (placed L) (pushMember est chunk className ms mls result).
Proof.
  intros ((C1 & C2 & C3) & CS) Hms Hne Hl Hfit HR. unfold pushMember.
  destruct (20 <? length (trim (join_nl mls)))%nat; [|assumption].
  apply Forall_app. split; [assumption|]. constructor; [|constructor].
  assert (1 <= length mls)%nat by (destruct mls; cbn; [congruence | lia]).
  unfold size_ok in CS.
  split; [repeat split|]; unfold size_ok, memberChunk;
    cbn [text startLine endLine]; try lia.
  rewrite lines_of_join by assumption. lia.
Qed.

Lemma segmenterPass_placed est content :
  Forall (placed (lineCount content)) (segmenterPass est content).
Proof.
  destruct (segmenterPass_chain est content) as (Hch & Hok).
  apply Forall_forall. intros c Hin.
  destruct (chain_In _ _ _ _ Hch Hin) as (H1 & H2 & H3).
  rewrite Forall_forall in Hok. destruct (Hok c Hin) as (Hs & _).
  repeat split; auto; lia.
Qed.

Lemma extracted_placed est content :
  Forall (placed (lineCount content))
    (extractNestedMethods est (segmenterPass est content)).
Proof.
  apply extractNestedMethods_Forall.
  - intros. now apply pushMember_placed.
  - apply segmenterPass_placed.
Qed.

(** C1. For every input text, token estimator and configuration, every
    chunk of the state-machine pass, of the list after member extraction
    and of the final list returned by [chunkVerseFile] has
    [1 <= startLine <= endLine <= lineCount], where [lineCount] is the
    number of lines of the input text. *)
Theorem chunk_lines_within_file est targetTokens overlapTokens content :
  Forall (in_file (lineCount content)) (segmenterPass est content)
  /\ Forall (in_file (lineCount content))
       (extractNestedMethods est (segmenterPass est content))
  /\ Forall (in_file (lineCount content))
       (chunkVerseFile est targetTokens overlapTokens content).
Proof.
  split; [|split].
  - eapply Forall_impl; [|apply segmenterPass_placed]. now intros c [H _].
  - eapply Forall_impl; [|apply extracted_placed]. now intros c [H _].
  - unfold chunkVerseFile, applyTokenLimits.
    apply applyTokenLimits_in_file_from; [constructor|].
    apply extracted_placed.
Qed.

Lemma chain_ordered lo cs hi :
  chain lo cs hi ->
  ForallOrdPairs (fun c1 c2 => endLine c1 < startLine c2) cs.
Proof.
  revert lo. induction cs as [|c cs IH]; intros lo H; [constructor|].
  destruct H as (_ & _ & H). constructor; [|eauto].
  apply Forall_forall. intros c' Hin.
  destruct (chain_In _ _ _ _ H Hin). lia.
Qed.

(** The chunks of the state-machine pass come in the order of the file. *)
Lemma segmenter_ranges_ordered est content :
  ForallOrdPairs (fun c1 c2 => endLine c1 < startLine c2)
    (segmenterPass est content).
Proof.
  destruct (segmenterPass_chain est content) as (Hch & _).
  eapply chain_ordered; eassumption.
Qed.

Lemma ForallOrdPairs_impl {A} (R S : A -> A -> Prop) l :
  (forall a b, R a b -> S a b) -> ForallOrdPairs R l -> ForallOrdPairs S l.
Proof.
  intros HRS. induction 1 as [|a l Ha Hl IH]; constructor; [|assumption].
  eapply Forall_impl; [|exact Ha]. auto.
Qed.

(** C2. For every input, any two chunks at different positions of the list
    that the state-machine pass emits (before extraction and splitting)
    have disjoint inclusive line ranges. *)
Theorem segmenter_ranges_disjoint est content :
  ForallOrdPairs ranges_disjoint (segmenterPass est content).
Proof.
  eapply ForallOrdPairs_impl; [|apply segmenter_ranges_ordered].
  intros a b H. now left.
Qed.


(* ================================================================== *)
(** ** Header-only methods *)
(* ================================================================== *)

Lemma match_classOrStruct_type line ind ty :
  match_classOrStruct line = Some (ind, ty) -> ty <> TInterfaceMethod.
Proof.
  unfold match_classOrStruct. cbn [find fst].
  repeat match goal with
         | |- context [if ?t then _ else _] => destruct t
         end; intros H; inversion H; discriminate.
Qed.

Lemma finalizeChunk_closed est sc e : currentChunk (finalizeChunk est sc e) = None.
Proof.
  unfold finalizeChunk. destruct (currentChunk sc) eqn:H; [reflexivity | exact H].
Qed.

Lemma idle_block_not_header_only est sc n line :
  not_header_only sc -> not_header_only (idle_block est sc n line).
Proof.
  intros H. unfold idle_block.
  destruct (state sc); try assumption.
  destruct (test_prefix PATTERNS.attribute line); [exact H|].
  destruct (match_classOrStruct line) as [[ind ty]|] eqn:Hm.
  { apply match_classOrStruct_type in Hm.
    match goal with
    | |- context [if ?t then _ else _] => destruct t
    end.
    - unfold not_header_only. now rewrite finalizeChunk_closed.
    - exact Hm. }
  repeat match goal with
         | |- context [if ?t then _ else _] => destruct t
         end; try exact H; unfold not_header_only; cbn; discriminate.
Qed.

Lemma step_not_header_only est sc n line :
  not_header_only sc -> not_header_only (step est sc n line).
Proof.
  intros H. unfold step.
  destruct (skipped_when_idle sc line (getIndent line)); [exact H|].
  unfold body_block, signature_block.
  destruct (state sc) eqn:Hs.
  - rewrite Hs. now apply idle_block_not_header_only.
  - rewrite Hs. unfold not_header_only in H.
    destruct (currentChunk sc) as [b|] eqn:Hc.
    2:{ unfold not_header_only. now rewrite Hc. }
    destruct (test_suffix PATTERNS.signatureEnd line); [exact H|].
    match goal with
    | |- context [if ?t then _ else _] => destruct t
    end; [|exact H].
    unfold not_header_only. cbn [set_state currentChunk].
    now rewrite finalizeChunk_closed.
  - unfold not_header_only in H.
    destruct (currentChunk sc) as [b|] eqn:Hc.
    2:{ unfold not_header_only. now rewrite Hc. }
    match goal with
    | |- context [if ?t then _ else _] => destruct t
    end; [|exact H].
    apply idle_block_not_header_only.
    unfold not_header_only. cbn [set_state currentChunk].
    now rewrite finalizeChunk_closed.
Qed.

Lemma scan_not_header_only est lines :
  forall i sc,
    not_header_only sc -> not_header_only (scan_from est i lines sc).
Proof.
  induction lines as [|line rest IH]; intros i sc H; cbn; [exact H|].
  apply IH. now apply step_not_header_only.
Qed.

(** While a header is open, a line that does not end with the assignment
    form of the terminator is added to the header and nothing is emitted,
    whether or not it has the header-only form: the branch of line 199
    is never taken. *)
Lemma header_only_line_never_finalizes est content i line n :
  let sc := scan_from est 0 (firstn i (split_lines content)) initScan in
  state sc = IN_SIGNATURE ->
  test_suffix PATTERNS.signatureEnd line = false ->
  state (step est sc n line) = IN_SIGNATURE
  /\ chunks (step est sc n line) = chunks sc.
Proof.
  intros sc Hs He.
  assert (Hn : not_header_only sc)
    by (apply scan_not_header_only; exact I).
  unfold step, skipped_when_idle, body_block, signature_block.
  rewrite Hs. unfold not_header_only in Hn.
  destruct (currentChunk sc) as [b|]; [|now rewrite Hs].
  rewrite He.
  destruct (Builder.type b) eqn:Hb; try congruence;
    cbn [push_signature Builder.type]; rewrite Hb;
    cbn [ChunkType_eqb]; rewrite andb_false_r, ?Hs; cbn; auto.
Qed.


(* ================================================================== *)
(** ** Buffered attributes *)
(* ================================================================== *)


Lemma idle_blank_line_skipped est sc n line :
  state sc = IDLE ->
  test_whole PATTERNS.emptyOrWhitespace line = true ->
  step est sc n line = sc.
Proof.
  intros Hs Hb. unfold step, skipped_when_idle.
  now rewrite Hs, Hb, orb_true_r.
Qed.

Lemma idle_blank_lines_skipped est gap :
  forall sc i,
    state sc = IDLE ->
    forallb (test_whole PATTERNS.emptyOrWhitespace) gap = true ->
    scan_from est i gap sc = sc.
Proof.
  induction gap as [|line rest IH]; intros sc i Hs Hg; cbn; [reflexivity|].
  cbn in Hg. apply andb_prop in Hg. destruct Hg as (Hl & Hr).
  rewrite idle_blank_line_skipped by assumption. now apply IH.
Qed.

Lemma idle_opening_keeps_buffer est sc n line b :
  state sc = IDLE -> currentChunk sc = None ->
  currentChunk (step est sc n line) = Some b ->
  attributeLines (step est sc n line) = attributeLines sc
  /\ chunks (step est sc n line) = chunks sc
  /\ Builder.startLine b = n.
Proof.
  intros Hs Hc. unfold step.
  destruct (skipped_when_idle sc line (getIndent line)); [congruence|].
  unfold body_block, signature_block. rewrite Hs, Hs.
  unfold idle_block. rewrite Hs.
  destruct (test_prefix PATTERNS.attribute line); [cbn; congruence|].
  destruct (match_classOrStruct line) as [[ind ty]|].
  { match goal with
    | |- context [if ?t then _ else _] => destruct t
    end.
    - rewrite finalizeChunk_closed. discriminate.
    - cbn. intros H. inversion H. auto. }
  repeat match goal with
         | |- context [if ?t then _ else _] => destruct t
         end; cbn; intros H; try congruence; inversion H; auto.
Qed.

(** While idle, a line that is not skipped, is not an attribute, opens no
    builder and is not blank or a comment empties the buffer. *)
Lemma idle_other_line_drops_buffer est sc n line :
  state sc = IDLE -> currentChunk sc = None ->
  skipped_when_idle sc line (getIndent line) = false ->
  test_prefix PATTERNS.attribute line = false ->
  isBlankOrComment line = false ->
  currentChunk (step est sc n line) = None ->
  chunks (step est sc n line) = chunks sc ->
  attributeLines (step est sc n line) = [].
Proof.
  intros Hs Hc Hk Ha Hb. unfold step. rewrite Hk.
  unfold body_block, signature_block. rewrite Hs, Hs.
  unfold idle_block. rewrite Hs, Ha, Hb.
  destruct (match_classOrStruct line) as [[ind ty]|].
  { match goal with
    | |- context [if ?t then _ else _] => destruct t
    end; [|cbn; discriminate].
    intros _. unfold finalizeChunk. cbn. reflexivity. }
  repeat match goal with
         | |- context [if ?t then _ else _] => destruct t eqn:?
         end; cbn; try discriminate; auto.
  intros _ _.
  destruct (attributeLines sc); [reflexivity | discriminate].
Qed.

(** While a body is open, a blank, comment or deeper line is added to the
    body and the buffer stays as it was when the builder was opened. *)
Lemma body_line_keeps_buffer est sc n line b :
  state sc = IN_BODY -> currentChunk sc = Some b ->
  isBlankOrComment line = true \/ Builder.baseIndent b < getIndent line ->
  step est sc n line = set_currentChunk (Some (push_body line b)) sc.
Proof.
  intros Hs Hc Hl. unfold step, skipped_when_idle, body_block.
  rewrite Hs, Hc.
  destruct Hl as [Hl|Hl].
  - now rewrite Hl.
  - apply Z.leb_gt in Hl. now rewrite Hl, andb_false_r.
Qed.

(* ================================================================== *)
(** ** Indentation depth *)
(* ================================================================== *)

(** What group 1 of /^(\s* )/ is: the leading whitespace, up to the first
    character that is not whitespace. *)
Lemma takeWhile_dropWhile p s :
  s = takeWhile p s ++ dropWhile p s
  /\ forallb p (takeWhile p s) = true
  /\ match dropWhile p s with [] => True | c :: _ => p c = false end.
Proof.
  induction s as [|c s (IH1 & IH2 & IH3)]; cbn; [auto|].
  destruct (p c) eqn:Hc; cbn.
  - rewrite Hc. cbn. repeat split; [now f_equal | assumption..].
  - auto.
Qed.

(** A line that starts with one tab has depth 1 in the code, and 4 with
    tabs expanded to 4 columns. *)
Lemma getIndent_tab_not_expanded :
  getIndent (TAB :: lit "Meta : int = 0") = 1
  /\ depth_spec (TAB :: lit "Meta : int = 0") = 4
  /\ getIndent (TAB :: lit "Meta : int = 0")
     <> depth_spec (TAB :: lit "Meta : int = 0").
Proof. repeat split; vm_compute; congruence. Qed.

(** The indentation depth of a line in the code is the number of its
    leading whitespace characters, a tab counting one column like any
    other; the depth with tabs expanded to 4 columns exceeds it by 3 for
    every leading tab. *)
Lemma getIndent_counts_characters line :
  getIndent line = leadingColumns 1 line
  /\ depth_spec line = getIndent line + 3 * leadingTabs line.
Proof.
  unfold getIndent, depth_spec.
  induction line as [|c rest (IH1 & IH2)]; cbn [takeWhile leadingColumns
                                                  leadingTabs length];
    [split; reflexivity|].
  destruct (isSpace c); [|split; reflexivity].
  cbn [length]. rewrite Nat2Z.inj_succ.
  destruct (c =? TAB)%N; split; lia.
Qed.

(* ================================================================== *)
(** ** Signatures of the segments of a split chunk *)
(* ================================================================== *)

Lemma signed_snoc result0 sig segs c :
  signed (isEmpty result0) sig segs ->
  signature c = segmentSignature (result0 ++ segs) sig ->
  signed (isEmpty result0) sig (segs ++ [c]).
Proof.
  intros H Hc. destruct result0 as [|r0 result0]; cbn [isEmpty] in *.
  - destruct segs as [|c0 rest]; cbn in *.
    + split; [exact Hc | constructor].
    + destruct H as (H0 & Hrest). split; [exact H0|].
      apply Forall_app. split; [exact Hrest|]. repeat constructor. exact Hc.
  - unfold signed in *. apply Forall_app. split; [exact H|].
    repeat constructor. exact Hc.
Qed.

Section Signatures.

Variable est : jsstring -> Z.
Variables targetTokens overlapTokens : Z.
Variable chunk : Chunk.
Variable sig : jsstring.
Variable result0 : list Chunk.

Lemma split_step_pushed s i line :
  pushed sig result0 s ->
  pushed sig result0 (split_step est targetTokens overlapTokens chunk sig s i line).
Proof.
  intros (segs & Hr & Hs). unfold split_step.
  match goal with
  | |- context [if ?t then _ else _] => destruct t
  end; cbn [Seg.result].
  - eexists. rewrite Hr, <- app_assoc. split; [reflexivity|].
    apply signed_snoc; [exact Hs | reflexivity].
  - exists segs. auto.
Qed.

Lemma split_loop_pushed lines :
  forall i s,
    pushed sig result0 s ->
    pushed sig result0 (split_loop est targetTokens overlapTokens chunk sig i lines s).
Proof.
  induction lines as [|line rest IH]; intros i s H; cbn; [exact H|].
  apply IH. now apply split_step_pushed.
Qed.

End Signatures.

(** X17. The signatures that the split of one chunk produces: when the
    output array is empty before the chunk, its first segment keeps the
    signature line and the others are continuations; otherwise all its
    segments are continuations. *)
Lemma limit_one_signatures est targetTokens overlapTokens result chunk :
  3 * targetTokens < 2 * tokenCount chunk ->
  exists segs,
    limit_one est targetTokens overlapTokens result chunk = result ++ segs
    /\ signed (isEmpty result) (signatureLineOf chunk) segs.
Proof.
  intros Hbig. unfold limit_one.
  apply Z.leb_gt in Hbig. rewrite Hbig. cbv zeta.
  set (s := split_loop est targetTokens overlapTokens chunk
              (signatureLineOf chunk) 0 (split_nl (text chunk))
              (Seg.mk [] 0 (startLine chunk) result)).
  assert (Hp : pushed (signatureLineOf chunk) result s).
  { apply split_loop_pushed. exists []. cbn. rewrite app_nil_r.
    split; [reflexivity|]. destruct result; constructor. }
  destruct Hp as (segs & Hr & Hs).
  destruct (0 <? length (Seg.currentLines s))%nat; [|now exists segs].
  destruct (20 <? length (trim (join_nl (Seg.currentLines s))))%nat;
    [|now exists segs].
  exists (segs ++ [mkChunk (join_nl (Seg.currentLines s)) (Seg.startLine s)
                     (endLine chunk) (Seg.currentTokens s) (type chunk)
                     (segmentSignature (Seg.result s) (signatureLineOf chunk))
                     None]).
  split; [now rewrite Hr, <- app_assoc|].
  apply signed_snoc; [exact Hs|]. cbn. now rewrite Hr.
Qed.

(* ================================================================== *)
(** ** Token counts of the segments of a split chunk *)
(* ================================================================== *)

Lemma cost_app est a b : cost est (a ++ b) = cost est a + cost est b.
Proof. induction a as [|l a IH]; cbn; lia. Qed.

Section Shape.

Variable est : jsstring -> Z.
Variables targetTokens overlapTokens : Z.

Lemma overlap_loop_cost rev_lines :
  forall acc n,
    n = cost est acc -> (acc = [] \/ n <= overlapTokens) ->
    let ov := overlap_loop est overlapTokens rev_lines acc n in
    snd ov = cost est (fst ov)
    /\ (fst ov = [] \/ snd ov <= overlapTokens).
Proof.
  induction rev_lines as [|l rest IH]; intros acc n Hn Hacc; cbn; [auto|].
  destruct (n <? overlapTokens); [|cbn; auto].
  destruct (n + est l <=? overlapTokens) eqn:Hfit; [|cbn; auto].
  apply IH; [cbn; lia|]. right. now apply Z.leb_le in Hfit.
Qed.

End Shape.

(* ================================================================== *)
(** ** The token-budget split on examples *)
(* ================================================================== *)

(** A chunk at or below one and a half times the target goes through
    unchanged. *)
Lemma limit_one_pass_through est targetTokens overlapTokens result chunk :
  2 * tokenCount chunk <= 3 * targetTokens ->
  limit_one est targetTokens overlapTokens result chunk = result ++ [chunk].
Proof.
  intros H. unfold limit_one. apply Z.leb_le in H. now rewrite H.
Qed.

(** Once the output holds a chunk, every segment is signed as a
    continuation, also the first one of a chunk. *)
Lemma segmentSignature_after_output result signatureLine :
  result <> [] ->
  segmentSignature result signatureLine
  = lit "(continued) " ++ signatureLine.
Proof. destruct result; [congruence | reflexivity]. Qed.

(** C6, on the code: with target 100 and overlap 20, a function of 222
    characters is split in three segments. Alone in the file its first
    segment keeps the signature; after a small function that was output
    before it, its first segment is signed as a continuation too. *)
Theorem first_segment_signed_as_continuation :
  map signature
    (chunkVerseFile charCount 100 20 (join_nl big_function))
  = [lit "Big()<transacts>:void=";
     lit "(continued) Big()<transacts>:void=";
     lit "(continued) Big()<transacts>:void="]
  /\ map signature
       (chunkVerseFile charCount 100 20
          (join_nl (small_function ++ big_function)))
     = [lit "Small()<transacts>:void=";
        lit "(continued) Big()<transacts>:void=";
        lit "(continued) Big()<transacts>:void=";
        lit "(continued) Big()<transacts>:void="].
Proof. split; vm_compute; reflexivity. Qed.

(** C7, on the code: with target 100 and overlap 20 and no line above the
    target, the second segment holds two lines, the overlap line of 15
    tokens and the next line of 90, and counts 105 tokens. *)
Theorem segment_above_target :
  let out := chunkVerseFile charCount 100 20 (join_nl uneven_function) in
  map charCount uneven_function = [25; 50; 15; 90; 10]
  /\ map tokenCount out = [90; 105]
  /\ map (fun c => split_nl (text c)) out
     = [[lit "Compute()<transacts>:int="; bodyLine 46; bodyLine 11];
        [bodyLine 11; bodyLine 86]].
Proof. repeat split; vm_compute; reflexivity. Qed.

(* ================================================================== *)
(** ** End of input *)
(* ================================================================== *)

(** C8, the claim refuted: the header [Init(] is still open at the end of
    the input, and nothing is emitted for it. *)
Lemma unterminated_short_header_dropped :
  state (scan_from charCount 0 (split_lines (lit "Init(")) initScan)
  = IN_SIGNATURE
  /\ segmenterPass charCount (lit "Init(") = []
  /\ chunkVerseFile charCount 100 20 (lit "Init(") = [].
Proof. repeat split; vm_compute; reflexivity. Qed.

(** C8, amended. When the end of input is reached while a builder is open,
    the builder is finalized with the number of lines as its end; what it
    accumulated (with the buffered attributes in front) is emitted as the
    last chunk when its trimmed text is longer than 20 characters, and
    dropped otherwise. *)
Theorem open_builder_finalized_at_end est content b :
  let sc := scan_from est 0 (split_lines content) initScan in
  currentChunk sc = Some b ->
  let cur := withAttributes (attributeLines sc) b in
  let last := builderChunk est cur (lineCount content) in
  endLine last = lineCount content
  /\ text last = fullContent cur
  /\ segmenterPass est content
     = if (20 <? length (trim (fullContent cur)))%nat
       then chunks sc ++ [last]
       else chunks sc.
Proof.
  intros sc Hb cur last. split; [reflexivity | split; [reflexivity|]].
  unfold segmenterPass. fold sc. rewrite Hb.
  unfold finalizeChunk. rewrite Hb. cbv zeta. fold cur.
  destruct (20 <? length (trim (fullContent cur)))%nat; reflexivity.
Qed.

Lemma open_builder_finalized_at_end_witness :
  currentChunk
    (scan_from charCount 0 (split_lines unterminated_header) initScan)
  = Some (Builder.mk 1 [lit "Transfer<public>("; lit "    Amount: int,"] []
            0 TFunction false)
  /\ map (fun c => (startLine c, endLine c, text c))
       (segmenterPass charCount unterminated_header)
     = [(1, 2, unterminated_header)].
Proof.
  split; [vm_compute; reflexivity|].
  destruct (open_builder_finalized_at_end charCount unterminated_header
              (Builder.mk 1 [lit "Transfer<public>("; lit "    Amount: int,"]
                 [] 0 TFunction false))
    as (_ & _ & H); [vm_compute; reflexivity|].
  rewrite H. vm_compute. reflexivity.
Defined.

(* ================================================================== *)
(** ** The floor of 20 characters *)
(* ================================================================== *)

Lemma segmenterPass_long est content :
  Forall long_text (segmenterPass est content).
Proof.
  destruct (segmenterPass_chain est content) as (_ & Hok).
  eapply Forall_impl; [|exact Hok]. now intros c [_ H].
Qed.

Lemma extractNestedMethods_members est chunks :
  Forall (kept_or_long_member chunks) (extractNestedMethods est chunks).
Proof.
  apply extractNestedMethods_Forall.
  - intros chunk cn ms mls result _ _ _ _ _ HR. unfold pushMember.
    destruct (20 <? length (trim (join_nl mls)))%nat eqn:Hlong; [|exact HR].
    apply Forall_app. split; [exact HR|]. constructor; [|constructor].
    right. split; [reflexivity|]. now apply Nat.ltb_lt in Hlong.
  - apply Forall_forall. intros c Hin. now left.
Qed.

(** C9. Every chunk emitted by the state-machine pass has a text whose
    trimmed length is above 20, every chunk in the output of the extractor
    is one of its input chunks or a member with such a text, hence so is
    every chunk after extraction; the splitter does emit a segment at or
    below the floor (here the first one, of 19 characters). *)
Theorem emitted_text_above_floor :
  (forall est content, Forall long_text (segmenterPass est content))
  /\ (forall est chunks,
        Forall (kept_or_long_member chunks) (extractNestedMethods est chunks))
  /\ (forall est content,
        Forall long_text (extractNestedMethods est (segmenterPass est content)))
  /\ map (fun c => length (trim (text c)))
       (chunkVerseFile charCount 100 20 (join_nl short_header_function))
     = [19; 115; 91]%nat.
Proof.
  split; [exact segmenterPass_long|].
  split; [exact extractNestedMethods_members|].
  split; [|vm_compute; reflexivity].
  intros est content.
  pose proof (extractNestedMethods_members est (segmenterPass est content))
    as H.
  pose proof (segmenterPass_long est content) as Hs.
  rewrite Forall_forall in *. intros c Hin.
  destruct (H c Hin) as [Hc|[_ Hc]]; auto.
Qed.

(* ================================================================== *)
(** ** Chunks too small for members *)
(* ================================================================== *)

(** The two early exits of the outer loop (lines 322 and 327). *)
Lemma extract_one_other_kind est result chunk :
  isClassOrStruct chunk = false ->
  extract_one est result chunk = result ++ [chunk].
Proof. intros H. unfold extract_one. now rewrite H. Qed.

Lemma extract_one_few_lines est result chunk :
  (length (split_nl (text chunk)) < 3)%nat ->
  extract_one est result chunk = result ++ [chunk].
Proof.
  intros H. unfold extract_one.
  destruct (negb (isClassOrStruct chunk)); [reflexivity|].
  apply Nat.ltb_lt in H. now rewrite H.
Qed.

(** C10. A chunk that is not a class or struct, or whose text splits into
    fewer than 3 lines, goes through the extractor alone: the output grows
    by this chunk and nothing else. *)
Theorem small_chunk_no_members est result chunk :
  isClassOrStruct chunk = false
  \/ (length (split_nl (text chunk)) < 3)%nat ->
  extract_one est result chunk = result ++ [chunk].
Proof.
  intros [H|H];
    [now apply extract_one_other_kind | now apply extract_one_few_lines].
Qed.

Lemma small_chunk_no_members_witness :
  segmenterPass charCount (text two_line_struct) = [two_line_struct]
  /\ isClassOrStruct two_line_struct = true
  /\ extract_one charCount [] two_line_struct = [two_line_struct].
Proof.
  split; [vm_compute; reflexivity|]. split; [reflexivity|].
  apply (small_chunk_no_members charCount [] two_line_struct).
  right. vm_compute. lia.
Defined.

(** Members are extracted only from class and struct chunks of at least
    3 lines. *)
Lemma members_need_three_lines est result chunk :
  extract_one est result chunk <> result ++ [chunk] ->
  isClassOrStruct chunk = true
  /\ (3 <= length (split_nl (text chunk)))%nat.
Proof.
  intros H.
  destruct (isClassOrStruct chunk) eqn:Hc.
  - split; [reflexivity|].
    destruct (Nat.lt_ge_cases (length (split_nl (text chunk))) 3) as [Hl|Hl];
      [|exact Hl].
    exfalso. apply H. now apply extract_one_few_lines.
  - exfalso. apply H. now apply extract_one_other_kind.
Qed.

(** With a third line the method of the struct is extracted. *)
Example three_line_struct_member :
  map (fun c => (type c, startLine c, endLine c))
    (extractNestedMethods charCount
       (segmenterPass charCount
          (join_nl [lit "point := struct:"; lit "    Reset():void=";
                    lit "        set X = 0"])))
  = [(TStruct, 1, 3); (TMethod, 2, 3)].
Proof. vm_compute. reflexivity. Qed.

(* ================================================================== *)
(** ** The sample of the test script *)
(* ================================================================== *)

(** The chunks of the sample before the split: the enum, the struct, the
    multi-line function, the extension method, the two classes each
    followed by their methods, and the interface as one chunk. *)
Example sample_chunks :
  map (fun c => (type c, startLine c, endLine c, signature c))
    (extractNestedMethods charCount (segmenterPass charCount sampleVerseCode))
  = [(TEnum, 5, 5, lit "rotation_direction<public>:= enum{Left, Right}");
     (TStruct, 8, 12,
      lit "fguid<public> := struct<concrete><computes><persistable>:");
     (TFunction, 13, 23, lit "Pack4Ints<public>(");
     (TExtension, 24, 27,
      lit "(Array:[]t where t:type).Random<public>()<decides><transacts>:t =");
     (TClass, 28, 44, lit "custom_timer<public> := class<concrete>:");
     (TMethod, 34, 36,
      lit "custom_timer::GetIsActive<public>()<transacts>:logic=");
     (TMethod, 37, 44,
      lit "custom_timer::StartTimer<public>(?MaybeDuration:float = 0.0)<suspends>:void=");
     (TInterface, 45, 51, lit "interface_power_node := interface:");
     (TClass, 52, 61,
      lit "cmp_build_system := class(world_component, interface_build_system):");
     (TMethod, 57, 61,
      lit "cmp_build_system::OnGameStart<override>()<suspends>:void=")].
Proof. vm_compute. reflexivity. Qed.

(* ================================================================== *)
(** ** Tabs in the leading whitespace *)
(* ================================================================== *)

(** The depth of a line in the code is its depth with tabs expanded once
    the tabs are written as spaces. *)
Lemma getIndent_expandTabs line :
  getIndent (expandTabs line) = depth_spec line.
Proof.
  unfold getIndent, depth_spec.
  induction line as [|c rest IH]; [reflexivity|].
  cbn [expandTabs leadingColumns].
  destruct (isSpace c) eqn:Hc; [|cbn [takeWhile]; now rewrite Hc].
  destruct (c =? TAB)%N.
  - change (lit "    " ++ expandTabs rest)
      with (32%N :: 32%N :: 32%N :: 32%N :: expandTabs rest).
    cbn [takeWhile]. change (isSpace 32%N) with true. cbv iota.
    cbn [length]. rewrite !Nat2Z.inj_succ. lia.
  - cbn [app takeWhile]. rewrite Hc. cbn [length].
    rewrite Nat2Z.inj_succ. lia.
Qed.

(** C5, on the code: the depth the segmenter and the extractor compare is
    the number of leading whitespace characters, a tab counting 1 and not
    4: it falls short of the depth with tabs expanded to 4 columns by 3
    for every leading tab, and equals it once the tabs are written as 4
    spaces. So a field indented by 2 tabs (depth 8) under a class indented
    by 4 spaces has depth 2 in the code and ends the block of the class,
    whose chunk stops at line 1 instead of line 2; and a method body
    indented by 2 tabs under a method indented by 4 spaces ends the
    member, whose chunk is line 2 alone instead of lines 2 to 3. With the
    tabs written as spaces the code gives the ranges the specification
    asks for. *)
Theorem tab_counts_one_column :
  (forall line,
      getIndent line = depth_spec line - 3 * leadingTabs line
      /\ getIndent (expandTabs line) = depth_spec line)
  /\ (depth_spec (lit "    counter<public> := class<concrete>:") = 4
      /\ depth_spec ([TAB; TAB] ++ lit "Value : int = 0") = 8
      /\ getIndent ([TAB; TAB] ++ lit "Value : int = 0") = 2
      /\ map span (segmenterPass charCount tab_body_class)
         = [(TClass, 1, 1)]
      /\ map span (segmenterPass charCount (expandTabsIn tab_body_class))
         = [(TClass, 1, 2)])
  /\ (depth_spec (lit "    ResetAllCounters()<transacts>:void=") = 4
      /\ depth_spec ([TAB; TAB] ++ lit "set X = 0") = 8
      /\ getIndent ([TAB; TAB] ++ lit "set X = 0") = 2
      /\ map span (extractNestedMethods charCount
                     (segmenterPass charCount tab_method_class))
         = [(TClass, 1, 4); (TMethod, 2, 2)]
      /\ map span (extractNestedMethods charCount
                     (segmenterPass charCount
                        (expandTabsIn tab_method_class)))
         = [(TClass, 1, 4); (TMethod, 2, 3)]).
Proof.
  split; [|split; repeat split; vm_compute; reflexivity].
  intros line. split; [|apply getIndent_expandTabs].
  destruct (getIndent_counts_characters line) as (_ & H). lia.
Qed.

(* ================================================================== *)
(** ** Lines that leave the idle state as it is *)
(* ================================================================== *)

Lemma lang_first r c s : lang r (c :: s) -> firstOK r c = true.
Proof.
  intros H. remember (c :: s) as t eqn:Ht. revert c s Ht.
  induction H; intros c0 s0 Ht; try discriminate; cbn.
  - inversion Ht; subst. assumption.
  - destruct s1 as [|c1 s1]; cbn in Ht.
    + apply nullable_lang in H. rewrite H. cbn.
      rewrite (IHlang2 _ _ Ht). apply orb_true_r.
    + inversion Ht; subst. now rewrite (IHlang1 _ _ eq_refl).
  - now rewrite (IHlang _ _ Ht).
  - rewrite (IHlang _ _ Ht). apply orb_true_r.
  - destruct s1 as [|c1 s1]; cbn in Ht.
    + eapply IHlang2; eassumption.
    + inversion Ht; subst. eapply IHlang1; reflexivity.
Qed.

Lemma dropWhile_spaces w s :
  forallb isSpace w = true -> dropWhile isSpace (w ++ s) = dropWhile isSpace s.
Proof.
  induction w as [|c w IH]; cbn; intros H; [reflexivity|].
  apply andb_prop in H. destruct H as (Hc & Hw). rewrite Hc. auto.
Qed.

(** A line in the language of a pattern that starts with optional
    whitespace: its first visible character is one the rest of the
    pattern can start with, when that rest starts with no whitespace and
    is not empty. *)
Lemma lang_firstVisible R s :
  nullable R = false ->
  (forall c, firstOK R c = true -> isSpace c = false) ->
  lang (Seq (Star PATTERNS.ws) R) s ->
  forall t, exists c, firstVisible (s ++ t) = Some c /\ firstOK R c = true.
Proof.
  intros Hn Hns H t. apply lang_seq_inv in H.
  destruct H as (w & r & -> & Hw & Hr).
  apply lang_star_cls in Hw.
  destruct r as [|c r].
  - apply nullable_lang in Hr. congruence.
  - exists c. pose proof (lang_first _ _ _ Hr) as Hc. split; [|exact Hc].
    unfold firstVisible. rewrite <- app_assoc, dropWhile_spaces by assumption.
    cbn. now rewrite (Hns c Hc).
Qed.

Lemma test_prefix_firstVisible R line :
  nullable R = false ->
  (forall c, firstOK R c = true -> isSpace c = false) ->
  test_prefix (Seq (Star PATTERNS.ws) R) line = true ->
  exists c, firstVisible line = Some c /\ firstOK R c = true.
Proof.
  intros Hn Hns H. apply test_prefix_lang in H.
  destruct H as (s1 & s2 & -> & H). now apply lang_firstVisible.
Qed.

Lemma test_whole_firstVisible R line :
  nullable R = false ->
  (forall c, firstOK R c = true -> isSpace c = false) ->
  test_whole (Seq (Star PATTERNS.ws) R) line = true ->
  exists c, firstVisible line = Some c /\ firstOK R c = true.
Proof.
  intros Hn Hns H. apply matches_lang in H.
  rewrite <- (app_nil_r line). now apply lang_firstVisible.
Qed.

Lemma isWord_not_space c : isWord c = true -> isSpace c = false.
Proof.
  unfold isWord, isSpace. intros H.
  assert (Hr : (48 <= c <= 122)%N).
  { repeat match goal with
           | H : _ || _ = true |- _ => apply orb_prop in H; destruct H as [H|H]
           | H : _ && _ = true |- _ =>
               apply andb_prop in H; destruct H as (?H & ?H)
           | H : (_ <=? _)%N = true |- _ => apply N.leb_le in H
           | H : (_ =? _)%N = true |- _ => apply N.eqb_eq in H
           end; lia. }
  cbn [existsb].
  repeat match goal with
         | |- context [(c =? ?k)%N] =>
             replace (c =? k)%N with false
               by (symmetry; apply N.eqb_neq; lia)
         end.
  replace (8192 <=? c)%N with false by (symmetry; apply N.leb_gt; lia).
  reflexivity.
Qed.

Lemma chr_first (k : string) c :
  existsb (N.eqb c) (lit k) = true -> In c (lit k).
Proof.
  intros H. apply existsb_exists in H. destruct H as (x & Hin & Hx).
  apply N.eqb_eq in Hx. now subst.
Qed.

Lemma word_start_firstVisible X s t :
  lang (Seq (Star PATTERNS.ws) (Seq (plus PATTERNS.w) X)) s ->
  exists c, firstVisible (s ++ t) = Some c /\ isWord c = true.
Proof.
  intros H.
  destruct (lang_firstVisible (Seq (plus PATTERNS.w) X) s) with (t := t)
    as (c & Hv & Hc); auto.
  - intros c Hc. cbn in Hc. rewrite !orb_false_r in Hc.
    now apply isWord_not_space.
  - exists c. split; [exact Hv|]. cbn in Hc. now rewrite !orb_false_r in Hc.
Qed.

Lemma chr_start_firstVisible (k : string) X s t :
  forallb (fun c => negb (isSpace c)) (lit k) = true ->
  lang (Seq (Star PATTERNS.ws) (Seq (chr k) X)) s ->
  exists c, firstVisible (s ++ t) = Some c /\ In c (lit k).
Proof.
  intros Hk H.
  assert (Hin : forall c, firstOK (Seq (chr k) X) c = true -> In c (lit k)).
  { intros c Hc. cbn in Hc. rewrite orb_false_r in Hc. now apply chr_first. }
  destruct (lang_firstVisible (Seq (chr k) X) s) with (t := t)
    as (c & Hv & Hc); auto.
  - intros c Hc. apply Hin in Hc. rewrite forallb_forall in Hk.
    apply Hk in Hc. now apply negb_true_iff in Hc.
  - exists c. auto.
Qed.

(** The first visible character of a comment line is the hash sign. *)
Lemma comment_firstVisible line :
  test_prefix PATTERNS.comment line = true -> firstVisible line = Some 35%N.
Proof.
  intros H. apply test_prefix_lang in H. destruct H as (s1 & s2 & -> & H).
  destruct (chr_start_firstVisible "#" Eps s1 s2) as (c & Hv & Hc);
    [reflexivity | exact H |].
  destruct Hc as [<-|[]]. exact Hv.
Qed.

(** The first visible character of an attribute line is the at sign. *)
Lemma attribute_firstVisible line :
  test_prefix PATTERNS.attribute line = true -> firstVisible line = Some 64%N.
Proof.
  intros H. apply test_prefix_lang in H. destruct H as (s1 & s2 & -> & H).
  destruct (chr_start_firstVisible "@" (Seq (plus PATTERNS.w) Eps) s1 s2)
    as (c & Hv & Hc); [reflexivity | exact H |].
  destruct Hc as [<-|[]]. exact Hv.
Qed.

Lemma word_pattern_starts X line :
  test_prefix (Seq (Star PATTERNS.ws) (Seq (plus PATTERNS.w) X)) line = true ->
  startsDefinition line.
Proof.
  intros H. apply test_prefix_lang in H. destruct H as (s1 & s2 & -> & H).
  destruct (word_start_firstVisible X s1 s2 H) as (c & Hv & Hc).
  exists c. auto.
Qed.

Lemma classOrStruct_kw_starts kw line :
  test_prefix (PATTERNS.classOrStruct_kw kw) line = true ->
  startsDefinition line.
Proof.
  exact (word_pattern_starts
           (cat [Star PATTERNS.spec; Star PATTERNS.ws; word ":=";
                 Star PATTERNS.ws; word kw]) line).
Qed.

Lemma match_classOrStruct_starts line x :
  match_classOrStruct line = Some x -> startsDefinition line.
Proof.
  unfold match_classOrStruct. cbn [find fst].
  repeat match goal with
         | |- context [if test_prefix ?r line then _ else _] =>
             destruct (test_prefix r line) eqn:?
         end; try discriminate; intros _;
    eapply classOrStruct_kw_starts; eassumption.
Qed.

Lemma moduleDecl_starts line :
  test_prefix PATTERNS.moduleDecl line = true -> startsDefinition line.
Proof.
  exact (word_pattern_starts
           (cat [Star PATTERNS.ws; word ":="; Star PATTERNS.ws;
                 word "module:"]) line).
Qed.

Lemma functionStart_starts line :
  test_prefix PATTERNS.functionStart line = true -> startsDefinition line.
Proof.
  exact (word_pattern_starts
           (cat [opt PATTERNS.spec; Star PATTERNS.ws; chr "("]) line).
Qed.

Lemma simpleFunction_starts line :
  test_whole PATTERNS.simpleFunction line = true -> startsDefinition line.
Proof.
  intros H. apply matches_lang in H.
  rewrite <- (app_nil_r line).
  destruct (word_start_firstVisible _ line [] H) as (c & Hv & Hc).
  exists c. auto.
Qed.

Lemma extensionStart_starts line :
  test_prefix PATTERNS.extensionStart line = true -> startsDefinition line.
Proof.
  intros H. apply test_prefix_lang in H. destruct H as (s1 & s2 & -> & H).
  destruct (chr_start_firstVisible "(" _ s1 s2 eq_refl H) as (c & Hv & Hc).
  destruct Hc as [<-|[]]. exists 40%N. auto.
Qed.

(** A line whose first visible character is [#] or [@] starts no
    definition. *)
Lemma not_startsDefinition line c :
  firstVisible line = Some c -> isWord c = false -> c <> 40%N ->
  ~ startsDefinition line.
Proof.
  intros Hv Hw Hp (c' & Hv' & [H|H]); rewrite Hv in Hv'; inversion Hv';
    subst; congruence.
Qed.

(** The idle block on a line that is no attribute and starts no
    definition: only the attribute buffer can change. *)
Lemma idle_block_no_definition est sc n line :
  state sc = IDLE ->
  test_prefix PATTERNS.attribute line = false ->
  ~ startsDefinition line ->
  idle_block est sc n line
  = if (0 <? length (attributeLines sc))%nat && negb (isBlankOrComment line)
    then set_attributeLines [] sc else sc.
Proof.
  intros Hs Ha Hd. unfold idle_block. rewrite Hs, Ha.
  destruct (match_classOrStruct line) eqn:Hm.
  { exfalso. eauto using match_classOrStruct_starts. }
  destruct (test_prefix PATTERNS.moduleDecl line) eqn:H1.
  { exfalso. eauto using moduleDecl_starts. }
  destruct (test_prefix PATTERNS.extensionStart line) eqn:H2.
  { exfalso. eauto using extensionStart_starts. }
  destruct (test_whole PATTERNS.simpleFunction line) eqn:H3.
  { exfalso. eauto using simpleFunction_starts. }
  destruct (test_prefix PATTERNS.functionStart line) eqn:H4.
  { exfalso. eauto using functionStart_starts. }
  cbn [andb negb]. now rewrite andb_true_r.
Qed.

(** The idle block on a comment line changes nothing: the line starts
    no definition, and the discard test leaves comments out. *)
Lemma idle_block_comment est sc n line :
  state sc = IDLE -> test_prefix PATTERNS.comment line = true ->
  idle_block est sc n line = sc.
Proof.
  intros Hs Hc.
  pose proof (comment_firstVisible line Hc) as Hv.
  rewrite idle_block_no_definition; auto.
  - unfold isBlankOrComment. rewrite Hc, orb_true_r. cbn.
    now rewrite andb_false_r.
  - destruct (test_prefix PATTERNS.attribute line) eqn:Ha; [|reflexivity].
    apply attribute_firstVisible in Ha. congruence.
  - eapply not_startsDefinition; [exact Hv | reflexivity | discriminate].
Qed.

(** X1. While the state machine is idle, a comment line at any depth of
    indentation leaves the whole state as it is: the chunks, the state and
    the attribute buffer. Lines 165-167 skip a comment only when it is not
    indented; an indented one goes through the idle block, which matches
    no pattern on it and keeps the buffer. *)
Theorem idle_comment_line_inert est sc n line :
  state sc = IDLE -> test_prefix PATTERNS.comment line = true ->
  step est sc n line = sc.
Proof.
  intros Hs Hc. unfold step.
  destruct (skipped_when_idle sc line (getIndent line)); [reflexivity|].
  unfold body_block, signature_block. rewrite Hs, Hs.
  now apply idle_block_comment.
Qed.

(** An indented comment after a buffered attribute: it is not skipped at
    lines 165-167, and the state stays as it is. *)
Lemma idle_comment_line_inert_witness :
  getIndent indented_comment = 4
  /\ step charCount buffered_attribute 2 indented_comment
     = buffered_attribute.
Proof.
  split; [reflexivity|].
  apply (idle_comment_line_inert charCount buffered_attribute 2
           indented_comment); vm_compute; reflexivity.
Defined.

Lemma idle_inert_line est sc n line :
  state sc = IDLE -> inertLine line = true -> step est sc n line = sc.
Proof.
  intros Hs H. unfold inertLine in H.
  apply orb_prop in H. destruct H as [H|H].
  - unfold step, skipped_when_idle. rewrite Hs.
    apply orb_prop in H. destruct H as [H|H]; rewrite H;
      now rewrite ?orb_true_r.
  - unfold step.
    destruct (skipped_when_idle sc line (getIndent line)); [reflexivity|].
    unfold body_block, signature_block. rewrite Hs, Hs.
    now apply idle_block_comment.
Qed.

Lemma idle_inert_lines est lines :
  forall sc i,
    state sc = IDLE -> forallb inertLine lines = true ->
    scan_from est i lines sc = sc.
Proof.
  induction lines as [|line rest IH]; intros sc i Hs H; cbn; [reflexivity|].
  cbn in H. apply andb_prop in H. destruct H as (Hl & Hr).
  rewrite idle_inert_line by assumption. now apply IH.
Qed.

(** X2. A file whose lines are all using statements, blank lines and
    comments, at any indentation, gives no chunk: the state machine stays
    idle over them, and no builder is open at the end of the input. *)
Theorem inert_file_no_chunks est targetTokens overlapTokens content :
  forallb inertLine (split_lines content) = true ->
  chunkVerseFile est targetTokens overlapTokens content = [].
Proof.
  intros H. unfold chunkVerseFile, segmenterPass.
  rewrite idle_inert_lines by (auto; reflexivity). reflexivity.
Qed.

(** A file of a using statement, a blank line and two comments. *)
Lemma inert_file_no_chunks_witness :
  chunkVerseFile charCount 100 20 inert_file = [].
Proof.
  apply (inert_file_no_chunks charCount 100 20 inert_file).
  vm_compute. reflexivity.
Defined.

(* ================================================================== *)
(** ** The character after the name of a definition *)
(* ================================================================== *)

Lemma dropWhile_all (p : char -> bool) w s :
  forallb p w = true -> dropWhile p (w ++ s) = dropWhile p s.
Proof.
  induction w as [|c w IH]; cbn; intros H; [reflexivity|].
  apply andb_prop in H. destruct H as (Hc & Hw). rewrite Hc. auto.
Qed.

Lemma isSpace_not_word c : isSpace c = true -> isWord c = false.
Proof.
  intros H. destruct (isWord c) eqn:Hw; [|reflexivity].
  apply isWord_not_space in Hw. congruence.
Qed.

Lemma lang_cls_inv p s : lang (Cls p) s -> exists c, s = [c] /\ p c = true.
Proof. intros H. inversion H; subst. eauto. Qed.

Lemma plus_w_inv n :
  lang (plus PATTERNS.w) n ->
  exists c n', n = c :: n' /\ isWord c = true /\ forallb isWord n' = true.
Proof.
  intros H. apply lang_seq_inv in H. destruct H as (a & b & -> & Ha & Hb).
  apply lang_cls_inv in Ha. destruct Ha as (c & -> & Hc).
  apply lang_star_cls in Hb. exists c, b. auto.
Qed.

(** The strings of a sequence of character tests with one character
    each. *)
Lemma lang_word (k : string) s : lang (word k) s -> s = lit k.
Proof.
  unfold word. generalize (lit k). intros cs. revert s.
  induction cs as [|c cs IH]; cbn; intros s H.
  - now apply lang_eps_inv.
  - apply lang_seq_inv in H. destruct H as (a & b & -> & Ha & Hb).
    apply lang_cls_inv in Ha. destruct Ha as (x & -> & Hx).
    apply N.eqb_eq in Hx. subst x. cbn. f_equal. auto.
Qed.

(** After optional whitespace and a name, what follows the name, when
    it cannot be empty and cannot start with a word character. *)
Lemma name_then X s1 s2 :
  lang (Seq (Star PATTERNS.ws) (Seq (plus PATTERNS.w) X)) s1 ->
  (forall r, lang X r -> exists c r', r = c :: r' /\ isWord c = false) ->
  exists r,
    lang X r /\ dropWhile isWord (dropWhile isSpace (s1 ++ s2)) = r ++ s2.
Proof.
  intros H HX. apply lang_seq_inv in H. destruct H as (a & t & -> & Ha & H).
  apply lang_seq_inv in H. destruct H as (n & r & -> & Hn & Hr).
  apply lang_star_cls in Ha. apply plus_w_inv in Hn.
  destruct Hn as (c & n' & -> & Hc & Hn').
  exists r. split; [exact Hr|].
  rewrite <- !app_assoc, dropWhile_spaces by exact Ha.
  cbn [app dropWhile]. rewrite (isWord_not_space c Hc).
  cbn [dropWhile]. rewrite Hc, dropWhile_all by exact Hn'.
  destruct (HX r Hr) as (c' & r' & -> & Hc'). cbn. now rewrite Hc'.
Qed.

(** The first visible character of what a pattern [P] followed by
    optional whitespace and [R] accepts, followed by anything. *)
Lemma visible_after (K : char -> Prop) P R r t :
  lang (Seq P (Seq (Star PATTERNS.ws) R)) r ->
  (forall c, firstOK P c = true ->
             isSpace c = false /\ isWord c = false /\ K c) ->
  nullable R = false ->
  (forall c, firstOK R c = true ->
             isSpace c = false /\ isWord c = false /\ K c) ->
  (exists c r', r = c :: r' /\ isWord c = false)
  /\ exists c, firstVisible (r ++ t) = Some c /\ K c.
Proof.
  intros H HP Hn HR. apply lang_seq_inv in H.
  destruct H as (p & u & -> & Hp & H).
  apply lang_seq_inv in H. destruct H as (b & q & -> & Hb & Hq).
  apply lang_star_cls in Hb.
  destruct q as [|cq q].
  { apply nullable_lang in Hq. congruence. }
  destruct (HR cq (lang_first _ _ _ Hq)) as (Hq1 & Hq2 & Hq3).
  destruct p as [|cp p].
  - cbn [app]. split.
    + destruct b as [|cb b]; cbn; eauto.
      cbn in Hb. apply andb_prop in Hb. destruct Hb as (Hcb & _).
      eauto using isSpace_not_word.
    + exists cq. split; [|exact Hq3]. unfold firstVisible.
      rewrite <- app_assoc, dropWhile_spaces by exact Hb.
      cbn. now rewrite Hq1.
  - destruct (HP cp (lang_first _ _ _ Hp)) as (Hp1 & Hp2 & Hp3).
    split; [cbn; eauto|].
    exists cp. split; [|exact Hp3]. unfold firstVisible. cbn. now rewrite Hp1.
Qed.

(** A line that starts with a name followed by [P], optional whitespace
    and [R]. *)
Lemma named_afterName (K : char -> Prop) P R s1 s2 :
  lang (Seq (Star PATTERNS.ws)
          (Seq (plus PATTERNS.w) (Seq P (Seq (Star PATTERNS.ws) R)))) s1 ->
  (forall c, firstOK P c = true ->
             isSpace c = false /\ isWord c = false /\ K c) ->
  nullable R = false ->
  (forall c, firstOK R c = true ->
             isSpace c = false /\ isWord c = false /\ K c) ->
  exists c, afterName (s1 ++ s2) = Some c /\ K c.
Proof.
  intros H HP Hn HR.
  destruct (name_then _ s1 s2 H) as (r & Hr & Hd).
  { intros r Hr. now destruct (visible_after K P R r [] Hr HP Hn HR). }
  unfold afterName. rewrite Hd.
  now destruct (visible_after K P R r s2 Hr HP Hn HR).
Qed.

(** The same without [P]. *)
Lemma named_afterName_plain (K : char -> Prop) R s1 s2 :
  lang (Seq (Star PATTERNS.ws)
          (Seq (plus PATTERNS.w) (Seq (Star PATTERNS.ws) R))) s1 ->
  nullable R = false ->
  (forall c, firstOK R c = true ->
             isSpace c = false /\ isWord c = false /\ K c) ->
  exists c, afterName (s1 ++ s2) = Some c /\ K c.
Proof.
  intros H Hn HR.
  apply (named_afterName K Eps R s1 s2); auto; [|discriminate].
  apply lang_seq_inv in H. destruct H as (a & t & -> & Ha & H).
  apply lang_seq_inv in H. destruct H as (n & r & -> & Hn' & Hr).
  repeat constructor; auto.
  change r with ([] ++ r). constructor; [constructor | exact Hr].
Qed.

Ltac first_char H :=
  cbn -[N.eqb] in H; rewrite ?orb_false_r in H;
  apply N.eqb_eq in H; subst; repeat split; try reflexivity; discriminate.

(** After the name of a using statement comes the opening brace. *)
Lemma using_afterName line :
  test_prefix PATTERNS.usingStmt line = true -> afterName line = Some 123%N.
Proof.
  intros H. apply test_prefix_lang in H. destruct H as (s1 & s2 & -> & H).
  apply lang_seq_inv in H. destruct H as (a & t & -> & Ha & H).
  apply lang_seq_inv in H. destruct H as (u & t' & -> & Hu & H).
  apply lang_seq_inv in H. destruct H as (b & k & -> & Hb & Hk).
  apply lang_seq_inv in Hk. destruct Hk as (k1 & k2 & -> & Hk1 & Hk2).
  apply lang_star_cls in Ha. apply lang_star_cls in Hb.
  apply lang_word in Hu. subst u.
  apply lang_cls_inv in Hk1. destruct Hk1 as (c & -> & Hc).
  cbn in Hc. rewrite orb_false_r in Hc. apply N.eqb_eq in Hc. subst c.
  apply lang_eps_inv in Hk2. subst k2.
  unfold afterName. rewrite <- !app_assoc, dropWhile_spaces by exact Ha.
  cbn [lit app dropWhile]. cbn.
  match goal with
  | |- context [dropWhile isWord ?x] =>
      assert (Hw : dropWhile isWord x = x)
  end.
  { destruct b as [|cb b]; [reflexivity|].
    cbn in Hb. apply andb_prop in Hb. destruct Hb as (Hcb & _).
    cbn. now rewrite (isSpace_not_word cb Hcb). }
  rewrite Hw. unfold firstVisible. rewrite dropWhile_spaces by exact Hb.
  reflexivity.
Qed.

(** After the name of a type definition comes a specifier or the
    definition sign. *)
Lemma classOrStruct_kw_afterName kw line :
  test_prefix (PATTERNS.classOrStruct_kw kw) line = true ->
  exists c, afterName line = Some c /\ c <> 123%N.
Proof.
  intros H. apply test_prefix_lang in H. destruct H as (s1 & s2 & -> & H).
  apply (named_afterName (fun c => c <> 123%N) (Star PATTERNS.spec)
           (cat [word ":="; Star PATTERNS.ws; word kw]) s1 s2 H);
    [|reflexivity|]; intros c Hc; first_char Hc.
Qed.

Lemma match_classOrStruct_afterName line x :
  match_classOrStruct line = Some x ->
  exists c, afterName line = Some c /\ c <> 123%N.
Proof.
  unfold match_classOrStruct. cbn [find fst].
  repeat match goal with
         | |- context [if test_prefix ?r line then _ else _] =>
             destruct (test_prefix r line) eqn:?
         end; try discriminate; intros _;
    eapply classOrStruct_kw_afterName; eassumption.
Qed.

Lemma moduleDecl_afterName line :
  test_prefix PATTERNS.moduleDecl line = true ->
  exists c, afterName line = Some c /\ c <> 123%N.
Proof.
  intros H. apply test_prefix_lang in H. destruct H as (s1 & s2 & -> & H).
  apply (named_afterName_plain (fun c => c <> 123%N)
           (cat [word ":="; Star PATTERNS.ws; word "module:"]) s1 s2 H);
    [reflexivity|]; intros c Hc; first_char Hc.
Qed.

Lemma functionStart_afterName line :
  test_prefix PATTERNS.functionStart line = true ->
  exists c, afterName line = Some c /\ c <> 123%N.
Proof.
  intros H. apply test_prefix_lang in H. destruct H as (s1 & s2 & -> & H).
  apply (named_afterName (fun c => c <> 123%N) (opt PATTERNS.spec)
           (cat [chr "("]) s1 s2 H);
    [|reflexivity|]; intros c Hc; first_char Hc.
Qed.

Lemma simpleFunction_afterName line :
  test_whole PATTERNS.simpleFunction line = true ->
  exists c, afterName line = Some c /\ c <> 123%N.
Proof.
  intros H. apply matches_lang in H. rewrite <- (app_nil_r line).
  refine (named_afterName (fun c => c <> 123%N) (opt PATTERNS.spec) _
            line [] H _ _ _);
    [|reflexivity|]; intros c Hc; first_char Hc.
Qed.

(** The first visible character of an extension method is the opening
    parenthesis. *)
Lemma extensionStart_firstVisible line :
  test_prefix PATTERNS.extensionStart line = true ->
  firstVisible line = Some 40%N.
Proof.
  intros H. apply test_prefix_lang in H. destruct H as (s1 & s2 & -> & H).
  destruct (chr_start_firstVisible "(" _ s1 s2 eq_refl H) as (c & Hv & Hc).
  destruct Hc as [<-|[]]. exact Hv.
Qed.

(* ================================================================== *)
(** ** A builder is open exactly outside the idle state *)
(* ================================================================== *)

(** X3. After any number of lines of a file a builder is open exactly
    when the state is not [IDLE]: [currentChunk] is null in the idle state
    and in no other, so the body and signature states always find the
    builder they read and push to. *)
Theorem builder_open_iff_not_idle est content i :
  let sc := scan_from est 0 (firstn i (split_lines content)) initScan in
  state sc = IDLE <-> currentChunk sc = None.
Proof.
  intros sc.
  assert (Hl : Forall oneLine (firstn i (split_lines content))).
  { pose proof (split_lines_oneLine content) as H.
    rewrite <- (firstn_skipn i (split_lines content)) in H.
    now apply Forall_app in H. }
  pose proof (scan_from_inv est (firstn i (split_lines content)) 0%nat
                initScan Hl (initScan_inv)) as HI.
  fold sc in HI. destruct HI as [_ _ _ Hb].
  destruct (currentChunk sc); split; intros H;
    [destruct Hb; congruence | discriminate | reflexivity | exact Hb].
Qed.

(* ================================================================== *)
(** ** Kinds, qualifiers and display signatures *)
(* ================================================================== *)

Section Kinds.

Variable est : jsstring -> Z.

Lemma withAttributes_type attrs b :
  Builder.type (withAttributes attrs b) = Builder.type b.
Proof. destruct attrs; reflexivity. Qed.

Lemma finalizeChunk_kinds sc e :
  kinds_inv est sc -> kinds_inv est (finalizeChunk est sc e).
Proof.
  intros (Hc & Hb). unfold finalizeChunk.
  destruct (currentChunk sc) as [b|] eqn:Hcur.
  2:{ split; [exact Hc | now rewrite Hcur]. }
  split; cbn [chunks currentChunk]; [|exact I].
  match goal with |- context [if ?t then _ else _] => destruct t end;
    [|exact Hc].
  apply Forall_app. split; [exact Hc|]. repeat constructor.
  eexists _, e. split; [reflexivity|]. now rewrite withAttributes_type.
Qed.

Lemma match_classOrStruct_kind line ind ty :
  match_classOrStruct line = Some (ind, ty) -> firstPassKind ty = true.
Proof.
  unfold match_classOrStruct. cbn [find fst].
  repeat match goal with
         | |- context [if ?t then _ else _] => destruct t
         end; intros H; inversion H; reflexivity.
Qed.

Lemma kinds_inv_open sc sc' b :
  kinds_inv est sc -> chunks sc' = chunks sc -> currentChunk sc' = Some b ->
  firstPassKind (Builder.type b) = true -> kinds_inv est sc'.
Proof.
  intros (Hc & _) Hk Hcur Hb. split; [now rewrite Hk | now rewrite Hcur].
Qed.

Lemma kinds_inv_same sc sc' :
  kinds_inv est sc -> chunks sc' = chunks sc ->
  currentChunk sc' = currentChunk sc -> kinds_inv est sc'.
Proof. intros (Hc & Hb) Hk Hcur. split; [now rewrite Hk | now rewrite Hcur]. Qed.

Lemma idle_block_kinds sc n line :
  kinds_inv est sc -> kinds_inv est (idle_block est sc n line).
Proof.
  intros H. unfold idle_block.
  destruct (state sc); try assumption.
  destruct (test_prefix PATTERNS.attribute line).
  { eapply kinds_inv_same; [exact H | reflexivity..]. }
  destruct (match_classOrStruct line) as [[ind ty]|] eqn:Hm.
  { apply match_classOrStruct_kind in Hm.
    match goal with
    | |- context [if ?t then _ else _] => destruct t
    end.
    - apply finalizeChunk_kinds.
      eapply kinds_inv_open; [exact H | reflexivity.. | exact Hm].
    - eapply kinds_inv_open; [exact H | reflexivity.. | exact Hm]. }
  repeat match goal with
         | |- context [if ?t then _ else _] => destruct t
         end;
    first [ exact H
          | eapply kinds_inv_open; [exact H | reflexivity..]
          | eapply kinds_inv_same; [exact H | reflexivity..] ].
Qed.

Lemma step_kinds sc n line :
  kinds_inv est sc -> kinds_inv est (step est sc n line).
Proof.
  intros H. unfold step.
  destruct (skipped_when_idle sc line (getIndent line)); [exact H|].
  unfold body_block, signature_block.
  destruct (state sc) eqn:Hs.
  - rewrite Hs. now apply idle_block_kinds.
  - rewrite Hs. destruct (currentChunk sc) as [b|] eqn:Hc; [|exact H].
    assert (Hb : firstPassKind (Builder.type b) = true).
    { destruct H as (_ & Hb). now rewrite Hc in Hb. }
    destruct (test_suffix PATTERNS.signatureEnd line).
    { eapply kinds_inv_open; [exact H | reflexivity.. | exact Hb]. }
    match goal with
    | |- context [if ?t then _ else _] => destruct t
    end.
    + assert (kinds_inv est
                (finalizeChunk est
                   (set_currentChunk (Some (push_signature line b)) sc) n))
        as HF.
      { apply finalizeChunk_kinds.
        eapply kinds_inv_open; [exact H | reflexivity.. | exact Hb]. }
      eapply kinds_inv_same; [exact HF | reflexivity..].
    + eapply kinds_inv_open; [exact H | reflexivity.. | exact Hb].
  - destruct (currentChunk sc) as [b|] eqn:Hc; [|exact H].
    assert (Hb : firstPassKind (Builder.type b) = true).
    { destruct H as (_ & Hb). now rewrite Hc in Hb. }
    match goal with
    | |- context [if ?t then _ else _] => destruct t
    end.
    + cbn [state set_state]. apply idle_block_kinds.
      eapply kinds_inv_same; [apply (finalizeChunk_kinds sc (n - 1) H)
                             | reflexivity..].
    + eapply kinds_inv_open; [exact H | reflexivity.. | exact Hb].
Qed.

Lemma scan_kinds lines :
  forall i sc, kinds_inv est sc -> kinds_inv est (scan_from est i lines sc).
Proof.
  induction lines as [|line rest IH]; intros i sc H; cbn; [exact H|].
  apply IH. now apply step_kinds.
Qed.

Lemma segmenterPass_built content :
  Forall (built est) (segmenterPass est content).
Proof.
  unfold segmenterPass.
  assert (H : kinds_inv est
                (scan_from est 0 (split_lines content) initScan)).
  { apply scan_kinds. split; [constructor | exact I]. }
  destruct (currentChunk _) eqn:Hc; [|apply H].
  now apply finalizeChunk_kinds.
Qed.

End Kinds.

Lemma first_line_cons_head c ls :
  first_line (cons_head c ls) = c :: first_line ls.
Proof. destruct ls; reflexivity. Qed.

Lemma first_line_split_app a b :
  first_line (split_nl (a ++ LF :: b)) = first_line (split_nl a).
Proof.
  induction a as [|c a IH]; cbn.
  - reflexivity.
  - destruct (c =? LF)%N; [reflexivity|].
    now rewrite !first_line_cons_head, IH.
Qed.

Lemma first_line_oneLine s : oneLine (first_line (split_nl s)).
Proof.
  pose proof (split_nl_oneLine s) as H.
  destruct (split_nl s); [reflexivity | now inversion H].
Qed.

Lemma nlc_firstn n s : (nlc (firstn n s) <= nlc s)%nat.
Proof.
  revert n. induction s as [|c s IH]; intros [|n]; cbn; try lia.
  specialize (IH n). destruct (c =? LF)%N; lia.
Qed.

Lemma display_oneLine n s : oneLine (slice0 n (trim (first_line (split_nl s)))).
Proof.
  unfold oneLine, slice0.
  pose proof (nlc_firstn n (trim (first_line (split_nl s)))).
  pose proof (nlc_trim_le (first_line (split_nl s))).
  pose proof (first_line_oneLine s) as H1. unfold oneLine in H1. lia.
Qed.

Lemma built_signature_ok est c : built est c -> signature_ok c.
Proof.
  intros (cur & e & -> & _). unfold signature_ok, builderChunk.
  cbn [signature text].
  split; [|split].
  - unfold fullContent.
    destruct (truthy (join_nl (Builder.bodyLines cur))).
    + now rewrite first_line_split_app.
    + now rewrite app_nil_r.
  - unfold slice0. apply firstn_le_length.
  - apply display_oneLine.
Qed.

Lemma built_qualifier_ok est c : built est c -> qualifier_ok c.
Proof. intros (cur & e & -> & H). exact H. Qed.

(** X4. The display signature of every chunk of the first pass is the
    first line of its text, trimmed and cut to 100 characters (the text
    starts with the trimmed header, so both have the same first line); it
    has at most 100 code units and holds no line feed. *)
Theorem first_pass_signature est content :
  Forall signature_ok (segmenterPass est content).
Proof.
  eapply Forall_impl; [|apply segmenterPass_built].
  apply built_signature_ok.
Qed.

(** X5. The first pass emits chunks with no parent qualifier and with a
    kind among class, struct, interface, enum, module, extension and
    function, never method or interface-method. After the extraction a
    chunk carries a parent qualifier exactly when its kind is method. *)
Theorem parent_qualifier_only_on_members est content :
  Forall (fun c => parentClass c = None /\ firstPassKind (type c) = true)
    (segmenterPass est content)
  /\ Forall qualifier_ok
       (extractNestedMethods est (segmenterPass est content)).
Proof.
  split.
  - eapply Forall_impl; [|apply segmenterPass_built].
    intros c (cur & e & -> & H). split; [reflexivity | exact H].
  - apply extractNestedMethods_Forall.
    + intros chunk cn ms mls result _ _ _ _ _ HR. unfold pushMember.
      destruct (20 <? length (trim (join_nl mls)))%nat; [|exact HR].
      apply Forall_app. split; [exact HR|]. repeat constructor.
    + eapply Forall_impl; [|apply segmenterPass_built].
      apply built_qualifier_ok.
Qed.

(* ================================================================== *)
(** ** The place of a chunk of the first pass in the file *)
(* ================================================================== *)

Lemma blank_firstVisible line :
  test_whole PATTERNS.emptyOrWhitespace line = true ->
  firstVisible line = None.
Proof.
  intros H. apply matches_lang in H. apply lang_star_cls in H.
  unfold firstVisible. rewrite <- (app_nil_r line).
  now rewrite dropWhile_spaces.
Qed.

Lemma using_firstVisible line :
  test_prefix PATTERNS.usingStmt line = true ->
  firstVisible line = Some 117%N.
Proof.
  intros H.
  destruct (test_prefix_firstVisible
              (cat [word "using"; Star PATTERNS.ws; chr "{"]) line)
    as (c & Hv & Hc); [reflexivity | | exact H |].
  - intros c Hc. cbn -[N.eqb] in Hc. rewrite !orb_false_r in Hc.
    apply N.eqb_eq in Hc. now subst.
  - cbn -[N.eqb] in Hc. rewrite !orb_false_r in Hc. apply N.eqb_eq in Hc.
    now subst.
Qed.

Lemma inert_not_attribute line :
  inertLine line = true -> isAttribute line = false.
Proof.
  intros H. unfold isAttribute.
  destruct (test_prefix PATTERNS.attribute line) eqn:Ha; [|reflexivity].
  apply attribute_firstVisible in Ha. unfold inertLine in H.
  apply orb_prop in H. destruct H as [H|H];
    [apply orb_prop in H; destruct H as [H|H]|].
  - apply using_firstVisible in H. congruence.
  - apply blank_firstVisible in H. congruence.
  - apply comment_firstVisible in H. congruence.
Qed.

Lemma blankOrComment_inert line :
  isBlankOrComment line = true -> inertLine line = true.
Proof.
  unfold isBlankOrComment, inertLine. intros H.
  apply orb_prop in H. destruct H as [H|H]; rewrite H;
    now rewrite ?orb_true_r.
Qed.

Lemma match_classOrStruct_indent line ind ty :
  match_classOrStruct line = Some (ind, ty) -> ind = getIndent line.
Proof.
  unfold match_classOrStruct.
  destruct (find _ _) as [[kw ty']|]; intros H; inversion H; reflexivity.
Qed.

Lemma definitionKind_first_pass line ty :
  definitionKind line = Some ty ->
  ChunkType_eqb ty TInterfaceMethod = false.
Proof.
  unfold definitionKind.
  destruct (match_classOrStruct line) as [[ind ty']|] eqn:Hm.
  - intros H. inversion H; subst.
    apply match_classOrStruct_kind in Hm. now destruct ty.
  - repeat match goal with
           | |- context [if ?t then _ else _] => destruct t
           end; intros H; inversion H; reflexivity.
Qed.

Lemma first_line_snoc (ls : list jsstring) l :
  ls <> [] -> first_line (ls ++ [l]) = first_line ls.
Proof. destruct ls; [congruence | reflexivity]. Qed.

Lemma gap_ok_snoc g line :
  gap_ok g -> gapLine line = true -> (g = [] -> isAttribute line = true) ->
  gap_ok (g ++ [line]).
Proof.
  intros (Hall & Hhd) Hl Hfirst. split.
  - rewrite forallb_app, Hall. cbn. now rewrite Hl.
  - destruct g; cbn; auto.
Qed.

Lemma filter_snoc_no (p : jsstring -> bool) g line :
  p line = false -> filter p (g ++ [line]) = filter p g.
Proof. intros H. rewrite filter_app. cbn. rewrite H. apply app_nil_r. Qed.

Lemma filter_snoc_yes (p : jsstring -> bool) g line :
  p line = true -> filter p (g ++ [line]) = filter p g ++ [line].
Proof. intros H. rewrite filter_app. cbn. now rewrite H. Qed.

Lemma definitionKind_starts line ty :
  definitionKind line = Some ty -> startsDefinition line.
Proof.
  unfold definitionKind.
  destruct (match_classOrStruct line) as [x|] eqn:Hm.
  { intros _. eauto using match_classOrStruct_starts. }
  destruct (test_prefix PATTERNS.moduleDecl line) eqn:H1.
  { intros _. now apply moduleDecl_starts. }
  destruct (test_prefix PATTERNS.extensionStart line) eqn:H2.
  { intros _. now apply extensionStart_starts. }
  destruct (test_whole PATTERNS.simpleFunction line) eqn:H3.
  { intros _. now apply simpleFunction_starts. }
  destruct (test_prefix PATTERNS.functionStart line) eqn:H4; cbn.
  { intros _. now apply functionStart_starts. }
  discriminate.
Qed.

(** No definition line is a using statement: after the name of a
    definition comes a specifier, a definition sign or a parenthesis,
    never a brace, and an extension method starts with a parenthesis. *)
Lemma definition_not_using line ty :
  definitionKind line = Some ty ->
  test_prefix PATTERNS.usingStmt line = false.
Proof.
  intros Hk. destruct (test_prefix PATTERNS.usingStmt line) eqn:Hu;
    [exfalso|reflexivity].
  pose proof (using_afterName line Hu) as Ha.
  pose proof (using_firstVisible line Hu) as Hv.
  assert (Hno : (exists c, afterName line = Some c /\ c <> 123%N) -> False).
  { intros (c & Hc & Hne). rewrite Ha in Hc. inversion Hc. congruence. }
  unfold definitionKind in Hk.
  destruct (match_classOrStruct line) as [x|] eqn:Hm.
  { eauto using match_classOrStruct_afterName. }
  destruct (test_prefix PATTERNS.moduleDecl line) eqn:H1.
  { eauto using moduleDecl_afterName. }
  destruct (test_prefix PATTERNS.extensionStart line) eqn:H2.
  { apply extensionStart_firstVisible in H2. congruence. }
  destruct (test_whole PATTERNS.simpleFunction line) eqn:H3.
  { eauto using simpleFunction_afterName. }
  destruct (test_prefix PATTERNS.functionStart line) eqn:H4; cbn in Hk.
  { eauto using functionStart_afterName. }
  discriminate.
Qed.

(** A definition line is no attribute, and is not inert. *)
Lemma definition_not_gap line ty :
  definitionKind line = Some ty ->
  isAttribute line = false /\ inertLine line = false.
Proof.
  intros Hk. pose proof (definitionKind_starts _ _ Hk) as Hs.
  assert (Hv : forall c, firstVisible line = Some c ->
                         isWord c = false -> c <> 40%N -> False).
  { intros c Hc Hw Hp. eapply not_startsDefinition; eauto. }
  split.
  - unfold isAttribute.
    destruct (test_prefix PATTERNS.attribute line) eqn:Ha; [|reflexivity].
    apply attribute_firstVisible in Ha. exfalso.
    apply (Hv _ Ha); [reflexivity | discriminate].
  - unfold inertLine. rewrite (definition_not_using _ _ Hk).
    destruct (test_whole PATTERNS.emptyOrWhitespace line) eqn:Hb.
    { apply blank_firstVisible in Hb. destruct Hs as (c & Hc & _).
      congruence. }
    destruct (test_prefix PATTERNS.comment line) eqn:Hc; [|reflexivity].
    apply comment_firstVisible in Hc. exfalso.
    apply (Hv _ Hc); [reflexivity | discriminate].
Qed.

Lemma signatureRun_found m l rest :
  forallb (fun x => negb (endsSignature x)) m = true ->
  endsSignature l = true ->
  signatureRun (m ++ l :: rest) = m ++ [l].
Proof.
  induction m as [|x m IH]; cbn; intros Hm Hl; [now rewrite Hl|].
  apply andb_prop in Hm. destruct Hm as (Hx & Hm).
  apply negb_true_iff in Hx. rewrite Hx. now rewrite IH.
Qed.

Lemma signatureRun_none m :
  forallb (fun x => negb (endsSignature x)) m = true ->
  signatureRun m = m.
Proof.
  induction m as [|x m IH]; cbn; intros Hm; [reflexivity|].
  apply andb_prop in Hm. destruct Hm as (Hx & Hm).
  apply negb_true_iff in Hx. rewrite Hx. now rewrite IH.
Qed.

Section Blocks.

Variable est : jsstring -> Z.
Variable all : list jsstring.

(** An inert line read while no builder is open. *)
Lemma buffer_of_inert pre g attrs line :
  buffer_of pre g attrs -> inertLine line = true ->
  exists pre' g',
    (pre ++ g) ++ [line] = pre' ++ g' /\ buffer_of pre' g' attrs.
Proof.
  intros (Hf & Hg & Hhd) Hl. destruct attrs as [|a attrs].
  - subst g. exists ((pre ++ []) ++ [line]), [].
    split; [now rewrite !app_nil_r|]. repeat split; auto.
  - exists pre, (g ++ [line]). split; [now rewrite <- app_assoc|].
    split; [|split].
    + rewrite filter_snoc_no by now apply inert_not_attribute. exact Hf.
    + apply gap_ok_snoc;
        [ exact Hg | unfold gapLine; rewrite Hl; apply orb_true_r
        | intros ->; cbn in Hf; discriminate ].
    + exact Hhd.
Qed.

Lemma buffer_of_none pre : buffer_of pre [] [].
Proof. repeat split; auto. Qed.

(** The builder with its attributes, in terms of the gap. *)
Lemma withAttributes_layout pre g attrs b :
  buffer_of pre g attrs -> open_ok pre g b ->
  Builder.signatureLines (withAttributes attrs b)
  = filter isAttribute g ++ Builder.signatureLines b
  /\ Builder.startLine (withAttributes attrs b)
     = Z.of_nat (length pre) + 1
  /\ Builder.bodyLines (withAttributes attrs b) = Builder.bodyLines b
  /\ Builder.type (withAttributes attrs b) = Builder.type b.
Proof.
  intros (Hf & Hg & Hhd) (Hs & _). destruct attrs as [|a attrs]; cbn.
  - subst g. cbn. repeat split; auto. rewrite Hs. cbn. lia.
  - rewrite <- Hf. cbn. repeat split; auto.
Qed.

Lemma finalize_block sc b pre g post e :
  currentChunk sc = Some b ->
  all = pre ++ g ++ Builder.signatureLines b ++ Builder.bodyLines b ++ post ->
  e = Z.of_nat (length pre + length g + length (Builder.signatureLines b)
                + length (Builder.bodyLines b)) ->
  buffer_of pre g (attributeLines sc) -> open_ok pre g b ->
  blockEnd (Builder.type b)
    (Layout.mk pre g (Builder.signatureLines b) (Builder.bodyLines b) post) ->
  header_done
    (Layout.mk pre g (Builder.signatureLines b) (Builder.bodyLines b) post) ->
  Forall (block_of est all) (chunks sc) ->
  Forall (block_of est all) (chunks (finalizeChunk est sc e)).
Proof.
  intros Hc Hall He Hbuf Hop Hend Hhead Hch.
  unfold finalizeChunk. rewrite Hc. cbv zeta. cbn [chunks].
  match goal with |- context [if ?t then _ else _] => destruct t end;
    [|exact Hch].
  apply Forall_app. split; [exact Hch|]. repeat constructor.
  destruct (withAttributes_layout _ _ _ _ Hbuf Hop) as (W1 & W2 & W3 & W4).
  destruct Hbuf as (_ & Hg & _).
  destruct Hop as (_ & Hne & Hbase & Hbody & Hkind).
  exists (Layout.mk pre g (Builder.signatureLines b) (Builder.bodyLines b)
            post).
  unfold laid_out, text_from, builderChunk, fullContent, builderSignature.
  cbn [Layout.before Layout.gap Layout.header Layout.body Layout.after
       text startLine endLine tokenCount type].
  rewrite W1, W2, W3, W4, <- Hbase.
  repeat split; auto; apply Hg.
Qed.

(** Opening a builder on the line after what was read. *)
Lemma block_inv_open done sc sc' b line :
  block_inv est all done sc -> currentChunk sc = None ->
  chunks sc' = chunks sc -> attributeLines sc' = attributeLines sc ->
  currentChunk sc' = Some b -> state sc' <> IDLE ->
  Builder.signatureLines b = [line] -> Builder.bodyLines b = [] ->
  Builder.startLine b = Z.of_nat (length done) + 1 ->
  Builder.baseIndent b = getIndent line ->
  definitionKind line = Some (Builder.type b) ->
  header_inv (state sc') [line] ->
  block_inv est all (done ++ [line]) sc'.
Proof.
  intros (Hch & Hcur) Hc Hk Ha Hc' Hs Hsig Hbody Hst Hbase Hkind Hhead.
  rewrite Hc in Hcur. destruct Hcur as (_ & pre & g & Hd & Hbuf).
  split; [now rewrite Hk|]. rewrite Hc'.
  split; [exact Hs|]. split; [auto|].
  split; [rewrite Hsig; exact Hhead|].
  exists pre, g. split; [|split].
  - rewrite Hsig, Hbody, Hd. cbn. now rewrite <- app_assoc.
  - now rewrite Ha.
  - unfold open_ok. rewrite Hsig, Hbody, Hst, Hbase, Hd, length_app.
    cbn. repeat split; auto. discriminate.
Qed.

Ltac by_tests :=
  repeat match goal with
         | H : ?t = _ |- context [?t] => rewrite H
         end.

Ltac hdr line :=
  cbn [state set_state set_currentChunk]; unfold header_inv;
  exists line, (@nil jsstring); split; [reflexivity|];
  first [ split; [unfold opensInBody, endsSignature; by_tests; reflexivity
                 | reflexivity]
        | intros ?; unfold headerOf, opensInBody, endsSignature; by_tests;
          reflexivity ].

Ltac opens Hinv Hc :=
  eapply block_inv_open;
  [ exact Hinv | exact Hc | reflexivity | reflexivity | reflexivity
  | cbn; discriminate | reflexivity | reflexivity | reflexivity
  | reflexivity | | ].

Lemma idle_block_blocks done line rest sc :
  all = done ++ line :: rest ->
  block_inv est all done sc -> state sc = IDLE ->
  block_inv est all (done ++ [line])
    (idle_block est sc (Z.of_nat (length done) + 1) line).
Proof.
  intros Hall Hinv Hs.
  assert (Hc : currentChunk sc = None).
  { destruct Hinv as (_ & H). destruct (currentChunk sc); [|reflexivity].
    destruct H as (H & _). congruence. }
  assert (Hinv' := Hinv). destruct Hinv' as (Hch & Hcur).
  rewrite Hc in Hcur. destruct Hcur as (_ & pre & g & Hd & Hbuf).
  unfold idle_block. rewrite Hs.
  destruct (test_prefix PATTERNS.attribute line) eqn:Hattr.
  { (* a buffered attribute *)
    split; [exact Hch|].
    cbn [currentChunk set_attributeLines state attributeLines].
    rewrite Hc. split; [exact Hs|].
    destruct Hbuf as (Hf & Hg & Hhd).
    destruct (attributeLines sc) as [|a attrs] eqn:Hbuffer.
    - subst g. exists done, [line]. split; [reflexivity|].
      cbn [app]. split; [|split].
      + cbn. unfold isAttribute. now rewrite Hattr.
      + split; cbn; unfold gapLine, isAttribute; now rewrite Hattr.
      + reflexivity.
    - exists pre, (g ++ [line]). split; [now rewrite Hd, <- app_assoc|].
      split; [|split].
      + rewrite filter_snoc_yes by exact Hattr.
        rewrite map_app, Hf. reflexivity.
      + apply gap_ok_snoc;
          [ exact Hg | unfold gapLine, isAttribute; now rewrite Hattr
          | intros _; exact Hattr ].
      + exact Hhd. }
  destruct (match_classOrStruct line) as [[ind ty]|] eqn:Hm.
  { assert (Hind := match_classOrStruct_indent _ _ _ Hm).
    assert (Hkind : definitionKind line = Some ty)
      by (unfold definitionKind; now rewrite Hm).
    destruct (ChunkType_eqb ty TEnum && includes 123%N line
              && includes 125%N line) eqn:Henum.
    - (* an enum on one line *)
      apply andb_prop in Henum. destruct Henum as (Henum & Hclose).
      apply andb_prop in Henum. destruct Henum as (Hty & Hopen).
      assert (ty = TEnum) by (destruct ty; try discriminate; reflexivity).
      subst ty.
      split.
      + eapply (finalize_block _ (startChunk _ line ind TEnum true) pre g
                  rest);
          [reflexivity | | | exact Hbuf | | |
          | exact Hch].
        * cbn. now rewrite Hall, Hd, <- app_assoc.
        * rewrite Hd, length_app. cbn. lia.
        * unfold open_ok. cbn. rewrite Hd, length_app.
          repeat split; auto. discriminate.
        * right. left. cbn. repeat split; auto. exists line. auto.
        * unfold header_done, headerOf, opensInBody. cbn. now rewrite Hm.
      + unfold finalizeChunk. cbn. split; [exact Hs|].
        exists (done ++ [line]), []. split; [now rewrite app_nil_r|].
        apply buffer_of_none.
    - subst ind. opens Hinv Hc; [exact Hkind | hdr line]. }
  assert (Hk0 : forall k,
             (if test_prefix PATTERNS.moduleDecl line then Some TModule
              else if test_prefix PATTERNS.extensionStart line
              then Some TExtension
              else if test_whole PATTERNS.simpleFunction line
                      || test_prefix PATTERNS.functionStart line
              then Some TFunction else None) = k ->
             definitionKind line = k).
  { intros k <-. unfold definitionKind. now rewrite Hm. }
  destruct (test_prefix PATTERNS.moduleDecl line) eqn:H1.
  { opens Hinv Hc; [now apply Hk0 | hdr line]. }
  destruct (test_prefix PATTERNS.extensionStart line) eqn:H2.
  { destruct (test_suffix PATTERNS.signatureEnd line) eqn:Hse;
      (opens Hinv Hc; [now apply Hk0 | hdr line]). }
  destruct (test_whole PATTERNS.simpleFunction line) eqn:H3.
  { opens Hinv Hc; [now apply Hk0 | hdr line]. }
  destruct (test_prefix PATTERNS.functionStart line) eqn:H4;
    cbn [andb negb].
  { opens Hinv Hc; [now apply Hk0 | hdr line]. }
  rewrite andb_true_r.
  destruct ((0 <? length (attributeLines sc))%nat
            && negb (isBlankOrComment line)) eqn:Hdrop.
  - (* the buffer is discarded *)
    split; [exact Hch|]. cbn. rewrite Hc. split; [exact Hs|].
    exists (done ++ [line]), []. split; [now rewrite app_nil_r|].
    apply buffer_of_none.
  - split; [exact Hch|]. rewrite Hc. split; [exact Hs|].
    apply andb_false_iff in Hdrop. destruct Hdrop as [Hn|Hb].
    + apply Nat.ltb_ge in Hn.
      destruct (attributeLines sc) as [|a attrs] eqn:Hbuffer;
        [|cbn in Hn; lia].
      exists (done ++ [line]), []. split; [now rewrite app_nil_r|].
      apply buffer_of_none.
    + apply negb_false_iff in Hb. apply blankOrComment_inert in Hb.
      rewrite Hd. now apply buffer_of_inert.
Qed.

Lemma open_ok_push_signature pre g b line :
  open_ok pre g b -> open_ok pre g (push_signature line b).
Proof.
  intros (H1 & H2 & H3 & H4 & H5). unfold open_ok, push_signature.
  cbn [Builder.startLine Builder.signatureLines Builder.bodyLines
       Builder.baseIndent Builder.type].
  rewrite first_line_snoc by exact H2. repeat split; auto.
  destruct (Builder.signatureLines b); discriminate.
Qed.

Lemma open_ok_push_body pre g b line :
  open_ok pre g b -> inBlock (Builder.baseIndent b) line = true ->
  open_ok pre g (push_body line b).
Proof.
  intros (H1 & H2 & H3 & H4 & H5) Hl. unfold open_ok, push_body.
  cbn [Builder.startLine Builder.signatureLines Builder.bodyLines
       Builder.baseIndent Builder.type].
  repeat split; auto.
  rewrite forallb_app, H4. cbn. now rewrite Hl.
Qed.

Lemma step_blocks done line rest sc :
  all = done ++ line :: rest ->
  block_inv est all done sc ->
  block_inv est all (done ++ [line])
    (step est sc (Z.of_nat (length done) + 1) line).
Proof.
  intros Hall Hinv. unfold step.
  destruct (skipped_when_idle sc line (getIndent line)) eqn:Hskip.
  { unfold skipped_when_idle in Hskip.
    destruct (state sc) eqn:Hs; try discriminate.
    assert (Hl : inertLine line = true).
    { unfold inertLine. apply orb_prop in Hskip. destruct Hskip as [H|H].
      - now rewrite H.
      - apply andb_prop in H. destruct H as (H & _). rewrite H.
        apply orb_true_r. }
    destruct Hinv as (Hch & Hcur). split; [exact Hch|].
    destruct (currentChunk sc) eqn:Hc; [destruct Hcur; congruence|].
    destruct Hcur as (_ & pre & g & Hd & Hbuf). split; [exact Hs|].
    rewrite Hd. now apply buffer_of_inert. }
  clear Hskip. unfold body_block, signature_block.
  destruct (state sc) eqn:Hs.
  - (* IDLE *) rewrite Hs. eapply idle_block_blocks; eassumption.
  - (* IN_SIGNATURE *)
    rewrite Hs. destruct Hinv as (Hch & Hcur).
    destruct (currentChunk sc) as [b|] eqn:Hc;
      [|destruct Hcur; congruence].
    destruct Hcur as (_ & Hsb & Hhd & pre & g & Hd & Hbuf & Hop).
    specialize (Hsb Hs). rewrite Hs in Hhd.
    destruct Hhd as (l0 & more & Hsig & Hopen & Hmore).
    assert (Hd' : done ++ [line]
                  = pre ++ g ++ (Builder.signatureLines b ++ [line])
                    ++ Builder.bodyLines b).
    { rewrite Hd, Hsb, !app_nil_r. now rewrite <- !app_assoc. }
    assert (Hop' := open_ok_push_signature pre g b line Hop).
    assert (Hty : ChunkType_eqb (Builder.type (push_signature line b))
                    TInterfaceMethod = false).
    { destruct Hop as (_ & _ & _ & _ & Hk).
      exact (definitionKind_first_pass _ _ Hk). }
    rewrite Hty, andb_false_r.
    destruct (test_suffix PATTERNS.signatureEnd line) eqn:Hse.
    + split; [exact Hch|]. cbn [currentChunk set_state set_currentChunk state].
      split; [discriminate|]. split; [discriminate|].
      split.
      { exists l0, (more ++ [line]).
        cbn [Builder.signatureLines set_hasBody push_signature].
        rewrite Hsig. split; [reflexivity|].
        intros rest'. unfold headerOf. rewrite Hopen, <- app_assoc.
        cbn [app]. now rewrite signatureRun_found. }
      exists pre, g. repeat split; auto; apply Hbuf || apply Hop'.
    + split; [exact Hch|]. cbn [currentChunk set_state set_currentChunk state].
      rewrite Hs. split; [discriminate|]. split; [intros _; exact Hsb|].
      split.
      { exists l0, (more ++ [line]).
        cbn [Builder.signatureLines set_hasBody push_signature].
        rewrite Hsig. split; [reflexivity|].
        split; [exact Hopen|].
        rewrite forallb_app, Hmore. cbn. unfold endsSignature.
        now rewrite Hse. }
      exists pre, g. repeat split; auto; apply Hbuf || apply Hop'.
  - (* IN_BODY *)
    destruct Hinv as (Hch & Hcur).
    destruct (currentChunk sc) as [b|] eqn:Hc;
      [|destruct Hcur; congruence].
    destruct Hcur as (_ & _ & Hhd & pre & g & Hd & Hbuf & Hop).
    rewrite Hs in Hhd.
    destruct (negb (isBlankOrComment line)
              && (getIndent line <=? Builder.baseIndent b)) eqn:Hout.
    + cbn [state set_state].
      apply andb_prop in Hout. destruct Hout as (Hnb & Hle).
      apply negb_true_iff in Hnb. apply Z.leb_le in Hle.
      eapply idle_block_blocks; [exact Hall | | reflexivity].
      split.
      * cbn [chunks set_state].
        eapply (finalize_block sc b pre g (line :: rest));
          [ exact Hc | now rewrite Hall, Hd, <- !app_assoc
          | rewrite Hd, !length_app; lia | exact Hbuf | exact Hop
          | | | exact Hch ].
        -- right. right. exists line, rest. cbn.
           destruct Hop as (_ & _ & Hbase & _). rewrite <- Hbase. auto.
        -- destruct Hhd as (d0 & more & Hsig & Hclosed).
           unfold header_done. cbn. rewrite Hsig. cbn.
           symmetry. apply Hclosed.
      * unfold finalizeChunk. rewrite Hc. cbn. split; [reflexivity|].
        exists done, []. split; [now rewrite app_nil_r|].
        apply buffer_of_none.
    + split; [exact Hch|]. cbn [currentChunk set_currentChunk state].
      rewrite Hs. split; [discriminate|]. split; [discriminate|].
      split; [exact Hhd|].
      exists pre, g. split; [|split; [exact Hbuf|]].
      * cbn. rewrite Hd. now rewrite <- !app_assoc.
      * apply open_ok_push_body; [exact Hop|].
        unfold inBlock. apply andb_false_iff in Hout.
        destruct Hout as [H|H].
        -- apply negb_false_iff in H. now rewrite H.
        -- apply Z.leb_gt in H. apply Z.ltb_lt in H. rewrite H.
           apply orb_true_r.
Qed.

Lemma scan_blocks rest :
  forall done sc,
    all = done ++ rest -> block_inv est all done sc ->
    block_inv est all all (scan_from est (length done) rest sc).
Proof.
  induction rest as [|line rest IH]; intros done sc Hall Hinv; cbn.
  - rewrite app_nil_r in Hall. rewrite <- Hall in Hinv. exact Hinv.
  - replace (S (length done)) with (length (done ++ [line]))
      by (rewrite length_app; cbn; lia).
    apply IH; [now rewrite <- app_assoc|].
    eapply step_blocks; eassumption.
Qed.

End Blocks.

Lemma segmenterPass_blocks est content :
  Forall (block_of est (split_lines content)) (segmenterPass est content).
Proof.
  unfold segmenterPass. cbv zeta.
  pose proof (scan_blocks est (split_lines content) (split_lines content)
                [] initScan eq_refl) as H.
  cbn [length] in H.
  destruct H as (Hch & Hcur).
  { split; [constructor|]. cbn. split; [reflexivity|].
    exists [], []. split; [reflexivity | apply buffer_of_none]. }
  set (sc := scan_from est 0 (split_lines content) initScan) in *.
  destruct (currentChunk sc) as [b|] eqn:Hc; [|exact Hch].
  destruct Hcur as (_ & Hsb & Hhd & pre & g & Hd & Hbuf & Hop).
  eapply (finalize_block est _ sc b pre g []);
    [ exact Hc | now rewrite app_nil_r
    | rewrite Hd, !length_app; lia | exact Hbuf | exact Hop | now left
    | | exact Hch ].
  destruct Hhd as (d0 & more & Hsig & Hhd).
  unfold header_done. cbn. rewrite Hsig. cbn. rewrite app_nil_r.
  destruct (state sc) eqn:Hs; try (symmetry; apply Hhd).
  destruct Hhd as (Hopen & Hmore).
  rewrite (Hsb eq_refl), app_nil_r.
  unfold headerOf. rewrite Hopen. now rewrite signatureRun_none.
Qed.

(** X6. Every chunk of the first pass has a place in the file: the lines
    before its start line; a gap that, when not empty, starts with an
    attribute line and holds only attribute lines, using statements, blank
    lines and comments; a header that is not empty; and the body, up to
    its end line. Its text is the attribute lines of the gap and the
    header lines, joined and trimmed, followed by a line feed and the
    joined body lines when these are not the empty string; its token
    count is the estimate of that text. *)
Theorem first_pass_text_from_file est content :
  Forall
    (fun c =>
       exists y,
         laid_out (split_lines content) c y
         /\ gap_ok (Layout.gap y)
         /\ text_from y c
         /\ tokenCount c = est (text c))
    (segmenterPass est content).
Proof.
  eapply Forall_impl; [|apply segmenterPass_blocks].
  intros c (y & H1 & H2 & H3 & H4 & _). eauto.
Qed.

(** X7. Every chunk of the first pass has such a place in which its kind
    is the one that the idle block gives to the first line of the header,
    the definition line; every body line is blank, a comment, or indented
    deeper than the definition line; and the chunk ends for one of three
    reasons: the file ends; or it is an enum on one line with both braces;
    or the next line is neither blank nor a comment and is indented no
    deeper than the definition line. *)
Theorem first_pass_block_boundaries est content :
  Forall
    (fun c =>
       exists y,
         laid_out (split_lines content) c y
         /\ gap_ok (Layout.gap y)
         /\ definitionKind (first_line (Layout.header y)) = Some (type c)
         /\ forallb (inBlock (getIndent (first_line (Layout.header y))))
              (Layout.body y) = true
         /\ blockEnd (type c) y)
    (segmenterPass est content).
Proof.
  eapply Forall_impl; [|apply segmenterPass_blocks].
  intros c (y & H1 & H2 & _ & _ & H5 & H6 & H7 & _). eauto 10.
Qed.

Lemma app_same_length {A} (l1 l2 r1 r2 : list A) :
  l1 ++ r1 = l2 ++ r2 -> length l1 = length l2 -> l1 = l2 /\ r1 = r2.
Proof.
  revert l2. induction l1 as [|x l1 IH]; intros [|y l2] H Hl;
    cbn in *; try discriminate; [auto|].
  inversion H; subst. destruct (IH l2); auto. now subst.
Qed.

(** Where a run of lines with a property ends is fixed by the first line
    without it. *)
Lemma run_unique (p : jsstring -> bool) g g' d d' x x' :
  forallb p g = true -> forallb p g' = true ->
  p d = false -> p d' = false ->
  g ++ d :: x = g' ++ d' :: x' -> g = g' /\ d :: x = d' :: x'.
Proof.
  revert g'. induction g as [|l g IH]; intros [|l' g'] Hg Hg' Hd Hd' H;
    cbn in *.
  - auto.
  - inversion H; subst. apply andb_prop in Hg'. destruct Hg'. congruence.
  - inversion H; subst. apply andb_prop in Hg. destruct Hg. congruence.
  - inversion H; subst.
    apply andb_prop in Hg. apply andb_prop in Hg'.
    destruct Hg as (_ & Hg). destruct Hg' as (_ & Hg').
    destruct (IH g' Hg Hg' Hd Hd'); auto. now subst.
Qed.

(** A chunk has at most one block in the file. *)
Lemma block_at_unique all c y y' :
  block_at all c y -> block_at all c y' -> y = y'.
Proof.
  intros ((Hall & Hs & He & Hne) & (Hg & _) & Hd & _ & Hh & _)
         ((Hall' & Hs' & He' & Hne') & (Hg' & _) & Hd' & _ & Hh' & _).
  unfold header_done in Hh, Hh'.
  destruct y as [b g h bd a], y' as [b' g' h' bd' a']. cbn in *.
  destruct h as [|d m]; [congruence|]. destruct h' as [|d' m']; [congruence|].
  cbn in *.
  rewrite Hall in Hall'.
  destruct (app_same_length _ _ _ _ Hall') as (-> & Hrest); [lia|].
  destruct (run_unique gapLine g g' d d' _ _ Hg Hg' Hd Hd' Hrest)
    as (-> & Hrest').
  inversion Hrest' as [[Hdd Hm]]. subst d'.
  rewrite Hm in Hh. rewrite <- Hh' in Hh. inversion Hh; subst m'.
  apply app_inv_head in Hm.
  destruct (app_same_length _ _ _ _ Hm) as (-> & ->); [lia | reflexivity].
Qed.

Lemma block_of_at est all c :
  block_of est all c -> exists y, block_at all c y.
Proof.
  intros (y & H1 & H2 & _ & _ & H5 & H6 & H7 & H8).
  exists y. unfold block_at. repeat split; auto; try apply H1; try apply H2.
  destruct (definition_not_gap _ _ H7) as (Ha & Hi).
  unfold gapLine. now rewrite Ha, Hi.
Qed.

(** X8. Every chunk of the first pass has exactly one block in the file:
    one way to cut the lines of the file into the lines before the chunk,
    the gap, the header, the body and the lines after it, such that the
    chunk starts after the lines before it and ends with the body; the
    gap holds attribute lines, using statements, blank lines and comments
    only and starts with an attribute line when it is not empty; the
    header starts with a line that is none of these and to which the idle
    block gives the kind of the chunk; the header is that definition line
    alone when the idle block opens it in the body state, and otherwise
    runs through the first later line that matches [signatureEnd], or to
    the end of the file when no later line does; every body line is
    blank, a comment or indented deeper than the definition line; and the
    chunk ends with the file, as an enum on one line, or before a line
    that is neither blank nor a comment and is indented no deeper than
    the definition line. *)
Theorem first_pass_header_end est content :
  Forall (fun c => exists! y, block_at (split_lines content) c y)
    (segmenterPass est content).
Proof.
  eapply Forall_impl; [|apply segmenterPass_blocks].
  intros c H. destruct (block_of_at _ _ _ H) as (y & Hy).
  exists y. split; [exact Hy|].
  intros y' Hy'. eapply block_at_unique; eassumption.
Qed.

(* ================================================================== *)
(** ** The block that a definition line opens *)
(* ================================================================== *)



(** The chunk of a builder depends on its start line, its lines and its
    kind only. *)
Lemma builderChunk_block est b e :
  builderChunk est b e
  = blockChunk est (Builder.startLine b) (Builder.signatureLines b)
      (Builder.bodyLines b) e (Builder.type b).
Proof. reflexivity. Qed.


























Lemma builtChunk_plain est n d ind ty hs bs e :
  builtChunk est [] (startChunk n d ind ty true) hs bs e
  = blockChunk est n (d :: hs) bs e ty.
Proof. reflexivity. Qed.









(* ================================================================== *)
(** ** Extraction, chunk by chunk *)
(* ================================================================== *)

Section Additive.

Variable est : jsstring -> Z.

Lemma pushMember_app chunk cn ms mls r x :
  pushMember est chunk cn ms mls (r ++ x)
  = r ++ pushMember est chunk cn ms mls x.
Proof.
  unfold pushMember.
  destruct (20 <? length (trim (join_nl mls)))%nat;
    [now rewrite app_assoc | reflexivity].
Qed.

Lemma member_step_shift chunk cn pi r m i line :
  member_step est chunk cn pi (withPrefix r m) i line
  = withPrefix r (member_step est chunk cn pi m i line).
Proof.
  unfold member_step, withPrefix.
  cbn [Member.methodStart Member.methodLines Member.methodIndent
       Member.inMethodSignature Member.result].
  repeat match goal with
         | |- context [if ?t then _ else _] => destruct t
         end;
    cbn [Member.methodStart Member.methodLines Member.methodIndent
         Member.inMethodSignature Member.result];
    rewrite ?pushMember_app; reflexivity.
Qed.

Lemma member_loop_shift chunk cn pi r lines :
  forall i m,
    member_loop est chunk cn pi i lines (withPrefix r m)
    = withPrefix r (member_loop est chunk cn pi i lines m).
Proof.
  induction lines as [|line rest IH]; intros i m; cbn; [reflexivity|].
  now rewrite member_step_shift, IH.
Qed.

(** What [extract_one] pushes does not depend on what was pushed before. *)
Lemma extract_one_app r x chunk :
  extract_one est (r ++ x) chunk = r ++ extract_one est x chunk.
Proof.
  unfold extract_one. rewrite <- !app_assoc.
  destruct (negb (isClassOrStruct chunk)); [reflexivity|].
  destruct (length (split_nl (text chunk)) <? 3)%nat; [reflexivity|].
  set (cn := leading_name (lit "Unknown") (first_line (split_nl (text chunk)))).
  set (pi := getIndent (first_line (split_nl (text chunk)))).
  change (Member.mk (-1) [] (-1) false (r ++ x ++ [chunk]))
    with (withPrefix r (Member.mk (-1) [] (-1) false (x ++ [chunk]))).
  rewrite member_loop_shift.
  set (m := member_loop est chunk cn pi 1 (tl (split_nl (text chunk))) _).
  unfold withPrefix.
  cbn [Member.methodStart Member.methodLines Member.result].
  match goal with
  | |- context [if ?t then _ else _] => destruct t
  end; [apply pushMember_app | reflexivity].
Qed.

Lemma extract_one_from_empty result chunk :
  extract_one est result chunk = result ++ extract_one est [] chunk.
Proof. now rewrite <- (app_nil_r result) at 1; rewrite extract_one_app. Qed.

Lemma extract_one_head chunk :
  extract_one est [] chunk = chunk :: membersOf est chunk.
Proof.
  unfold membersOf.
  change (extract_one est [] chunk) with (extract_one est ([] ++ []) chunk).
  assert (H : exists x, extract_one est [] chunk = chunk :: x).
  { unfold extract_one. cbn [app].
    destruct (negb (isClassOrStruct chunk)); [now exists []|].
    destruct (length (split_nl (text chunk)) <? 3)%nat; [now exists []|].
    set (cn := leading_name _ _). set (pi := getIndent _).
    change (Member.mk (-1) [] (-1) false [chunk])
      with (withPrefix [chunk] (Member.mk (-1) [] (-1) false [])).
    rewrite member_loop_shift.
    set (m := member_loop est chunk cn pi 1 _ _).
    unfold withPrefix.
    cbn [Member.methodStart Member.methodLines Member.result].
    match goal with
    | |- context [if ?t then _ else _] => destruct t
    end; [rewrite pushMember_app|]; eexists; reflexivity. }
  destruct H as (x & Hx). cbn [app]. now rewrite Hx.
Qed.

Lemma extractNestedMethods_from chunks :
  forall result,
    fold_left (extract_one est) chunks result
    = result ++ flat_map (fun c => c :: membersOf est c) chunks.
Proof.
  induction chunks as [|c cs IH]; intros result; cbn [fold_left flat_map].
  - now rewrite app_nil_r.
  - rewrite IH, extract_one_from_empty, extract_one_head.
    now rewrite <- app_assoc.
Qed.

End Additive.

(** X9. The extraction works chunk by chunk: its output is, for each
    input chunk in order, the chunk itself followed by its members, which
    depend on that chunk alone. So the extraction of a concatenation is
    the concatenation of the extractions. *)
Theorem extraction_chunk_by_chunk est :
  (forall chunks,
      extractNestedMethods est chunks
      = flat_map (fun c => c :: membersOf est c) chunks)
  /\ (forall a b,
        extractNestedMethods est (a ++ b)
        = extractNestedMethods est a ++ extractNestedMethods est b).
Proof.
  assert (H : forall chunks,
             extractNestedMethods est chunks
             = flat_map (fun c => c :: membersOf est c) chunks).
  { intros chunks. unfold extractNestedMethods.
    now rewrite extractNestedMethods_from. }
  split; [exact H|].
  intros a b. rewrite !H. apply flat_map_app.
Qed.

(* ================================================================== *)
(** ** The invariant of the members of a chunk *)
(* ================================================================== *)

Section Members.

Variable est : jsstring -> Z.
Variable chunk : Chunk.

Let cn := classNameOf chunk.
Let cs := startLine chunk.

Lemma pushMember_inv ms mls pre post result hi :
  split_nl (text chunk) = pre ++ mls ++ post ->
  pre <> [] -> mls <> [] -> Z.of_nat (length pre) = ms ->
  startsMember (parentIndentOf chunk) (first_line mls) ->
  endsMember (first_line mls) (head post) ->
  Forall (member_at est chunk) result ->
  chain (cs + 1) result (cs + ms) ->
  ms + Z.of_nat (length mls) <= hi ->
  Forall (member_at est chunk) (pushMember est chunk cn ms mls result)
  /\ chain (cs + 1) (pushMember est chunk cn ms mls result) (cs + hi).
Proof.
  intros Hall Hpre Hmls Hms Hstart Hend HR Hch Hhi.
  assert (1 <= length pre)%nat by (destruct pre; cbn; [congruence | lia]).
  assert (1 <= length mls)%nat by (destruct mls; cbn; [congruence | lia]).
  unfold pushMember.
  destruct (20 <? length (trim (join_nl mls)))%nat eqn:Hlong.
  - split.
    + apply Forall_app. split; [exact HR|]. repeat constructor.
      exists pre, mls, post. apply Nat.ltb_lt in Hlong. subst ms.
      repeat split; auto; apply Hstart.
    + eapply chain_snoc; [exact Hch | | | ];
        unfold memberChunk; cbn [startLine endLine]; fold cs; lia.
  - split; [exact HR|]. eapply chain_weaken; [exact Hch | lia].
Qed.

Lemma member_step_inv done line rest m :
  split_nl (text chunk) = done ++ line :: rest -> done <> [] ->
  member_inv est chunk done m ->
  member_inv est chunk (done ++ [line])
    (member_step est chunk cn (parentIndentOf chunk) m
       (Z.of_nat (length done)) line).
Proof.
  intros Hall Hdone (HR & Hch & Hopen).
  assert (Hi : (1 <= length done)%nat)
    by (destruct done; cbn; [congruence | lia]).
  assert (Hstarts :
            test_prefix PATTERNS.methodPattern line
            && (parentIndentOf chunk <? getIndent line) = true ->
            startsMember (parentIndentOf chunk) line).
  { intros H. apply andb_prop in H. destruct H as (H1 & H2).
    apply Z.ltb_lt in H2. split; assumption. }
  (* the three ways the state changes without a push *)
  assert (Hnew : forall sg,
             Member.methodStart m = -1 ->
             startsMember (parentIndentOf chunk) line ->
             member_inv est chunk (done ++ [line])
               (Member.mk (Z.of_nat (length done)) [line] (getIndent line) sg
                  (Member.result m))).
  { intros sg Hs Hst. unfold member_inv. cbn.
    rewrite Hs in Hch. cbn in Hch.
    replace (Z.of_nat (length done) =? -1) with false
      by (symmetry; apply Z.eqb_neq; lia).
    repeat split; auto. right. exists done.
    repeat split; auto; try apply Hst. discriminate. }
  assert (Hskip : Member.methodStart m = -1 ->
                  member_inv est chunk (done ++ [line]) m).
  { intros Hs. unfold member_inv. rewrite Hs in *. cbn in *.
    repeat split; auto.
    eapply chain_weaken; [exact Hch|]. rewrite length_app. cbn. lia. }
  assert (Hpush : forall sg,
             Member.methodStart m <> -1 ->
             member_inv est chunk (done ++ [line])
               (Member.mk (Member.methodStart m)
                  (Member.methodLines m ++ [line]) (Member.methodIndent m)
                  sg (Member.result m))).
  { intros sg Hs. unfold member_inv. cbn.
    apply Z.eqb_neq in Hs. rewrite Hs in *.
    repeat split; auto. right.
    destruct Hopen as [Ho|(pre & Hd & Hl & Hp & Hm & Hst & Hmi)];
      [apply Z.eqb_neq in Hs; congruence|].
    exists pre. rewrite Hd, <- app_assoc, first_line_snoc by exact Hm.
    repeat split; auto; try apply Hst.
    destruct (Member.methodLines m); discriminate. }
  unfold member_step.
  destruct (Z.eqb_spec (Member.methodStart m) (-1)) as [Hs|Hs];
    cbn [negb]; rewrite !andb_true_r, !andb_false_r.
  - destruct (negb (truthy (trim line)) || startsWith 35%N (trim line));
      [now apply Hskip|].
    destruct (test_prefix PATTERNS.methodPattern line
              && (parentIndentOf chunk <? getIndent line)) eqn:Hmp;
      auto.
  - destruct (negb (truthy (trim line)) || startsWith 35%N (trim line))
      eqn:Hblank.
    { destruct m; apply Hpush; assumption. }
    destruct (Member.inMethodSignature m) eqn:Hsig.
    { destruct (test_suffix PATTERNS.signatureEnd line); now apply Hpush. }
    destruct ((getIndent line <=? Member.methodIndent m)
              && truthy (trim line)) eqn:Hout.
    2:{ destruct m; apply Hpush; assumption. }
    destruct Hopen as [Ho|(pre & Hd & Hl & Hp & Hm & Hst & Hmi)];
      [congruence|].
    assert (Hms : (Member.methodStart m =? -1) = false)
      by now apply Z.eqb_neq.
    rewrite ?Hms in Hch.
    apply orb_false_iff in Hblank. destruct Hblank as (_ & Hhash).
    apply andb_prop in Hout. destruct Hout as (Hle & Htr).
    apply Z.leb_le in Hle.
    destruct (pushMember_inv (Member.methodStart m) (Member.methodLines m)
                pre (line :: rest) (Member.result m)
                (Z.of_nat (length done)))
      as (HR' & Hch'); auto.
    { now rewrite app_assoc, <- Hd. }
    { cbn. rewrite <- Hmi. auto. }
    { rewrite Hd, length_app. lia. }
    destruct (test_prefix PATTERNS.methodPattern line
              && (parentIndentOf chunk <? getIndent line)) eqn:Hmp;
      unfold member_inv; cbn.
    + replace (Z.of_nat (length done) =? -1) with false
        by (symmetry; apply Z.eqb_neq; lia).
      repeat split; auto. right. exists done.
      repeat split; auto; try apply (Hstarts eq_refl). discriminate.
    + repeat split; auto.
      eapply chain_weaken; [exact Hch'|]. rewrite length_app. cbn. lia.
Qed.

Lemma member_loop_inv rest :
  forall done m,
    split_nl (text chunk) = done ++ rest -> done <> [] ->
    member_inv est chunk done m ->
    member_inv est chunk (split_nl (text chunk))
      (member_loop est chunk cn (parentIndentOf chunk) (length done) rest
         m).
Proof.
  induction rest as [|line rest IH]; intros done m Hall Hdone Hinv; cbn.
  - now rewrite Hall, app_nil_r.
  - replace (S (length done)) with (length (done ++ [line]))
      by (rewrite length_app; cbn; lia).
    apply IH.
    + now rewrite <- app_assoc.
    + destruct done; discriminate.
    + eapply member_step_inv; eassumption.
Qed.

(** The members of a chunk are runs of lines of its text, in the order
    of the text and without a common line. *)
Lemma membersOf_inv :
  Forall (member_at est chunk) (membersOf est chunk)
  /\ chain (cs + 1) (membersOf est chunk)
       (cs + Z.of_nat (length (split_nl (text chunk)))).
Proof.
  assert (Hnil : Forall (member_at est chunk) []
                 /\ chain (cs + 1) []
                      (cs + Z.of_nat (length (split_nl (text chunk))))).
  { split; [constructor|]. cbn. rewrite split_nl_length. lia. }
  unfold membersOf, extract_one. cbn [app].
  destruct (negb (isClassOrStruct chunk)); [exact Hnil|].
  destruct (length (split_nl (text chunk)) <? 3)%nat eqn:Hlen; [exact Hnil|].
  fold (classNameOf chunk). fold cn. fold (parentIndentOf chunk).
  change (Member.mk (-1) [] (-1) false [chunk])
    with (withPrefix [chunk] (Member.mk (-1) [] (-1) false [])).
  rewrite member_loop_shift.
  destruct (split_nl (text chunk)) as [|l0 rest] eqn:Hsplit;
    [cbn in Hlen; discriminate|].
  cbn [tl].
  pose proof (member_loop_inv rest [l0]
                (Member.mk (-1) [] (-1) false [])) as Hinv.
  rewrite Hsplit in Hinv. cbn [length] in Hinv.
  set (m := member_loop est chunk cn (parentIndentOf chunk) 1 rest _) in *.
  destruct Hinv as (HR & Hch & Hopen); [reflexivity | discriminate | |].
  { unfold member_inv. cbn. repeat split; [constructor | lia | now left]. }
  unfold withPrefix.
  cbn [Member.methodStart Member.methodLines Member.result].
  destruct (Z.eqb_spec (Member.methodStart m) (-1)) as [Hs|Hs]; cbn [negb andb].
  - cbn [tl app]. split; [exact HR|]. exact Hch.
  - destruct Hopen as [Ho|(pre & Hd & Hl & Hp & Hm & Hst & Hmi)];
      [congruence|].
    replace (0 <? length (Member.methodLines m))%nat with true
      by (symmetry; apply Nat.ltb_lt; destruct (Member.methodLines m);
          cbn; [congruence | lia]).
    rewrite pushMember_app. cbn [tl app].
    apply (pushMember_inv (Member.methodStart m) (Member.methodLines m)
             pre []); auto; [|exact I|].
    + rewrite Hsplit, app_nil_r. exact Hd.
    + rewrite Hd, length_app. lia.
Qed.

End Members.

(* ================================================================== *)
(** ** The members of a chunk *)
(* ================================================================== *)

Lemma split_nl_oneLine_app l s :
  oneLine l -> split_nl (l ++ LF :: s) = l :: split_nl s.
Proof.
  unfold oneLine. induction l as [|c l IH]; cbn; intros H.
  - reflexivity.
  - destruct (c =? LF)%N eqn:Hc; [discriminate|].
    now rewrite IH.
Qed.

Lemma split_nl_single l : oneLine l -> split_nl l = [l].
Proof.
  unfold oneLine. induction l as [|c l IH]; cbn; intros H; [reflexivity|].
  destruct (c =? LF)%N eqn:Hc; [discriminate|].
  now rewrite IH.
Qed.

(** Joining lines and splitting again gives the lines back. *)
Lemma split_nl_join ls :
  ls <> [] -> Forall oneLine ls -> split_nl (join_nl ls) = ls.
Proof.
  intros Hne H. induction H as [|l ls Hl Hls IH]; [congruence|].
  destruct ls as [|l' ls'].
  - now apply split_nl_single.
  - change (join_nl (l :: l' :: ls')) with (l ++ LF :: join_nl (l' :: ls')).
    rewrite split_nl_oneLine_app by assumption.
    now rewrite IH by discriminate.
Qed.

Lemma run_middle pre ls post :
  run (pre ++ ls ++ post) (Z.of_nat (length pre)) (Z.of_nat (length ls)) = ls.
Proof.
  unfold run. rewrite !Nat2Z.id.
  rewrite skipn_app, skipn_all, Nat.sub_diag. cbn [skipn app].
  rewrite firstn_app, firstn_all, Nat.sub_diag. cbn. now rewrite app_nil_r.
Qed.

Lemma nth_error_after (pre ls post : list jsstring) :
  nth_error (pre ++ ls ++ post) (length pre + length ls) = head post.
Proof.
  rewrite app_assoc, nth_error_app2 by (rewrite length_app; lia).
  rewrite length_app, Nat.sub_diag. now destruct post.
Qed.

Lemma member_at_facts est chunk m :
  member_at est chunk m ->
  member_placed chunk m /\ member_text_ok chunk m /\ member_named chunk m
  /\ long_text m /\ member_bounded chunk m.
Proof.
  intros (pre & mls & post & Hall & Hpre & Hmls & Hlong & Hstart & Hend
          & ->).
  assert (Hl : Forall oneLine mls).
  { pose proof (split_nl_oneLine (text chunk)) as H. rewrite Hall in H.
    apply Forall_app in H. destruct H as (_ & H).
    now apply Forall_app in H. }
  assert (1 <= length pre)%nat by (destruct pre; cbn; [congruence | lia]).
  assert (1 <= length mls)%nat by (destruct mls; cbn; [congruence | lia]).
  assert (Hsplit : split_nl (text (memberChunk est chunk (classNameOf chunk)
                                     (Z.of_nat (length pre)) mls)) = mls).
  { cbn [memberChunk text]. now apply split_nl_join. }
  unfold member_placed, member_text_ok, member_named, long_text, textLines,
    member_bounded.
  rewrite Hsplit. cbn [memberChunk startLine endLine type parentClass
                         signature text].
  repeat split; try lia.
  - rewrite Hall, !length_app. lia.
  - rewrite Hall.
    replace (startLine chunk + Z.of_nat (length pre) - startLine chunk)
      with (Z.of_nat (length pre)) by lia.
    replace (startLine chunk + Z.of_nat (length pre)
             + Z.of_nat (length mls) - 1
             - (startLine chunk + Z.of_nat (length pre)) + 1)
      with (Z.of_nat (length mls)) by lia.
    now rewrite run_middle.
  - apply Hstart.
  - apply Hstart.
  - replace (Z.to_nat
               (startLine chunk + Z.of_nat (length pre)
                + Z.of_nat (length mls) - 1 - startLine chunk + 1))
      with (length pre + length mls)%nat by lia.
    rewrite Hall, nth_error_after. exact Hend.
Qed.

(** X10. The members of a chunk come in the order of its text and share
    no line: each ends before the next one starts. Each starts after the
    first line of the chunk, spans as many lines as its own text has, and
    ends inside the text of the chunk. *)
Theorem members_in_text_order est chunk :
  ForallOrdPairs (fun m1 m2 => endLine m1 < startLine m2)
    (membersOf est chunk)
  /\ Forall (member_placed chunk) (membersOf est chunk).
Proof.
  destruct (membersOf_inv est chunk) as (Hat & Hch). split.
  - eapply chain_ordered; eassumption.
  - eapply Forall_impl; [|exact Hat].
    intros m Hm. now apply member_at_facts in Hm.
Qed.

(** X11. The text of a member is a run of whole lines of the text of its
    chunk: the lines at the offsets that its line range gives, counted from
    the start line of the chunk. *)
Theorem member_text_is_run est chunk :
  Forall (member_text_ok chunk) (membersOf est chunk).
Proof.
  destruct (membersOf_inv est chunk) as (Hat & _).
  eapply Forall_impl; [|exact Hat].
  intros m Hm. now apply member_at_facts in Hm.
Qed.

(** X12. A member has kind method; its parent qualifier is the name read
    from the first line of the chunk (the leading word, or Unknown); its
    signature is that name, two colons, and the first line of the member
    trimmed and cut to 80 characters. *)
Theorem member_names est chunk :
  Forall (member_named chunk) (membersOf est chunk).
Proof.
  destruct (membersOf_inv est chunk) as (Hat & _).
  eapply Forall_impl; [|exact Hat].
  intros m Hm. now apply member_at_facts in Hm.
Qed.

(** X13. A member starts on a line that matches the method pattern and is
    indented deeper than the first line of its chunk. It runs to the end
    of the text of the chunk, or up to a line that is neither blank nor a
    comment and is indented no deeper than the first line of the member. *)
Theorem member_boundaries est chunk :
  Forall (member_bounded chunk) (membersOf est chunk).
Proof.
  destruct (membersOf_inv est chunk) as (Hat & _).
  eapply Forall_impl; [|exact Hat].
  intros m Hm. now apply member_at_facts in Hm.
Qed.

(** X14. The members of a chunk of the first pass lie inside the line
    range of that chunk, after its start line. *)
Theorem members_inside_parent_range est content :
  Forall (fun c =>
            Forall (fun m => startLine c < startLine m
                             /\ startLine m <= endLine m
                             /\ endLine m <= endLine c)
              (membersOf est c))
    (segmenterPass est content).
Proof.
  destruct (segmenterPass_chain est content) as (_ & Hok).
  eapply Forall_impl; [|exact Hok].
  intros c (Hsize & _).
  destruct (membersOf_inv est c) as (Hat & _).
  eapply Forall_impl; [|exact Hat].
  intros m Hm. apply member_at_facts in Hm.
  destruct Hm as ((H1 & H2 & H3) & _).
  unfold size_ok in Hsize. unfold textLines in *.
  assert (1 <= length (split_nl (text m)))%nat.
  { rewrite split_nl_length. lia. }
  lia.
Qed.

(* ================================================================== *)
(** ** Chunks within the budget *)
(* ================================================================== *)

Lemma applyTokenLimits_small_from est targetTokens overlapTokens chunks :
  forall result,
    Forall (fun c => 2 * tokenCount c <= 3 * targetTokens) chunks ->
    fold_left (limit_one est targetTokens overlapTokens) chunks result
    = result ++ chunks.
Proof.
  induction chunks as [|c cs IH]; intros result H; cbn.
  - now rewrite app_nil_r.
  - apply Forall_cons_iff in H. destruct H as (Hc & Hcs).
    rewrite limit_one_pass_through by assumption.
    rewrite IH by assumption. now rewrite <- app_assoc.
Qed.

(** X15. The split returns a list of chunks as it is when every chunk
    counts at most one and a half times the target (line 447). *)
Theorem small_chunks_unchanged est targetTokens overlapTokens chunks :
  Forall (fun c => 2 * tokenCount c <= 3 * targetTokens) chunks ->
  applyTokenLimits est targetTokens overlapTokens chunks = chunks.
Proof.
  intros H. unfold applyTokenLimits.
  now rewrite applyTokenLimits_small_from.
Qed.

(** A list of one small chunk is returned as it is; with a chunk above
    one and a half times the target in it, the list is not. *)
Lemma small_chunks_unchanged_witness :
  applyTokenLimits charCount 100 20 [two_line_struct; uneven_chunk]
  <> [two_line_struct; uneven_chunk]
  /\ applyTokenLimits charCount 100 20 [two_line_struct]
     = [two_line_struct].
Proof.
  split; [vm_compute; discriminate|].
  apply (small_chunks_unchanged charCount 100 20 [two_line_struct]).
  repeat constructor. vm_compute. discriminate.
Defined.

(* ================================================================== *)
(** ** The split, chunk by chunk *)
(* ================================================================== *)

Section Unsigned.

Variable est : jsstring -> Z.
Variables targetTokens overlapTokens : Z.
Variable chunk : Chunk.
Variable sig : jsstring.
Variable r : list Chunk.

Lemma split_step_unsigned s s0 i line :
  same_unsigned r s s0 ->
  same_unsigned r (split_step est targetTokens overlapTokens chunk sig s i line)
    (split_step est targetTokens overlapTokens chunk sig s0 i line).
Proof.
  intros (Hl & Ht & Hs & Hr). unfold split_step, same_unsigned.
  rewrite Hl, Ht, Hs.
  destruct ((targetTokens <? Seg.currentTokens s0 + est line)
            && (0 <? length (Seg.currentLines s0))%nat);
    cbn [Seg.currentLines Seg.currentTokens Seg.startLine Seg.result];
    rewrite ?Hl, ?Ht, ?Hs.
  - repeat split; auto.
    rewrite !map_app, Hr, <- app_assoc. reflexivity.
  - repeat split; auto.
Qed.

Lemma split_loop_unsigned lines :
  forall i s s0,
    same_unsigned r s s0 ->
    same_unsigned r
      (split_loop est targetTokens overlapTokens chunk sig i lines s)
      (split_loop est targetTokens overlapTokens chunk sig i lines s0).
Proof.
  induction lines as [|line rest IH]; intros i s s0 H; cbn; [exact H|].
  apply IH. now apply split_step_unsigned.
Qed.

End Unsigned.

Lemma limit_one_unsigned est targetTokens overlapTokens r chunk :
  map unsigned (limit_one est targetTokens overlapTokens r chunk)
  = map unsigned r
    ++ map unsigned (limit_one est targetTokens overlapTokens [] chunk).
Proof.
  unfold limit_one.
  destruct (2 * tokenCount chunk <=? 3 * targetTokens).
  { now rewrite map_app. }
  cbv zeta.
  pose proof (split_loop_unsigned est targetTokens overlapTokens chunk
                (signatureLineOf chunk) r (split_nl (text chunk)) 0%nat
                (Seg.mk [] 0 (startLine chunk) r)
                (Seg.mk [] 0 (startLine chunk) [])) as H.
  destruct H as (Hl & Ht & Hs & Hr).
  { repeat split; auto. cbn. now rewrite app_nil_r. }
  rewrite Hl, Ht, Hs.
  destruct (0 <? length (Seg.currentLines _))%nat; [|exact Hr].
  destruct (20 <? length (trim (join_nl (Seg.currentLines _))))%nat;
    [|exact Hr].
  rewrite !map_app, Hr, <- app_assoc. reflexivity.
Qed.

Lemma applyTokenLimits_unsigned_from est targetTokens overlapTokens chunks :
  forall r,
    map unsigned
      (fold_left (limit_one est targetTokens overlapTokens) chunks r)
    = map unsigned r
      ++ flat_map
           (fun c =>
              map unsigned (limit_one est targetTokens overlapTokens [] c))
           chunks.
Proof.
  induction chunks as [|c cs IH]; intros r; cbn [fold_left flat_map].
  - now rewrite app_nil_r.
  - rewrite IH, limit_one_unsigned. now rewrite <- app_assoc.
Qed.

(** X16. Up to signatures the split works chunk by chunk: without their
    signatures, the chunks of the output are, for each input chunk in
    order, what the split pushes for that chunk into an empty output. The
    output array shared by all chunks (lines 472 and 505) bears on the
    signatures only. So, up to signatures, the split of a concatenation is
    the concatenation of the splits. *)
Theorem split_chunk_by_chunk est targetTokens overlapTokens :
  (forall chunks,
      map unsigned (applyTokenLimits est targetTokens overlapTokens chunks)
      = flat_map
          (fun c =>
             map unsigned (limit_one est targetTokens overlapTokens [] c))
          chunks)
  /\ (forall a b,
        map unsigned
          (applyTokenLimits est targetTokens overlapTokens (a ++ b))
        = map unsigned (applyTokenLimits est targetTokens overlapTokens a)
          ++ map unsigned
               (applyTokenLimits est targetTokens overlapTokens b)).
Proof.
  assert (H : forall chunks,
             map unsigned
               (applyTokenLimits est targetTokens overlapTokens chunks)
             = flat_map
                 (fun c =>
                    map unsigned
                      (limit_one est targetTokens overlapTokens [] c))
                 chunks).
  { intros chunks. unfold applyTokenLimits.
    now rewrite applyTokenLimits_unsigned_from. }
  split; [exact H|].
  intros a b. rewrite !H. apply flat_map_app.
Qed.

(* ================================================================== *)
(** ** The segments of a split chunk tile its text *)
(* ================================================================== *)

Lemma covered_snoc chunk segs s :
  forall k, covered chunk k (segs ++ [s]) = offsetOf chunk s + textLines s.
Proof. induction segs as [|a segs IH]; intros k; cbn; auto. Qed.

Lemma lastOffset_snoc chunk segs s :
  forall p, lastOffset chunk p (segs ++ [s]) = offsetOf chunk s.
Proof. induction segs as [|a segs IH]; intros p; cbn; auto. Qed.

Lemma tiled_snoc est ov chunk segs s :
  forall k p,
    tiled est ov chunk k p segs ->
    lastOffset chunk p segs <= offsetOf chunk s ->
    offsetOf chunk s <= covered chunk k segs ->
    covered chunk k segs < offsetOf chunk s + textLines s ->
    (offsetOf chunk s = covered chunk k segs
     \/ cost est (run (split_nl (text chunk)) (offsetOf chunk s)
                    (covered chunk k segs - offsetOf chunk s)) <= ov) ->
    tiled est ov chunk k p (segs ++ [s]).
Proof.
  induction segs as [|a segs IH]; intros k p Ht H1 H2 H3 H4; cbn in *.
  - repeat split; auto.
  - destruct Ht as (T1 & T2 & T3 & T4 & T5). repeat split; auto.
Qed.

Lemma overlap_loop_suffix est ov rl :
  forall acc n,
    exists x, rev rl ++ acc = x ++ fst (overlap_loop est ov rl acc n).
Proof.
  induction rl as [|l rest IH]; intros acc n; cbn.
  - now exists [].
  - destruct (n <? ov); [|cbn; eexists; reflexivity].
    destruct (n + est l <=? ov); [|cbn; eexists; reflexivity].
    destruct (IH (l :: acc) (n + est l)) as (x & Hx).
    exists x. rewrite <- Hx, <- app_assoc. reflexivity.
Qed.

Ltac conjs := repeat match goal with |- _ /\ _ => split end.

Section Tiling.

Variable est : jsstring -> Z.
Variables targetTokens overlapTokens : Z.
Variable chunk : Chunk.
Variable sig : jsstring.
Variable result0 : list Chunk.

Let all := split_nl (text chunk).
Let cs := startLine chunk.

Lemma run_of_split pre ls post :
  all = pre ++ ls ++ post -> ls <> [] ->
  split_nl (join_nl ls) = ls
  /\ run all (Z.of_nat (length pre)) (Z.of_nat (length ls)) = ls.
Proof.
  intros Hall Hne. split.
  - apply split_nl_join; [exact Hne|].
    pose proof (split_nl_oneLine (text chunk)) as H. fold all in H.
    rewrite Hall in H. apply Forall_app in H. destruct H as (_ & H).
    now apply Forall_app in H.
  - rewrite Hall. apply run_middle.
Qed.

Lemma split_step_tiled done line rest s :
  all = done ++ line :: rest ->
  split_inv est overlapTokens chunk result0 done s ->
  split_inv est overlapTokens chunk result0 (done ++ [line])
    (split_step est targetTokens overlapTokens chunk sig s
       (Z.of_nat (length done)) line).
Proof.
  intros Hall (segs & pre & Hr & Hsegs & Ht & Hd & Hst & Hlo & Hpc & Hcd
               & Hfresh & Hcost).
  unfold split_step.
  destruct ((targetTokens <? Seg.currentTokens s + est line)
            && (0 <? length (Seg.currentLines s))%nat) eqn:Hemit;
    unfold split_inv;
    cbn [Seg.currentLines Seg.currentTokens Seg.startLine Seg.result].
  - apply andb_prop in Hemit. destruct Hemit as (_ & Hpos).
    apply Nat.ltb_lt in Hpos.
    assert (Hne : Seg.currentLines s <> [])
      by (destruct (Seg.currentLines s); cbn in Hpos; [lia | discriminate]).
    destruct Hfresh as [Hfresh|Hnil]; [|congruence].
    set (cur := Seg.currentLines s) in *.
    destruct (run_of_split pre cur (line :: rest)) as (Hsp & Hrun); auto.
    { now rewrite app_assoc, <- Hd. }
    set (seg := mkChunk (join_nl cur) (Seg.startLine s)
                  (Seg.startLine s + Z.of_nat (length cur) - 1)
                  (Seg.currentTokens s) (type chunk)
                  (segmentSignature (Seg.result s) sig) None).
    assert (Hoff : offsetOf chunk seg = Z.of_nat (length pre))
      by (unfold offsetOf; cbn; fold cs; lia).
    assert (Hlines : textLines seg = Z.of_nat (length cur))
      by (unfold textLines; cbn [seg text]; now rewrite Hsp).
    assert (Hlen : Z.of_nat (length done)
                   = Z.of_nat (length pre) + Z.of_nat (length cur))
      by (rewrite Hd, length_app; lia).
    destruct (overlap_loop_suffix est overlapTokens (rev cur) [] 0)
      as (x & Hx).
    rewrite rev_involutive, app_nil_r in Hx.
    destruct (overlap_loop_cost est overlapTokens (rev cur) [] 0)
      as (Hc & Hb); [reflexivity | now left |].
    set (ov := overlap_loop est overlapTokens (rev cur) [] 0) in *.
    exists (segs ++ [seg]), (pre ++ x).
    rewrite covered_snoc, lastOffset_snoc, Hoff, Hlines.
    assert (Hx' : Z.of_nat (length cur)
                  = Z.of_nat (length x) + Z.of_nat (length (fst ov)))
      by (rewrite Hx, length_app; lia).
    conjs.
    + now rewrite Hr, <- app_assoc.
    + apply Forall_app. split; [exact Hsegs|].
      constructor; [|constructor]. unfold segment_of.
      rewrite Hoff, Hlines. conjs; [reflexivity | reflexivity | lia | |].
      * cbn [seg text]. fold all. now rewrite Hsp, Hrun.
      * left. cbn [seg startLine endLine].
        unfold textLines. fold all. rewrite Hall, length_app. cbn [length].
        split; lia.
    + apply tiled_snoc; rewrite ?Hoff, ?Hlines; auto; lia.
    + rewrite Hd. fold cur. rewrite Hx, <- !app_assoc. reflexivity.
    + rewrite length_app. fold cs. lia.
    + rewrite length_app. lia.
    + rewrite length_app. lia.
    + rewrite length_app. cbn [length]. lia.
    + left. rewrite length_app. cbn [length]. lia.
    + destruct (fst ov) as [|o1 orest] eqn:Hov.
      * left. rewrite length_app. cbn [length] in Hx'. lia.
      * right. destruct Hb as [Hb|Hb]; [discriminate|].
        replace (Z.of_nat (length pre) + Z.of_nat (length cur)
                 - Z.of_nat (length (pre ++ x)))
          with (Z.of_nat (length (o1 :: orest)))
          by (rewrite length_app; lia).
        fold all.
        replace all with ((pre ++ x) ++ (o1 :: orest) ++ line :: rest).
        2:{ rewrite Hall, Hd. fold cur. rewrite Hx.
            now rewrite <- !app_assoc. }
        rewrite run_middle. lia.
  - exists segs, pre. rewrite length_app. cbn [length].
    conjs; auto; try lia.
    now rewrite Hd, <- app_assoc.
Qed.

Lemma split_loop_tiled rest :
  forall done s,
    all = done ++ rest ->
    split_inv est overlapTokens chunk result0 done s ->
    split_inv est overlapTokens chunk result0 all
      (split_loop est targetTokens overlapTokens chunk sig (length done)
         rest s).
Proof.
  induction rest as [|line rest IH]; intros done s Hall Hinv; cbn.
  - now rewrite Hall, app_nil_r.
  - replace (S (length done)) with (length (done ++ [line]))
      by (rewrite length_app; cbn; lia).
    apply IH; [now rewrite <- app_assoc|].
    eapply split_step_tiled; eassumption.
Qed.

End Tiling.

(** X19. What the split of one chunk pushes. Each segment has the kind of
    the chunk and no parent qualifier, and its text is a run of whole
    lines of the text of the chunk, at the offset that its start line
    gives; it ends on its last line, or on the end line of the chunk when
    it reaches the end of the text. The segments tile the text from its
    first line: each starts no earlier than the one before and no later
    than where the covered part ends, reaches further, and shares with the
    covered part lines that cost at most the overlap budget. They cover
    the whole text, unless a last run is left out whose trimmed text has
    at most 20 characters. *)
Lemma limit_one_tiles est targetTokens overlapTokens result chunk :
  3 * targetTokens < 2 * tokenCount chunk ->
  exists segs,
    limit_one est targetTokens overlapTokens result chunk = result ++ segs
    /\ Forall (segment_of chunk) segs
    /\ tiled est overlapTokens chunk 0 0 segs
    /\ (covered chunk 0 segs = textLines chunk
        \/ exists p,
             0 <= p <= covered chunk 0 segs
             /\ (length (trim (join_nl
                                 (skipn (Z.to_nat p) (split_nl (text chunk)))))
                 <= 20)%nat).
Proof.
  intros Hbig. unfold limit_one.
  apply Z.leb_gt in Hbig. rewrite Hbig. cbv zeta.
  pose proof (split_loop_tiled est targetTokens overlapTokens chunk
                (signatureLineOf chunk) result (split_nl (text chunk)) []
                (Seg.mk [] 0 (startLine chunk) result) eq_refl) as Hinv.
  cbn [length] in Hinv.
  set (s := split_loop est targetTokens overlapTokens chunk
              (signatureLineOf chunk) 0 (split_nl (text chunk)) _) in *.
  destruct Hinv as (segs & pre & Hr & Hsegs & Ht & Hd & Hst & Hlo & Hpc & Hcd
                    & Hfresh & Hcost).
  { exists [], []. cbn. rewrite app_nil_r. conjs; auto; lia. }
  assert (Htl : textLines chunk
                = Z.of_nat (length pre)
                  + Z.of_nat (length (Seg.currentLines s))).
  { unfold textLines. rewrite Hd, length_app. lia. }
  destruct (0 <? length (Seg.currentLines s))%nat eqn:Hpos.
  2:{ exists segs. apply Nat.ltb_ge in Hpos. conjs; auto.
      left. unfold textLines in *. lia. }
  apply Nat.ltb_lt in Hpos.
  assert (Hne : Seg.currentLines s <> [])
    by (destruct (Seg.currentLines s); cbn in Hpos; [lia | discriminate]).
  destruct Hfresh as [Hfresh|Hnil]; [|congruence].
  destruct (20 <? length (trim (join_nl (Seg.currentLines s))))%nat eqn:Hlong.
  - set (seg := mkChunk (join_nl (Seg.currentLines s)) (Seg.startLine s)
                  (endLine chunk) (Seg.currentTokens s) (type chunk)
                  (segmentSignature (Seg.result s) (signatureLineOf chunk))
                  None).
    destruct (run_of_split chunk pre (Seg.currentLines s) [])
      as (Hsp & Hrun); auto.
    { now rewrite app_nil_r. }
    assert (Hoff : offsetOf chunk seg = Z.of_nat (length pre))
      by (unfold offsetOf; cbn; lia).
    assert (Hlines : textLines seg = Z.of_nat (length (Seg.currentLines s)))
      by (unfold textLines; cbn [seg text]; now rewrite Hsp).
    exists (segs ++ [seg]).
    rewrite covered_snoc, Hoff, Hlines.
    conjs.
    + now rewrite Hr, <- app_assoc.
    + apply Forall_app. split; [exact Hsegs|].
      constructor; [|constructor]. unfold segment_of.
      rewrite Hoff, Hlines. conjs; [reflexivity | reflexivity | lia | |].
      * cbn [seg text]. now rewrite Hsp, Hrun.
      * right. split; [lia | reflexivity].
    + apply tiled_snoc; rewrite ?Hoff, ?Hlines; auto.
      rewrite Hd, length_app in Hfresh. lia.
    + left. lia.
  - exists segs. conjs; auto.
    right. exists (Z.of_nat (length pre)). split; [lia|].
    rewrite Nat2Z.id, Hd, skipn_app, skipn_all, Nat.sub_diag. cbn [skipn app].
    now apply Nat.ltb_ge in Hlong.
Qed.

(** The chunk of a function of 194 tokens, with a target of 100 and an
    overlap budget of 20. *)
Lemma limit_one_tiles_witness :
  segmenterPass charCount (join_nl uneven_function) = [uneven_chunk]
  /\ exists segs,
       limit_one charCount 100 20 [] uneven_chunk = [] ++ segs
       /\ Forall (segment_of uneven_chunk) segs
       /\ tiled charCount 20 uneven_chunk 0 0 segs
       /\ (covered uneven_chunk 0 segs = textLines uneven_chunk
           \/ exists p,
                0 <= p <= covered uneven_chunk 0 segs
                /\ (length (trim (join_nl
                                    (skipn (Z.to_nat p)
                                       (split_nl (text uneven_chunk)))))
                    <= 20)%nat).
Proof.
  split; [vm_compute; reflexivity|].
  apply (limit_one_tiles charCount 100 20 [] uneven_chunk).
  vm_compute. reflexivity.
Defined.

(* ================================================================== *)
(** ** The shape of the segments *)
(* ================================================================== *)

(** The lines the overlap loop keeps are lines of the segment. *)
Lemma overlap_loop_lines est ov cur :
  Forall oneLine cur ->
  Forall oneLine (fst (overlap_loop est ov (rev cur) [] 0)).
Proof.
  intros H. destruct (overlap_loop_suffix est ov (rev cur) [] 0) as (x & Hx).
  rewrite rev_involutive, app_nil_r in Hx. rewrite Hx in H.
  now apply Forall_app in H.
Qed.

(** A segment made of the lines the inner loop holds has the shape of
    these lines. *)
Lemma segment_shaped est targetTokens overlapTokens c cur :
  text c = join_nl cur -> cur <> [] -> Forall oneLine cur ->
  seg_shape est targetTokens overlapTokens cur (tokenCount c) ->
  shaped est targetTokens overlapTokens c.
Proof.
  intros Ht Hne Hl Hs. unfold shaped. rewrite Ht.
  now rewrite split_nl_join.
Qed.

Section Shaped.

Variable est : jsstring -> Z.
Variables targetTokens overlapTokens : Z.
Variable chunk : Chunk.
Variable sig : jsstring.
Variable result0 : list Chunk.

Lemma split_step_shaped s i line :
  oneLine line ->
  split_shaped est targetTokens overlapTokens result0 s ->
  split_shaped est targetTokens overlapTokens result0
    (split_step est targetTokens overlapTokens chunk sig s i line).
Proof.
  intros Hline ((segs & Hr & Hsegs) & Hlines & Hcost & Hshape).
  unfold split_shaped, split_step.
  destruct ((targetTokens <? Seg.currentTokens s + est line)
            && (0 <? length (Seg.currentLines s))%nat) eqn:Hemit;
    cbn [Seg.currentLines Seg.currentTokens Seg.startLine Seg.result].
  - apply andb_prop in Hemit. destruct Hemit as (_ & Hpos).
    apply Nat.ltb_lt in Hpos.
    destruct (overlap_loop_cost est overlapTokens (rev (Seg.currentLines s))
                [] 0) as (Hc & Hov); [reflexivity | now left |].
    pose proof (overlap_loop_lines est overlapTokens _ Hlines) as Hovl.
    set (ov := overlap_loop est overlapTokens (rev (Seg.currentLines s)) [] 0)
      in *.
    split; [|split; [|split]].
    + eexists. rewrite Hr, <- app_assoc. split; [reflexivity|].
      apply Forall_app. split; [exact Hsegs|].
  constructor; [|constructor].
      apply segment_shaped with (cur := Seg.currentLines s);
        [reflexivity | | exact Hlines |].
      * intros Hnil. rewrite Hnil in Hpos. cbn in Hpos. lia.
      * cbn. destruct Hshape as [Hnil|Hshape]; [|exact Hshape].
        rewrite Hnil in Hpos. cbn in Hpos. lia.
    + apply Forall_app. split; [exact Hovl | now repeat constructor].
    + rewrite cost_app. cbn. lia.
    + right. split; [rewrite cost_app; cbn; lia|].
      right. exists (fst ov), line. split; [reflexivity|].
      destruct Hov as [Hov|Hov]; [now left | right; lia].
  - split; [exists segs; auto|].
    split; [apply Forall_app; split; [exact Hlines | now repeat constructor]|].
    split; [rewrite cost_app; cbn; lia|].
    right. split; [rewrite cost_app; cbn; lia|].
    apply andb_false_iff in Hemit. destruct Hemit as [Hfit|Hempty].
    + left. apply Z.ltb_ge in Hfit. lia.
    + right. apply Nat.ltb_ge in Hempty.
      destruct (Seg.currentLines s) as [|l0 ls0]; [|cbn in Hempty; lia].
      exists [], line. split; [reflexivity | now left].
Qed.

Lemma split_loop_shaped lines :
  Forall oneLine lines ->
  forall i s,
    split_shaped est targetTokens overlapTokens result0 s ->
    split_shaped est targetTokens overlapTokens result0
      (split_loop est targetTokens overlapTokens chunk sig i lines s).
Proof.
  induction 1 as [|line rest Hline Hrest IH]; intros i s H; cbn; [exact H|].
  apply IH. now apply split_step_shaped.
Qed.

End Shaped.

(** X18. The segments of a chunk that is split, each read back from its
    text: the token count of a segment is the sum of the estimates of the
    lines of its text, and it is within the target unless these lines are
    one line after an overlap seed that is empty or within the overlap
    budget. *)
Lemma limit_one_shaped est targetTokens overlapTokens result chunk :
  3 * targetTokens < 2 * tokenCount chunk ->
  exists segs,
    limit_one est targetTokens overlapTokens result chunk = result ++ segs
    /\ Forall (shaped est targetTokens overlapTokens) segs.
Proof.
  intros Hbig. unfold limit_one.
  apply Z.leb_gt in Hbig. rewrite Hbig. cbv zeta.
  set (s := split_loop est targetTokens overlapTokens chunk
              (signatureLineOf chunk) 0 (split_nl (text chunk))
              (Seg.mk [] 0 (startLine chunk) result)).
  assert (Hp : split_shaped est targetTokens overlapTokens result s).
  { apply split_loop_shaped; [apply split_nl_oneLine|].
    split; [|split; [constructor | split; [reflexivity | now left]]].
    exists []. cbn. rewrite app_nil_r. split; [reflexivity | constructor]. }
  destruct Hp as ((segs & Hr & Hsegs) & Hlines & Hcost & Hshape).
  destruct (0 <? length (Seg.currentLines s))%nat eqn:Hpos;
    [|now exists segs].
  destruct (20 <? length (trim (join_nl (Seg.currentLines s))))%nat;
    [|now exists segs].
  eexists. rewrite Hr, <- app_assoc. split; [reflexivity|].
  apply Forall_app. split; [exact Hsegs|].
  constructor; [|constructor].
  apply segment_shaped with (cur := Seg.currentLines s);
    [reflexivity | | exact Hlines |].
  - intros Hnil. rewrite Hnil in Hpos. discriminate.
  - cbn. destruct Hshape as [Hnil|Hshape]; [|exact Hshape].
    rewrite Hnil in Hpos. discriminate.
Qed.

(** The token counts of the segments of [uneven_chunk]. *)
Lemma limit_one_shaped_witness :
  exists segs,
    limit_one charCount 100 20 [] uneven_chunk = [] ++ segs
    /\ Forall (shaped charCount 100 20) segs.
Proof.
  apply (limit_one_shaped charCount 100 20 [] uneven_chunk).
  vm_compute. reflexivity.
Defined.

(* ================================================================== *)
(** ** The split without overlap *)
(* ================================================================== *)

Lemma overlap_loop_none est overlapTokens rl :
  overlapTokens <= 0 -> overlap_loop est overlapTokens rl [] 0 = ([], 0).
Proof.
  intros H. destruct rl as [|l rest]; cbn; [reflexivity|].
  replace (0 <? overlapTokens) with false
    by (symmetry; apply Z.ltb_ge; lia).
  reflexivity.
Qed.

Lemma segmentLines_snoc segs s :
  segmentLines (segs ++ [s]) = segmentLines segs ++ split_nl (text s).
Proof.
  unfold segmentLines. rewrite map_app, concat_app. cbn.
  now rewrite app_nil_r.
Qed.

Section Partition.

Variable est : jsstring -> Z.
Variables targetTokens overlapTokens : Z.
Variable chunk : Chunk.
Variable sig : jsstring.
Variable result0 : list Chunk.

Hypothesis no_overlap : overlapTokens <= 0.

Lemma split_step_partition done line rest s :
  split_nl (text chunk) = done ++ line :: rest ->
  partition_inv result0 done s ->
  partition_inv result0 (done ++ [line])
    (split_step est targetTokens overlapTokens chunk sig s
       (Z.of_nat (length done)) line).
Proof.
  intros Hall (segs & Hr & Hd). unfold split_step, partition_inv.
  destruct ((targetTokens <? Seg.currentTokens s + est line)
            && (0 <? length (Seg.currentLines s))%nat) eqn:Hemit;
    cbn [Seg.currentLines Seg.currentTokens Seg.startLine Seg.result].
  - apply andb_prop in Hemit. destruct Hemit as (_ & Hpos).
    apply Nat.ltb_lt in Hpos.
    rewrite overlap_loop_none by assumption. cbn [fst snd].
    eexists. split; [now rewrite Hr, <- app_assoc|].
    rewrite segmentLines_snoc. cbn [text].
    rewrite split_nl_join.
    + now rewrite Hd.
    + destruct (Seg.currentLines s); cbn in Hpos; [lia | discriminate].
    + pose proof (split_nl_oneLine (text chunk)) as H.
      rewrite Hall, <- Hd in H. apply Forall_app in H.
      destruct H as (H & _). now apply Forall_app in H.
  - exists segs. split; [exact Hr|]. now rewrite app_assoc, Hd.
Qed.

Lemma split_loop_partition rest :
  forall done s,
    split_nl (text chunk) = done ++ rest ->
    partition_inv result0 done s ->
    partition_inv result0 (split_nl (text chunk))
      (split_loop est targetTokens overlapTokens chunk sig (length done)
         rest s).
Proof.
  induction rest as [|line rest IH]; intros done s Hall Hinv; cbn.
  - now rewrite Hall, app_nil_r.
  - replace (S (length done)) with (length (done ++ [line]))
      by (rewrite length_app; cbn; lia).
    apply IH; [now rewrite <- app_assoc|].
    eapply split_step_partition; eassumption.
Qed.

End Partition.

(** X20. With an overlap budget of zero or less the segments of a split
    chunk partition its text: their lines, one after the other, are the
    lines of the chunk, up to a last run that is left out when its trimmed
    text has at most 20 characters. *)
Theorem no_overlap_partition est targetTokens overlapTokens result chunk :
  overlapTokens <= 0 ->
  3 * targetTokens < 2 * tokenCount chunk ->
  exists segs tail,
    limit_one est targetTokens overlapTokens result chunk = result ++ segs
    /\ segmentLines segs ++ tail = split_nl (text chunk)
    /\ (tail = [] \/ (length (trim (join_nl tail)) <= 20)%nat).
Proof.
  intros Hov Hbig. unfold limit_one.
  apply Z.leb_gt in Hbig. rewrite Hbig. cbv zeta.
  pose proof (split_loop_partition est targetTokens overlapTokens chunk
                (signatureLineOf chunk) result Hov (split_nl (text chunk)) []
                (Seg.mk [] 0 (startLine chunk) result) eq_refl) as Hinv.
  cbn [length] in Hinv.
  set (s := split_loop est targetTokens overlapTokens chunk
              (signatureLineOf chunk) 0 (split_nl (text chunk)) _) in *.
  destruct Hinv as (segs & Hr & Hd).
  { exists []. cbn. now rewrite app_nil_r. }
  destruct (0 <? length (Seg.currentLines s))%nat eqn:Hpos.
  2:{ exists segs, []. apply Nat.ltb_ge in Hpos.
      destruct (Seg.currentLines s); [|cbn in Hpos; lia].
      repeat split; auto. }
  apply Nat.ltb_lt in Hpos.
  destruct (20 <? length (trim (join_nl (Seg.currentLines s))))%nat eqn:Hlong.
  - eexists; exists []. split; [now rewrite Hr, <- app_assoc|].
    split; [|now left].
    rewrite segmentLines_snoc, app_nil_r. cbn [text].
    rewrite split_nl_join; [exact Hd | |].
    + destruct (Seg.currentLines s); cbn in Hpos; [lia | discriminate].
    + pose proof (split_nl_oneLine (text chunk)) as H.
      rewrite <- Hd in H. now apply Forall_app in H.
  - exists segs, (Seg.currentLines s). repeat split; auto.
    right. now apply Nat.ltb_ge in Hlong.
Qed.

(** The same chunk with an overlap budget of 0. *)
Lemma no_overlap_partition_witness :
  exists segs tail,
    limit_one charCount 100 0 [] uneven_chunk = [] ++ segs
    /\ segmentLines segs ++ tail = split_nl (text uneven_chunk)
    /\ (tail = [] \/ (length (trim (join_nl tail)) <= 20)%nat).
Proof.
  apply (no_overlap_partition charCount 100 0 [] uneven_chunk).
  - vm_compute. discriminate.
  - vm_compute. reflexivity.
Defined.

(* ================================================================== *)
(** ** The signatures of segments, on an example *)
(* ================================================================== *)

(** The signatures of the segments of [uneven_chunk], split into an
    empty output. *)
Lemma limit_one_signatures_witness :
  exists segs,
    limit_one charCount 100 20 [] uneven_chunk = [] ++ segs
    /\ signed (isEmpty []) (signatureLineOf uneven_chunk) segs.
Proof.
  apply (limit_one_signatures charCount 100 20 [] uneven_chunk).
  vm_compute. reflexivity.
Defined.
